(** * codec.py: Huffman coding, Hamming(7,4) and the corruption pipeline

    A shallow embedding of [codec.py] and the properties its specification
    states about it.

    Modelling conventions.
    - A Python [str] is a [list ascii], one element per character (the
      characters are the 256 code points below U+0100); string literals are
      written [py "..."].
    - A Python [int] is a [Z]; [^] is [Z.lxor], [<<] is [Z.shiftl], [%] is
      [Z.modulo]. List positions that are never negative are [nat].
    - A Python [float] is a binary64 [PrimFloat.float]; no proof below looks
      inside the float operations, so the results hold whatever the rounding.
    - A [dict] is an association list in insertion order with unique keys
      ([dict_set] overwrites in place or appends, as Python does).
    - An exception is a value of [exn]; fallible code lives in [result].
    - [heapq] is transcribed from the standard library's [heapq.py]
      ([_siftdown], [_siftup], [heapify], [heappush], [heappop]), in-place
      list updates becoming state passing.
    - [random.seed(seed); random.randint(a, b)] is a parameter [randint] of
      the corruption code, of which only the contract [a <= draw <= b] is
      assumed.
    - [while] loops carry a fuel argument; running out of fuel is the
      distinguished failure [OutOfFuel], which the statements below exclude
      by showing that the functions return [Ok]. *)

From Stdlib Require Import Ascii String.
From Stdlib Require Import List ZArith Lia Bool Permutation Arith.
From Corelib Require Import PrimFloat.
Import ListNotations.

Set Implicit Arguments.

(** ** Python strings, exceptions and the error monad *)

Definition str := list ascii.

Definition py (x : string) : str := list_ascii_of_string x.

Definition ascii_eqb (a b : ascii) : bool := Ascii.eqb a b.

Inductive exn : Type :=
| IndexError
| KeyError
| ValueError
| OutOfFuel.

Inductive result (A : Type) : Type :=
| Ok (a : A)
| Raise (e : exn).

Arguments Ok {A} a.
Arguments Raise {A} e.

Definition bind {A B : Type} (c : result A) (k : A -> result B) : result B :=
  match c with
  | Ok a => k a
  | Raise e => Raise e
  end.

Notation "x <- c ;; k" := (bind c (fun x => k))
  (at level 61, c at next level, right associativity).
Notation "' p <- c ;; k" := (bind c (fun x => let p := x in k))
  (at level 61, p pattern, c at next level, right associativity).

Definition is_ok {A : Type} (r : result A) : bool :=
  match r with Ok _ => true | Raise _ => false end.

(** [for x in xs: acc = body(acc, x)], stopping at the first exception. *)
Fixpoint foldM {A B : Type} (body : A -> B -> result A) (xs : list B) (acc : A)
  : result A :=
  match xs with
  | [] => Ok acc
  | x :: xs' => acc' <- body acc x ;; foldM body xs' acc'
  end.

(** ** Lists indexed the Python way *)

(** [l[i] = x] for an index already known to be in range; out of range the
    list is returned unchanged (callers check the range first). *)
Fixpoint update {A : Type} (l : list A) (i : nat) (x : A) : list A :=
  match l, i with
  | [], _ => []
  | _ :: t, O => x :: t
  | h :: t, S i' => h :: update t i' x
  end.

(** Natural-number indices (used by [heapq], whose indices are never
    negative). *)
Definition getitem {A : Type} (l : list A) (i : nat) : result A :=
  match nth_error l i with
  | Some x => Ok x
  | None => Raise IndexError
  end.

Definition setitem {A : Type} (l : list A) (i : nat) (x : A) : result (list A) :=
  if i <? length l then Ok (update l i x) else Raise IndexError.

(** Integer indices: a negative index counts from the end, anything outside
    [-len, len) raises [IndexError]. *)
Definition norm_index (len : nat) (i : Z) : result nat :=
  let n := Z.of_nat len in
  let j := (if i <? 0 then i + n else i)%Z in
  if ((0 <=? j) && (j <? n))%Z then Ok (Z.to_nat j) else Raise IndexError.

Definition getitemZ {A : Type} (l : list A) (i : Z) : result A :=
  j <- norm_index (length l) i ;; getitem l j.

Definition setitemZ {A : Type} (l : list A) (i : Z) (x : A) : result (list A) :=
  j <- norm_index (length l) i ;; setitem l j x.

(** [range(start, stop, step)] for a positive [step]. *)
Definition range3 (start stop step : Z) : list Z :=
  map (fun k => (start + step * Z.of_nat k)%Z)
      (seq 0 (Z.to_nat ((stop - start + step - 1) / step))).

(** [l[i:i+n]] for [0 <= i]. *)
Definition slice_from {A : Type} (l : list A) (i : Z) (n : nat) : list A :=
  firstn n (skipn (Z.to_nat i) l).

(** [l[:-k]] for [k > 0]. *)
Definition drop_last {A : Type} (l : list A) (k : Z) : list A :=
  firstn (Z.to_nat (Z.max 0 (Z.of_nat (length l) - k))) l.

(** ** Dictionaries *)

Section Dict.
Variable V : Type.

Definition dict := list (ascii * V).

Fixpoint dict_get (d : dict) (k : ascii) : option V :=
  match d with
  | [] => None
  | (k', v) :: d' => if ascii_eqb k k' then Some v else dict_get d' k
  end.

(** [d[k]] *)
Definition dict_lookup (d : dict) (k : ascii) : result V :=
  match dict_get d k with
  | Some v => Ok v
  | None => Raise KeyError
  end.

(** [d[k] = v]: an existing key keeps its place, a new one goes last. *)
Fixpoint dict_set (d : dict) (k : ascii) (v : V) : dict :=
  match d with
  | [] => [(k, v)]
  | (k', v') :: d' =>
      if ascii_eqb k k' then (k', v) :: d' else (k', v') :: dict_set d' k v
  end.

Definition dict_keys (d : dict) : list ascii := map fst d.
End Dict.

Arguments dict_get {V} d k.
Arguments dict_lookup {V} d k.
Arguments dict_set {V} d k v.
Arguments dict_keys {V} d.

(** ** The standard library's [heapq], on a list ordered by [lt] *)

Module heapq.
Section Heap.
Variable A : Type.
Variable lt : A -> A -> bool.

(** The [while pos > startpos] loop of [_siftdown]; returns the heap and the
    final [pos]. *)
Fixpoint siftdown_loop (fuel : nat) (heap : list A) (startpos pos : nat)
         (newitem : A) : result (list A * nat) :=
  if startpos <? pos then
    match fuel with
    | O => Raise OutOfFuel
    | S fuel' =>
        let parentpos := (pos - 1) / 2 in
        parent <- getitem heap parentpos ;;
        if lt newitem parent then
          heap' <- setitem heap pos parent ;;
          siftdown_loop fuel' heap' startpos parentpos newitem
        else Ok (heap, pos)
    end
  else Ok (heap, pos).

Definition siftdown (heap : list A) (startpos pos : nat) : result (list A) :=
  newitem <- getitem heap pos ;;
  '(heap', pos') <- siftdown_loop pos heap startpos pos newitem ;;
  setitem heap' pos' newitem.

(** The [while childpos < endpos] loop of [_siftup]. *)
Fixpoint siftup_loop (fuel : nat) (heap : list A) (endpos pos : nat)
  : result (list A * nat) :=
  let childpos := 2 * pos + 1 in
  if childpos <? endpos then
    match fuel with
    | O => Raise OutOfFuel
    | S fuel' =>
        let rightpos := childpos + 1 in
        childpos' <-
          (if rightpos <? endpos then
             c <- getitem heap childpos ;;
             r <- getitem heap rightpos ;;
             Ok (if negb (lt c r) then rightpos else childpos)
           else Ok childpos) ;;
        child <- getitem heap childpos' ;;
        heap' <- setitem heap pos child ;;
        siftup_loop fuel' heap' endpos childpos'
    end
  else Ok (heap, pos).

Definition siftup (heap : list A) (pos : nat) : result (list A) :=
  let endpos := length heap in
  let startpos := pos in
  newitem <- getitem heap pos ;;
  '(heap', pos') <- siftup_loop endpos heap endpos pos ;;
  heap'' <- setitem heap' pos' newitem ;;
  siftdown heap'' startpos pos'.

(** [for i in reversed(range(n//2)): _siftup(x, i)] *)
Definition heapify (x : list A) : result (list A) :=
  let n := length x in
  foldM siftup (rev (seq 0 (n / 2))) x.

Definition heappush (heap : list A) (item : A) : result (list A) :=
  let heap' := heap ++ [item] in
  siftdown heap' 0 (length heap' - 1).

(** Returns the popped item and the heap that is left. *)
Definition heappop (heap : list A) : result (A * list A) :=
  match rev heap with
  | [] => Raise IndexError
  | lastelt :: rest =>
      let heap' := rev rest in
      match heap' with
      | [] => Ok (lastelt, heap')
      | returnitem :: _ =>
          heap'' <- setitem heap' 0 lastelt ;;
          heap''' <- siftup heap'' 0 ;;
          Ok (returnitem, heap''')
      end
  end.
End Heap.
End heapq.

(** ** Huffman trees *)

#[local] Unset Elimination Schemes.
Inductive HuffmanNode : Type :=
| Node (symbol : option ascii) (prob : float)
       (left right : option HuffmanNode).
#[local] Set Elimination Schemes.

Definition symbol (n : HuffmanNode) : option ascii :=
  match n with Node sy _ _ _ => sy end.
Definition prob (n : HuffmanNode) : float :=
  match n with Node _ p _ _ => p end.
Definition left (n : HuffmanNode) : option HuffmanNode :=
  match n with Node _ _ l _ => l end.
Definition right (n : HuffmanNode) : option HuffmanNode :=
  match n with Node _ _ _ r => r end.

(** [HuffmanNode.__lt__] *)
Definition node_lt (a b : HuffmanNode) : bool := PrimFloat.ltb (prob a) (prob b).

(** [int -> float], exact below 2^53. *)
Fixpoint float_of_positive (p : positive) : float :=
  match p with
  | xH => 1%float
  | xO p' => (2 * float_of_positive p')%float
  | xI p' => (2 * float_of_positive p' + 1)%float
  end.

Definition float_of_Z (z : Z) : float :=
  match z with
  | Z0 => 0%float
  | Zpos p => float_of_positive p
  | Zneg p => (- float_of_positive p)%float
  end.

(** [collections.Counter(text)]: counts in order of first occurrence. *)
Definition Counter (text : str) : dict Z :=
  fold_left
    (fun counts ch =>
       dict_set counts ch
         (match dict_get counts ch with Some c => c | None => 0 end + 1)%Z)
    text [].

Definition compute_symbol_probabilities (text : str) : dict float :=
  match text with
  | [] => []
  | _ =>
      let counts := Counter text in
      let total := fold_left Z.add (map snd counts) 0%Z in
      map (fun '(sym, c) => (sym, (float_of_Z c / float_of_Z total)%float)) counts
  end.

(** The [while len(heap) > 1] loop of [build_huffman_tree]. *)
Fixpoint merge_loop (fuel : nat) (heap : list HuffmanNode)
  : result (list HuffmanNode) :=
  if 1 <? length heap then
    match fuel with
    | O => Raise OutOfFuel
    | S fuel' =>
        '(n1, heap1) <- heapq.heappop node_lt heap ;;
        '(n2, heap2) <- heapq.heappop node_lt heap1 ;;
        let parent := Node None (prob n1 + prob n2)%float (Some n1) (Some n2) in
        heap3 <- heapq.heappush node_lt heap2 parent ;;
        merge_loop fuel' heap3
    end
  else Ok heap.

Definition build_huffman_tree (probabilities : dict float)
  : result (option HuffmanNode) :=
  let heap := map (fun '(sym, p) => Node (Some sym) p None None) probabilities in
  match heap with
  | [] => Ok None
  | _ =>
      heap <- heapq.heapify node_lt heap ;;
      if length heap =? 1 then
        only <- getitem heap 0 ;;
        Ok (Some (Node None (prob only) (Some only) None))
      else
        heap <- merge_loop (length heap) heap ;;
        root <- getitem heap 0 ;;
        Ok (Some root)
  end.

(** The inner [traverse] of [build_huffman_codes]; [codes] is the dictionary
    it closes over. *)
Fixpoint traverse (node : HuffmanNode) (prefix : str) (codes : dict str)
  : dict str :=
  match node with
  | Node (Some sym) _ _ _ =>
      dict_set codes sym (match prefix with [] => py "0" | _ => prefix end)
  | Node None _ l r =>
      let codes :=
        match l with
        | Some l' => traverse l' (prefix ++ py "0") codes
        | None => codes
        end in
      match r with
      | Some r' => traverse r' (prefix ++ py "1") codes
      | None => codes
      end
  end.

Definition build_huffman_codes (root : option HuffmanNode) : dict str :=
  match root with
  | None => []
  | Some root' => traverse root' [] []
  end.

Definition huffman_encode (text : str) (codes : dict str) : result str :=
  foldM (fun acc ch => c <- dict_lookup codes ch ;; Ok (acc ++ c)) text [].

(** The [for b in bits] loop of [huffman_decode]; [break] returns what has
    been collected. *)
Fixpoint decode_loop (root : HuffmanNode) (bits : str) (node : HuffmanNode)
         (result_chars : str) : str :=
  match bits with
  | [] => result_chars
  | b :: bits' =>
      match (if ascii_eqb b "0" then left node else right node) with
      | None => result_chars
      | Some node' =>
          match symbol node' with
          | Some sym => decode_loop root bits' root (result_chars ++ [sym])
          | None => decode_loop root bits' node' result_chars
          end
      end
  end.

Definition huffman_decode (bits : str) (root : option HuffmanNode) : str :=
  match root with
  | None => []
  | Some root' => decode_loop root' bits root' []
  end.

(** The loop of [huffman_decode_safe]: the early [return ..., False] and the
    final [return ..., True]. *)
Fixpoint decode_safe_loop (root : HuffmanNode) (bits : str) (node : HuffmanNode)
         (result_chars : str) : str * bool :=
  match bits with
  | [] => (result_chars, true)
  | b :: bits' =>
      match (if ascii_eqb b "0" then left node else right node) with
      | None => (result_chars, false)
      | Some node' =>
          match symbol node' with
          | Some sym => decode_safe_loop root bits' root (result_chars ++ [sym])
          | None => decode_safe_loop root bits' node' result_chars
          end
      end
  end.

Definition huffman_decode_safe (bits : str) (root : option HuffmanNode)
  : str * bool :=
  match root with
  | None => ([], true)
  | Some root' => decode_safe_loop root' bits root' []
  end.

(** ** Hamming(7,4) *)

Local Open Scope Z_scope.

Definition bitstr_to_int_list (bits : str) : list Z :=
  map (fun b => if ascii_eqb b "1" then 1 else 0) bits.

Definition int_list_to_bitstr (bits : list Z) : str :=
  map (fun b => if b =? 0 then "0"%char else "1"%char) bits.

(** [int(c)] for a one-character string [c]: a decimal digit, or
    [ValueError]. *)
Definition int_of_char (c : ascii) : result Z :=
  let n := Z.of_nat (nat_of_ascii c) in
  if (48 <=? n) && (n <=? 57) then Ok (n - 48) else Raise ValueError.

Definition len {A : Type} (l : list A) : Z := Z.of_nat (length l).

Definition hamming_7_4_encode (bitstring : str) : result (str * Z) :=
  match bitstring with
  | [] => Ok ([], 0)
  | _ =>
      let pad_bits := (4 - (len bitstring mod 4)) mod 4 in
      let bitstring_padded := bitstring ++ repeat "0"%char (Z.to_nat pad_bits) in
      encoded_bits <-
        foldM
          (fun encoded_bits i =>
             d1 <- (c <- getitemZ bitstring_padded i ;; int_of_char c) ;;
             d2 <- (c <- getitemZ bitstring_padded (i + 1) ;; int_of_char c) ;;
             d3 <- (c <- getitemZ bitstring_padded (i + 2) ;; int_of_char c) ;;
             d4 <- (c <- getitemZ bitstring_padded (i + 3) ;; int_of_char c) ;;
             let p1 := Z.lxor (Z.lxor d1 d2) d4 in
             let p2 := Z.lxor (Z.lxor d1 d3) d4 in
             let p4 := Z.lxor (Z.lxor d2 d3) d4 in
             let codeword := [p1; p2; d1; p4; d2; d3; d4] in
             Ok (encoded_bits ++ codeword))
          (range3 0 (len bitstring_padded) 4) [] ;;
      Ok (int_list_to_bitstr encoded_bits, pad_bits)
  end.

(** [b1, b2, b3, b4, b5, b6, b7 = l]: anything but seven items is a
    [ValueError]. *)
Definition unpack7 (l : list Z) : result (Z * Z * Z * Z * Z * Z * Z) :=
  match l with
  | [b1; b2; b3; b4; b5; b6; b7] => Ok (b1, b2, b3, b4, b5, b6, b7)
  | _ => Raise ValueError
  end.

(** One iteration of the block loop of [hamming_7_4_decode]; the state is
    the (mutated) list [bits] and the collected [data_bits]. *)
Definition decode_block (st : list Z * list Z) (i : Z)
  : result (list Z * list Z) :=
  let '(bits, data_bits) := st in
  '(b1, b2, b3, b4, b5, b6, b7) <- unpack7 (slice_from bits i 7) ;;
  let s1 := Z.lxor (Z.lxor (Z.lxor b1 b3) b5) b7 in
  let s2 := Z.lxor (Z.lxor (Z.lxor b2 b3) b6) b7 in
  let s4 := Z.lxor (Z.lxor (Z.lxor b4 b5) b6) b7 in
  let error_pos := s1 + Z.shiftl s2 1 + Z.shiftl s4 2 in
  if negb (error_pos =? 0) then
    let idx := i + error_pos - 1 in
    old <- getitemZ bits idx ;;
    bits' <- setitemZ bits idx (Z.lxor old 1) ;;
    '(b1, b2, b3, b4, b5, b6, b7) <- unpack7 (slice_from bits' i 7) ;;
    Ok (bits', data_bits ++ [b3; b5; b6; b7])
  else
    Ok (bits, data_bits ++ [b3; b5; b6; b7]).

Definition hamming_7_4_decode (encoded_bits : str) (pad_bits : Z) : result str :=
  match encoded_bits with
  | [] => Ok []
  | _ =>
      if negb (len encoded_bits mod 7 =? 0) then Raise ValueError
      else
        let bits := bitstr_to_int_list encoded_bits in
        '(_, data_bits) <- foldM decode_block (range3 0 (len bits) 7) (bits, []) ;;
        let data_bits :=
          if 0 <? pad_bits then drop_last data_bits pad_bits else data_bits in
        Ok (int_list_to_bitstr data_bits)
  end.

Definition hamming_7_4_decode_no_correction (encoded_bits : str) (pad_bits : Z)
  : result str :=
  match encoded_bits with
  | [] => Ok []
  | _ =>
      if negb (len encoded_bits mod 7 =? 0) then Raise ValueError
      else
        let bits := bitstr_to_int_list encoded_bits in
        data_bits <-
          foldM
            (fun data_bits i =>
               '(b1, b2, b3, b4, b5, b6, b7) <- unpack7 (slice_from bits i 7) ;;
               Ok (data_bits ++ [b3; b5; b6; b7]))
            (range3 0 (len bits) 7) [] ;;
        let data_bits :=
          if 0 <? pad_bits then drop_last data_bits pad_bits else data_bits in
        Ok (int_list_to_bitstr data_bits)
  end.

(** ** Corruption and the pipeline *)

Fixpoint str_eqb (a b : str) : bool :=
  match a, b with
  | [], [] => true
  | x :: a', y :: b' => ascii_eqb x y && str_eqb a' b'
  | _, _ => false
  end.

Record PipelineResult : Type := {
  text_length : Z;
  probabilities : dict float;
  codes : dict str;
  encoded_bits : str;
  decoded_text : str;
  hamming_bits : str;
  pad_bits : Z;
  corrupted_bits : str;
  corrupted_data_bits : str;
  corrupted_decoded_text : str;
  corrupted_decode_ok : bool;
  recovered_bits : str;
  recovered_decoded_text : str;
  recovered_text_ok : bool;
  huffman_ok : bool;
  hamming_ok : bool
}.

Section Pipeline.
(** [randint seed a b] is the value of [random.randint(a, b)] right after
    [random.seed(seed)]. The generator itself is the standard library's;
    all that is used of it is that the draw lies in [a, b]. *)
Variable randint : Z -> Z -> Z -> Z.

Definition add_errors (bitstring : str) (interval seed : Z) : result str :=
  match bitstring with
  | [] => Ok bitstring
  | _ =>
      if interval <=? 0 then Ok bitstring
      else
        let bits := bitstring in
        let start_index :=
          if 1 <? interval then randint seed 0 (Z.max 0 (interval - 1))
          else 0 in
        foldM
          (fun bits i =>
             b <- getitemZ bits i ;;
             setitemZ bits i (if ascii_eqb b "1" then "0"%char else "1"%char))
          (range3 start_index (len bits) interval) bits
  end.

Definition run_full_pipeline (text : str) (error_interval : Z)
  : result PipelineResult :=
  let probs := compute_symbol_probabilities text in
  root <- build_huffman_tree probs ;;
  let codes := build_huffman_codes root in
  encoded_bits <-
    (match text with [] => Ok [] | _ => huffman_encode text codes end) ;;
  let decoded_text := huffman_decode encoded_bits root in
  '(hamming_bits, pad_bits) <- hamming_7_4_encode encoded_bits ;;
  corrupted_bits <- add_errors hamming_bits error_interval 2024 ;;
  corrupted_data_bits <-
    hamming_7_4_decode_no_correction corrupted_bits pad_bits ;;
  let '(corrupted_decoded_text, corrupted_decode_ok) :=
    huffman_decode_safe corrupted_data_bits root in
  recovered_bits <- hamming_7_4_decode corrupted_bits pad_bits ;;
  let recovered_decoded_text := huffman_decode recovered_bits root in
  let recovered_text_ok := str_eqb recovered_decoded_text text in
  Ok {| text_length := len text;
        probabilities := probs;
        codes := codes;
        encoded_bits := encoded_bits;
        decoded_text := decoded_text;
        hamming_bits := hamming_bits;
        pad_bits := pad_bits;
        corrupted_bits := corrupted_bits;
        corrupted_data_bits := corrupted_data_bits;
        corrupted_decoded_text := corrupted_decoded_text;
        corrupted_decode_ok := corrupted_decode_ok;
        recovered_bits := recovered_bits;
        recovered_decoded_text := recovered_decoded_text;
        recovered_text_ok := recovered_text_ok;
        huffman_ok := str_eqb decoded_text text;
        hamming_ok := str_eqb recovered_bits encoded_bits |}.
End Pipeline.


(** ** Bits *)

Definition char_of_bit (b : bool) : ascii := if b then "1"%char else "0"%char.
Definition bit_of_char (c : ascii) : bool := ascii_eqb c "1".
Definition Zb (b : bool) : Z := if b then 1 else 0.

(** A bit string is a string of ["0"] and ["1"] characters, that is, the
    image of a list of booleans. *)
Definition bitstring_of (bs : list bool) : str := map char_of_bit bs.
Definition is_bit (c : ascii) : Prop := c = "0"%char \/ c = "1"%char.
Definition is_bitstring (b : str) : Prop := Forall is_bit b.

(** The integers that stand for bits. *)
Definition bitZ (z : Z) : Prop := z = 0 \/ z = 1.

(** The complement of a bit character. *)
Definition flip_char (c : ascii) : ascii :=
  if ascii_eqb c "1" then "0"%char else "1"%char.

(** [b] with the character at position [k] complemented. *)
Definition flip_at (b : str) (k : nat) : str :=
  match nth_error b k with
  | Some c => update b k (flip_char c)
  | None => b
  end.

(** What one iteration of the correcting decoder does to a block of seven
    integers: the block after correction. *)
Definition block_fix (blk : list Z) : list Z :=
  match blk with
  | [b1; b2; b3; b4; b5; b6; b7] =>
      let s1 := Z.lxor (Z.lxor (Z.lxor b1 b3) b5) b7 in
      let s2 := Z.lxor (Z.lxor (Z.lxor b2 b3) b6) b7 in
      let s4 := Z.lxor (Z.lxor (Z.lxor b4 b5) b6) b7 in
      let error_pos := s1 + Z.shiftl s2 1 + Z.shiftl s4 2 in
      if negb (error_pos =? 0) then
        update blk (Z.to_nat (error_pos - 1))
               (Z.lxor (nth (Z.to_nat (error_pos - 1)) blk 0) 1)
      else blk
  | _ => blk
  end.

Definition block_data (blk : list Z) : list Z :=
  match blk with
  | [_; _; b3; _; b5; b6; b7] => [b3; b5; b6; b7]
  | _ => []
  end.

(** The data bits of a stream of blocks, with and without correction. *)
Fixpoint blocks_data (fix_ : list Z -> list Z) (l : list Z) (n : nat) : list Z :=
  match n with
  | O => []
  | S n' => block_data (fix_ (firstn 7 l)) ++ blocks_data fix_ (skipn 7 l) n'
  end.

(** ** The encoder as the specification words it

    Pad on the right with [(4 - len % 4) % 4] zero bits; for each group
    [(d1,d2,d3,d4)] emit [(p1,p2,d1,p4,d2,d3,d4)] with [p1 = d1+d2+d4],
    [p2 = d1+d3+d4], [p4 = d2+d3+d4] (sums modulo 2). *)

Definition spec_pad_bits (n : Z) : Z := (4 - n mod 4) mod 4.

Definition spec_block (d1 d2 d3 d4 : bool) : list bool :=
  let p1 := xorb (xorb d1 d2) d4 in
  let p2 := xorb (xorb d1 d3) d4 in
  let p4 := xorb (xorb d2 d3) d4 in
  [p1; p2; d1; p4; d2; d3; d4].

Fixpoint spec_blocks (ds : list bool) : list bool :=
  match ds with
  | d1 :: d2 :: d3 :: d4 :: rest => spec_block d1 d2 d3 d4 ++ spec_blocks rest
  | _ => []
  end.

Definition spec_hamming_encode (bs : list bool) : list bool * Z :=
  let pad := spec_pad_bits (len bs) in
  (spec_blocks (bs ++ repeat false (Z.to_nat pad)), pad).

(** The specification's encoder on strings: the bits are read off the
    characters, grouped and written back as characters. *)
Definition spec_encode (B : str) : str * Z :=
  let pad := spec_pad_bits (len B) in
  let padded := B ++ repeat "0"%char (Z.to_nat pad) in
  (bitstring_of (spec_blocks (map bit_of_char padded)), pad).

(** ** Shapes of trees and the codes read off them *)

(** A full binary tree: a leaf carries a symbol and no children, an inner
    node carries no symbol and two children. *)
Inductive proper : HuffmanNode -> Prop :=
| proper_leaf sym p : proper (Node (Some sym) p None None)
| proper_inner p l r :
    proper l -> proper r -> proper (Node None p (Some l) (Some r)).

(** The tree [build_huffman_tree] returns: for one symbol, a root with that
    leaf as its only (left) child; otherwise a full tree whose root is an
    inner node. *)
Inductive huffman_shape : HuffmanNode -> Prop :=
| shape_single p sym q :
    huffman_shape (Node None p (Some (Node (Some sym) q None None)) None)
| shape_full p l r :
    proper l -> proper r -> huffman_shape (Node None p (Some l) (Some r)).

(** The symbols at the leaves, left to right. *)
Fixpoint leaves (n : HuffmanNode) : list ascii :=
  match n with
  | Node (Some sym) _ _ _ => [sym]
  | Node None _ l r =>
      match l with Some l' => leaves l' | None => [] end
      ++ match r with Some r' => leaves r' | None => [] end
  end.

(** The root-to-leaf paths below [n], each prefixed by [prefix]: ["0"] for
    left, ["1"] for right. *)
Fixpoint paths (n : HuffmanNode) (prefix : str) : list (ascii * str) :=
  match n with
  | Node (Some sym) _ _ _ => [(sym, prefix)]
  | Node None _ l r =>
      match l with Some l' => paths l' (prefix ++ py "0") | None => [] end
      ++ match r with Some r' => paths r' (prefix ++ py "1") | None => [] end
  end.

Definition is_prefix (c1 c2 : str) : Prop := exists rest, c2 = c1 ++ rest.

(** No code is a prefix of the code of another symbol. *)
Definition prefix_free (codes : dict str) : Prop :=
  forall s1 c1 s2 c2,
    In (s1, c1) codes -> In (s2, c2) codes -> s1 <> s2 -> ~ is_prefix c1 c2.

(** What the decoder does once it has stepped onto [node]. *)
Definition arrive (root node : HuffmanNode) (bits acc : str) : str :=
  match symbol node with
  | Some sym => decode_loop root bits root (acc ++ [sym])
  | None => decode_loop root bits node acc
  end.

(** How a walk over [bits] ends: cut short by a missing child, or all bits
    consumed with [dangling] the bits read since the last leaf (or since the
    start). The walk is the one of [huffman_decode_safe]. *)
Inductive outcome : Type :=
| CutShort
| Consumed (dangling : str).

Fixpoint walk (root : HuffmanNode) (bits : str) (node : HuffmanNode)
         (pending : str) : outcome :=
  match bits with
  | [] => Consumed pending
  | b :: bits' =>
      match (if ascii_eqb b "0" then left node else right node) with
      | None => CutShort
      | Some node' =>
          match symbol node' with
          | Some _ => walk root bits' root []
          | None => walk root bits' node' (pending ++ [b])
          end
      end
  end.

Definition walk_outcome (bits : str) (root : option HuffmanNode) : outcome :=
  match root with
  | None => Consumed []
  | Some root' => walk root' bits root' []
  end.

(** The code a table gives a symbol (empty when it has none). *)
Definition code_of (codes : dict str) (ch : ascii) : str :=
  match dict_get codes ch with Some c => c | None => [] end.

(** [o] is the bit [c] or its complement. *)
Definition same_or_flipped (c o : ascii) : Prop := o = c \/ o = flip_char c.

(** A generator that always draws the lower bound; it meets the contract of
    [randint] and serves to run the pipeline on concrete inputs. *)
Definition lowest_draw (seed a b : Z) : Z := a.

(** ** Notions used by the further properties *)

(** The number of occurrences of [x] in [text]. *)
Fixpoint occurrences (x : ascii) (text : str) : Z :=
  match text with
  | [] => 0
  | c :: text' => (if ascii_eqb c x then 1 else 0) + occurrences x text'
  end.

(** The characters [int] accepts: the decimal digits. *)
Definition is_digit (c : ascii) : bool :=
  let n := Z.of_nat (nat_of_ascii c) in (48 <=? n) && (n <=? 57).

(** The first position [add_errors] flips. *)
Definition start_index (randint : Z -> Z -> Z -> Z) (interval seed : Z) : Z :=
  if 1 <? interval then randint seed 0 (Z.max 0 (interval - 1)) else 0.

(** Position [i] is one of [start, start + interval, start + 2 interval, ...]. *)
Definition on_stride (start interval i : Z) : bool :=
  (start <=? i) && ((i - start) mod interval =? 0).

(** The count a [Counter] holds for [x] (0 when it has no entry). *)
Definition count_at (counts : dict Z) (x : ascii) : Z :=
  match dict_get counts x with Some c => c | None => 0 end.

(** The sum of the counts. *)
Definition dict_sum (counts : dict Z) : Z := fold_right Z.add 0 (map snd counts).

(** An inner node of a full tree. *)
Definition full_inner (n : HuffmanNode) : Prop :=
  exists p l r, n = Node None p (Some l) (Some r) /\ proper l /\ proper r.

(** The number of ["0"] characters at the head of a string. *)
Fixpoint leading_zeros (bits : str) : nat :=
  match bits with
  | [] => O
  | b :: bits' => if ascii_eqb b "0" then S (leading_zeros bits') else O
  end.

(** At most one of the booleans is [true]. *)
Definition at_most_one (l : list bool) : bool :=
  (length (filter (fun b => b) l) <=? 1)%nat.

(** [b] with the characters complemented where the mask says so. *)
Definition flip_where (b : str) (mask : list bool) : str :=
  map (fun '(c, m) => if (m : bool) then flip_char c else c) (combine b mask).

(** Any two positions the predicate marks are at least seven apart. *)
Definition spaced (P : Z -> bool) : Prop :=
  forall i1 i2, P i1 = true -> P i2 = true -> i1 < i2 -> i1 + 7 <= i2.

(** The node reached from [n] by taking the edges that [path] names, if all
    of them exist. *)
Fixpoint descend (n : HuffmanNode) (path : str) {struct path}
  : option HuffmanNode :=
  match path with
  | [] => Some n
  | b :: path' =>
      match (if ascii_eqb b "0" then left n else right n) with
      | None => None
      | Some c => descend c path'
      end
  end.

(** ** api/process.py: the request layer

    A request body is a JSON value, as [json.loads] returns it. The builtin
    [int], applied to such a value, is the parameter [py_int]: it returns an
    integer or raises. A [ValueError] of the validation carries its
    message. *)

Module process.

#[local] Unset Elimination Schemes.
Inductive json : Type :=
| JNull
| JBool (b : bool)
| JInt (z : Z)
| JFloat (f : float)
| JStr (s : str)
| JArray (items : list json)
| JObject (members : list (str * json)).
#[local] Set Elimination Schemes.

(** [members.get(key, default)] *)
Fixpoint get (members : list (str * json)) (key : str) (default : json) : json :=
  match members with
  | [] => default
  | (k, v) :: members' => if str_eqb key k then v else get members' key default
  end.

Inductive validation (A : Type) : Type :=
| Accepted (a : A)
| Rejected (message : string).

Arguments Accepted {A} a.
Arguments Rejected {A} message.

(** [c.isspace()] for the characters below U+0100. *)
Definition is_space (c : ascii) : bool :=
  let n := nat_of_ascii c in
  ((9 <=? n) && (n <=? 13) || (28 <=? n) && (n <=? 32)
   || (n =? 133) || (n =? 160))%nat.

Fixpoint lstrip (text : str) : str :=
  match text with
  | [] => []
  | c :: text' => if is_space c then lstrip text' else text
  end.

(** [text.strip()] *)
Definition strip (text : str) : str := rev (lstrip (rev (lstrip text))).

(** [text[:limit]] *)
Definition slice_to (text : str) (limit : Z) : str :=
  firstn (Z.to_nat (if limit <? 0 then Z.max 0 (len text + limit) else limit))
         text.

Definition _preview (text : str) (limit : Z) : str :=
  match text with
  | [] => []
  | _ => slice_to text limit
  end.

Section Validate.
Variable py_int : json -> result Z.

Definition _validate_request (data : json) : validation (str * Z) :=
  match data with
  | JObject members =>
      match get members (py "text") (JStr []) with
      | JStr text =>
          match strip text with
          | [] => Rejected "'text' must be a non-empty string"
          | _ =>
              match py_int (get members (py "error_interval") (JInt 50)) with
              | Raise _ => Rejected "'error_interval' must be an integer"
              | Ok interval =>
                  if interval <? 1 then Rejected "'error_interval' must be >= 1"
                  else Accepted (text, interval)
              end
          end
      | _ => Rejected "'text' must be a non-empty string"
      end
  | _ => Rejected "Request body must be a JSON object"
  end.
End Validate.

(** [int] on the JSON integers and booleans, failing elsewhere: a stand-in
    for the builtin on which to run the validation. *)
Definition int_of_number (j : json) : result Z :=
  match j with
  | JInt z => Ok z
  | JBool b => Ok (if b then 1 else 0)
  | _ => Raise ValueError
  end.

End process.

(** * Properties *)

(** ** Lists and indices *)

Lemma update_length (A : Type) (l : list A) i x :
  length (update l i x) = length l.
Proof.
  revert i; induction l as [|h t IH]; intros [|i]; simpl; auto.
Qed.

Lemma update_app_r (A : Type) (pre l : list A) j x :
  update (pre ++ l) (length pre + j) x = pre ++ update l j x.
Proof.
  induction pre as [|h t IH]; simpl; [reflexivity | now rewrite IH].
Qed.

Lemma update_app_l (A : Type) (l post : list A) j x :
  (j < length l)%nat -> update (l ++ post) j x = update l j x ++ post.
Proof.
  revert j; induction l as [|h t IH]; intros [|j] Hj; simpl in *; try lia; auto.
  rewrite IH by lia; reflexivity.
Qed.



Lemma len_app (A : Type) (l1 l2 : list A) : len (l1 ++ l2) = len l1 + len l2.
Proof. unfold len; rewrite length_app; lia. Qed.


Lemma norm_index_ok n i :
  0 <= i < Z.of_nat n -> norm_index n i = Ok (Z.to_nat i).
Proof.
  intros Hi; unfold norm_index.
  destruct (i <? 0) eqn:E; [apply Z.ltb_lt in E; lia|].
  destruct (0 <=? i) eqn:E1; [|apply Z.leb_gt in E1; lia].
  destruct (i <? Z.of_nat n) eqn:E2; [|apply Z.ltb_ge in E2; lia].
  reflexivity.
Qed.

Lemma getitem_ok (A : Type) (l : list A) i x :
  nth_error l i = Some x -> getitem l i = Ok x.
Proof. unfold getitem; now intros ->. Qed.

Lemma setitem_ok (A : Type) (l : list A) i x :
  (i < length l)%nat -> setitem l i x = Ok (update l i x).
Proof.
  intros Hi; unfold setitem.
  destruct (i <? length l)%nat eqn:E; [reflexivity|].
  apply Nat.ltb_ge in E; lia.
Qed.

Lemma getitemZ_ok (A : Type) (l : list A) j x :
  nth_error l j = Some x -> getitemZ l (Z.of_nat j) = Ok x.
Proof.
  intros H; unfold getitemZ.
  assert (j < length l)%nat by (apply nth_error_Some; congruence).
  rewrite norm_index_ok by lia; simpl.
  rewrite Nat2Z.id; now apply getitem_ok.
Qed.

Lemma setitemZ_ok (A : Type) (l : list A) j x :
  (j < length l)%nat -> setitemZ l (Z.of_nat j) x = Ok (update l j x).
Proof.
  intros H; unfold setitemZ.
  rewrite norm_index_ok by lia; simpl.
  rewrite Nat2Z.id; now apply setitem_ok.
Qed.

Lemma getitemZ_mid (A : Type) (pre blk post : list A) j x :
  nth_error blk j = Some x ->
  getitemZ (pre ++ blk ++ post) (len pre + Z.of_nat j) = Ok x.
Proof.
  intros H; unfold len; rewrite <- Nat2Z.inj_add.
  apply getitemZ_ok.
  assert (j < length blk)%nat by (apply nth_error_Some; congruence).
  rewrite nth_error_app2 by lia.
  replace (length pre + j - length pre)%nat with j by lia.
  rewrite nth_error_app1 by lia; assumption.
Qed.

Lemma setitemZ_mid (A : Type) (pre blk post : list A) j x :
  (j < length blk)%nat ->
  setitemZ (pre ++ blk ++ post) (len pre + Z.of_nat j) x
  = Ok (pre ++ update blk j x ++ post).
Proof.
  intros H; unfold len; rewrite <- Nat2Z.inj_add.
  rewrite setitemZ_ok by (rewrite !length_app; lia).
  rewrite update_app_r, update_app_l by lia; reflexivity.
Qed.

Lemma slice_from_mid (A : Type) (pre blk post : list A) :
  slice_from (pre ++ blk ++ post) (len pre) (length blk) = blk.
Proof.
  unfold slice_from, len; rewrite Nat2Z.id.
  rewrite skipn_app, skipn_all, Nat.sub_diag; simpl.
  rewrite firstn_app, firstn_all, Nat.sub_diag; simpl.
  apply app_nil_r.
Qed.

Lemma range3_nil start stop step :
  0 < step -> stop <= start -> range3 start stop step = [].
Proof.
  intros Hs Hle; unfold range3.
  replace (Z.to_nat ((stop - start + step - 1) / step)) with O; [reflexivity|].
  assert ((stop - start + step - 1) / step <= 0); [|lia].
  apply Z.lt_succ_r, Z.div_lt_upper_bound; lia.
Qed.

Lemma range3_cons start stop step :
  0 < step -> start < stop ->
  range3 start stop step = start :: range3 (start + step) stop step.
Proof.
  intros Hs Hlt; unfold range3.
  replace (stop - start + step - 1) with ((stop - (start + step) + step - 1) + 1 * step)
    by lia.
  rewrite Z.div_add by lia.
  assert (0 <= (stop - (start + step) + step - 1) / step)
    by (apply Z.div_pos; lia).
  rewrite Z2Nat.inj_add by lia.
  rewrite Nat.add_comm; simpl.
  f_equal; [lia|].
  rewrite <- seq_shift, map_map.
  apply map_ext; intros k; lia.
Qed.

(** ** Hamming(7,4): the block loops *)

Lemma bitZ_Zb b : bitZ (Zb b).
Proof. destruct b; [right | left]; reflexivity. Qed.

Lemma Forall_bitZ_map_Zb (l : list bool) : Forall bitZ (map Zb l).
Proof. induction l; simpl; constructor; auto using bitZ_Zb. Qed.

Lemma bitstr_to_int_list_bits (e : str) :
  bitstr_to_int_list e = map Zb (map bit_of_char e).
Proof.
  unfold bitstr_to_int_list; rewrite map_map; apply map_ext.
  intros c; unfold bit_of_char, Zb; destruct (ascii_eqb c "1"); reflexivity.
Qed.

Lemma int_list_to_bitstr_bits (l : list bool) :
  int_list_to_bitstr (map Zb l) = bitstring_of l.
Proof.
  unfold int_list_to_bitstr, bitstring_of; rewrite map_map; apply map_ext.
  intros []; reflexivity.
Qed.

Lemma bit_of_char_of_bit b : bit_of_char (char_of_bit b) = b.
Proof. destruct b; reflexivity. Qed.

Lemma bitstr_to_int_list_of_bits (l : list bool) :
  bitstr_to_int_list (bitstring_of l) = map Zb l.
Proof.
  unfold bitstr_to_int_list, bitstring_of. rewrite map_map. apply map_ext.
  intros []; reflexivity.
Qed.

Lemma length7_inv (A : Type) (l : list A) :
  length l = 7%nat ->
  exists b1 b2 b3 b4 b5 b6 b7, l = [b1; b2; b3; b4; b5; b6; b7].
Proof.
  intros H.
  do 7 (destruct l as [|? l]; [discriminate H|]).
  destruct l; [|discriminate H].
  repeat eexists.
Qed.

Lemma error_pos_range b1 b2 b3 b4 b5 b6 b7 :
  Forall bitZ [b1; b2; b3; b4; b5; b6; b7] ->
  0 <= Z.lxor (Z.lxor (Z.lxor b1 b3) b5) b7
       + Z.shiftl (Z.lxor (Z.lxor (Z.lxor b2 b3) b6) b7) 1
       + Z.shiftl (Z.lxor (Z.lxor (Z.lxor b4 b5) b6) b7) 2 <= 7.
Proof.
  intros H.
  repeat match goal with
         | H : Forall _ (_ :: _) |- _ => inversion H; subst; clear H
         end.
  repeat match goal with
         | H : bitZ _ |- _ => destruct H; subst
         end; simpl; lia.
Qed.

Lemma block_fix_length blk : length (block_fix blk) = length blk.
Proof.
  unfold block_fix.
  do 8 (try destruct blk as [|? blk]; try reflexivity).
  match goal with |- context [if ?c then _ else _] => destruct c end;
    [apply update_length | reflexivity].
Qed.

Lemma data_after_unpack (X : Type) (x : X) (data l : list Z) :
  length l = 7%nat ->
  ('(b1, b2, b3, b4, b5, b6, b7) <- unpack7 l ;;
   Ok (x, data ++ [b3; b5; b6; b7]))
  = Ok (x, data ++ block_data l).
Proof.
  intros H; destruct (length7_inv l H) as (b1 & b2 & b3 & b4 & b5 & b6 & b7 & ->).
  reflexivity.
Qed.

Lemma decode_block_mid (pre blk post data : list Z) :
  length blk = 7%nat -> Forall bitZ blk ->
  decode_block (pre ++ blk ++ post, data) (len pre)
  = Ok (pre ++ block_fix blk ++ post, data ++ block_data (block_fix blk)).
Proof.
  intros Hlen Hbits.
  destruct (length7_inv blk Hlen) as (b1 & b2 & b3 & b4 & b5 & b6 & b7 & ->).
  pose proof (error_pos_range Hbits) as Hrange.
  unfold decode_block.
  change 7%nat with (length [b1; b2; b3; b4; b5; b6; b7]) at 1.
  rewrite slice_from_mid.
  cbn [unpack7 bind block_fix].
  set (error_pos := Z.lxor (Z.lxor (Z.lxor b1 b3) b5) b7
                    + Z.shiftl (Z.lxor (Z.lxor (Z.lxor b2 b3) b6) b7) 1
                    + Z.shiftl (Z.lxor (Z.lxor (Z.lxor b4 b5) b6) b7) 2) in *.
  destruct (error_pos =? 0) eqn:E; cbn [negb]; [reflexivity|].
  apply Z.eqb_neq in E.
  set (blk := [b1; b2; b3; b4; b5; b6; b7]) in *.
  set (j := Z.to_nat (error_pos - 1)).
  assert (Hj : (j < length blk)%nat) by (subst j; simpl; lia).
  replace (len pre + error_pos - 1) with (len pre + Z.of_nat j)
    by (subst j; lia).
  rewrite (getitemZ_mid pre blk post j (x := nth j blk 0))
    by (apply nth_error_nth'; exact Hj).
  cbn [bind].
  rewrite setitemZ_mid by exact Hj.
  cbn [bind].
  set (blk' := update blk j (Z.lxor (nth j blk 0) 1)).
  assert (Hlen' : length blk' = 7%nat) by (subst blk'; rewrite update_length; reflexivity).
  rewrite <- Hlen' at 1.
  rewrite slice_from_mid.
  apply data_after_unpack; exact Hlen'.
Qed.


(** The correcting loop, started at the block boundary [len pre], over [n]
    further blocks: it never fails and collects the corrected data. *)
Lemma decode_loop_blocks (n : nat) :
  forall (pre l data : list Z),
    length l = (7 * n)%nat -> Forall bitZ l ->
    exists bits',
      foldM decode_block (range3 (len pre) (len pre + len l) 7) (pre ++ l, data)
      = Ok (bits', data ++ blocks_data block_fix l n).
Proof.
  induction n as [|n IH]; intros pre l data Hlen Hbits.
  - destruct l; [|discriminate Hlen].
    rewrite range3_nil by (unfold len; simpl; lia).
    simpl. rewrite !app_nil_r. eauto.
  - assert (H7 : length (firstn 7 l) = 7%nat) by (rewrite length_firstn; lia).
    assert (Hr : length (skipn 7 l) = (7 * n)%nat) by (rewrite length_skipn; lia).
    pose proof (firstn_skipn 7 l) as El.
    cbn [blocks_data].
    remember (firstn 7 l) as blk eqn:Eblk.
    remember (skipn 7 l) as rest eqn:Erest.
    rewrite <- El in Hbits |- *.
    apply Forall_app in Hbits as [Hb1 Hb2].
    rewrite range3_cons by (try rewrite len_app; unfold len; lia).
    cbn [foldM].
    rewrite decode_block_mid by assumption.
    cbn [bind].
    destruct (IH (pre ++ block_fix blk) rest
                 (data ++ block_data (block_fix blk)) Hr Hb2)
      as [bits' Hfold].
    exists bits'.
    rewrite <- app_assoc in Hfold.
    replace (len pre + 7) with (len (pre ++ block_fix blk))
      by (rewrite len_app; unfold len; rewrite block_fix_length, H7; lia).
    replace (len pre + len (blk ++ rest))
      with (len (pre ++ block_fix blk) + len rest)
      by (rewrite !len_app; unfold len; rewrite block_fix_length; lia).
    rewrite Hfold, <- app_assoc. reflexivity.
Qed.

(** The same for the loop of the decoder without correction, which reads the
    blocks of a fixed list. *)
Lemma nocorrect_loop_blocks (n : nat) :
  forall (pre l data : list Z),
    length l = (7 * n)%nat ->
    foldM
      (fun data_bits i =>
         '(b1, b2, b3, b4, b5, b6, b7) <- unpack7 (slice_from (pre ++ l) i 7) ;;
         Ok (data_bits ++ [b3; b5; b6; b7]))
      (range3 (len pre) (len pre + len l) 7) data
    = Ok (data ++ blocks_data (fun b => b) l n).
Proof.
  induction n as [|n IH]; intros pre l data Hlen.
  - destruct l; [|discriminate Hlen].
    rewrite range3_nil by (unfold len; simpl; lia).
    simpl. rewrite !app_nil_r. reflexivity.
  - assert (H7 : length (firstn 7 l) = 7%nat) by (rewrite length_firstn; lia).
    assert (Hr : length (skipn 7 l) = (7 * n)%nat) by (rewrite length_skipn; lia).
    rewrite range3_cons by (unfold len; lia).
    cbn [foldM].
    destruct (length7_inv _ H7) as (b1 & b2 & b3 & b4 & b5 & b6 & b7 & E7).
    assert (El : l = [b1; b2; b3; b4; b5; b6; b7] ++ skipn 7 l)
      by (rewrite <- E7; symmetry; apply firstn_skipn).
    rewrite El at 1.
    change 7%nat with (length [b1; b2; b3; b4; b5; b6; b7]) at 1.
    rewrite slice_from_mid.
    cbn [unpack7 bind].
    specialize (IH (pre ++ [b1; b2; b3; b4; b5; b6; b7]) (skipn 7 l)
                   (data ++ [b3; b5; b6; b7]) Hr).
    rewrite <- app_assoc, <- El in IH.
    replace (len pre + 7) with (len (pre ++ [b1; b2; b3; b4; b5; b6; b7]))
      by (rewrite len_app; reflexivity).
    replace (len pre + len l)
      with (len (pre ++ [b1; b2; b3; b4; b5; b6; b7]) + len (skipn 7 l))
      by (rewrite El at 2; rewrite !len_app; lia).
    rewrite IH. cbn [blocks_data]. rewrite E7, <- app_assoc. reflexivity.
Qed.

(** ** Hamming(7,4): the encoder loop *)

Lemma int_of_char_of_bit b : int_of_char (char_of_bit b) = Ok (Zb b).
Proof. destruct b; reflexivity. Qed.

Lemma lxor_Zb a b : Z.lxor (Zb a) (Zb b) = Zb (xorb a b).
Proof. destruct a, b; reflexivity. Qed.

Lemma length4_inv (A : Type) (l : list A) :
  length l = 4%nat -> exists d1 d2 d3 d4, l = [d1; d2; d3; d4].
Proof.
  intros H.
  do 4 (destruct l as [|? l]; [discriminate H|]).
  destruct l; [|discriminate H].
  repeat eexists.
Qed.

Lemma digit_at (pre blk post : list bool) (j : nat) (d : bool) :
  nth_error blk j = Some d ->
  (c <- getitemZ (bitstring_of (pre ++ blk ++ post)) (len pre + Z.of_nat j) ;;
   int_of_char c)
  = Ok (Zb d).
Proof.
  intros H.
  unfold bitstring_of; rewrite !map_app.
  replace (len pre) with (len (map char_of_bit pre))
    by (unfold len; rewrite length_map; reflexivity).
  rewrite (getitemZ_mid _ (map char_of_bit blk) _ j (x := char_of_bit d))
    by (rewrite nth_error_map, H; reflexivity).
  apply int_of_char_of_bit.
Qed.

Lemma encode_loop_blocks (n : nat) :
  forall (pre l : list bool) (acc : list Z),
    length l = (4 * n)%nat ->
    foldM
      (fun encoded_bits i =>
         d1 <- (c <- getitemZ (bitstring_of (pre ++ l)) i ;; int_of_char c) ;;
         d2 <- (c <- getitemZ (bitstring_of (pre ++ l)) (i + 1) ;; int_of_char c) ;;
         d3 <- (c <- getitemZ (bitstring_of (pre ++ l)) (i + 2) ;; int_of_char c) ;;
         d4 <- (c <- getitemZ (bitstring_of (pre ++ l)) (i + 3) ;; int_of_char c) ;;
         let p1 := Z.lxor (Z.lxor d1 d2) d4 in
         let p2 := Z.lxor (Z.lxor d1 d3) d4 in
         let p4 := Z.lxor (Z.lxor d2 d3) d4 in
         let codeword := [p1; p2; d1; p4; d2; d3; d4] in
         Ok (encoded_bits ++ codeword))
      (range3 (len pre) (len pre + len l) 4) acc
    = Ok (acc ++ map Zb (spec_blocks l)).
Proof.
  induction n as [|n IH]; intros pre l acc Hlen.
  - destruct l; [|discriminate Hlen].
    rewrite range3_nil by (unfold len; simpl; lia).
    simpl. rewrite app_nil_r. reflexivity.
  - assert (H4 : length (firstn 4 l) = 4%nat) by (rewrite length_firstn; lia).
    assert (Hr : length (skipn 4 l) = (4 * n)%nat) by (rewrite length_skipn; lia).
    destruct (length4_inv _ H4) as (d1 & d2 & d3 & d4 & E4).
    pose proof (firstn_skipn 4 l) as El. rewrite E4 in El.
    remember (skipn 4 l) as rest eqn:Erest.
    clear E4 Erest H4. subst l.
    rewrite range3_cons by (unfold len; simpl; lia).
    cbn [foldM].
    pose proof (digit_at pre [d1; d2; d3; d4] rest 0 (d := d1) eq_refl) as D1.
    pose proof (digit_at pre [d1; d2; d3; d4] rest 1 (d := d2) eq_refl) as D2.
    pose proof (digit_at pre [d1; d2; d3; d4] rest 2 (d := d3) eq_refl) as D3.
    pose proof (digit_at pre [d1; d2; d3; d4] rest 3 (d := d4) eq_refl) as D4.
    change (Z.of_nat 0) with 0 in D1. rewrite Z.add_0_r in D1.
    change (Z.of_nat 1) with 1 in D2.
    change (Z.of_nat 2) with 2 in D3.
    change (Z.of_nat 3) with 3 in D4.
    rewrite D1, D2, D3, D4.
    cbn [bind].
    specialize (IH (pre ++ [d1; d2; d3; d4]) rest
                   (acc ++ [Z.lxor (Z.lxor (Zb d1) (Zb d2)) (Zb d4);
                            Z.lxor (Z.lxor (Zb d1) (Zb d3)) (Zb d4);
                            Zb d1;
                            Z.lxor (Z.lxor (Zb d2) (Zb d3)) (Zb d4);
                            Zb d2; Zb d3; Zb d4]) Hr).
    rewrite <- app_assoc in IH.
    replace (len pre + 4) with (len (pre ++ [d1; d2; d3; d4]))
      by (rewrite len_app; reflexivity).
    replace (len pre + len ([d1; d2; d3; d4] ++ rest))
      with (len (pre ++ [d1; d2; d3; d4]) + len rest)
      by (rewrite !len_app; lia).
    etransitivity; [exact IH|].
    rewrite <- app_assoc.
    cbn [spec_blocks spec_block app map].
    rewrite !lxor_Zb. reflexivity.
Qed.

Lemma spec_pad_bits_range n : 0 <= spec_pad_bits n < 4.
Proof. unfold spec_pad_bits; apply Z.mod_pos_bound; lia. Qed.

Lemma spec_pad_bits_aligned n : (n + spec_pad_bits n) mod 4 = 0.
Proof.
  unfold spec_pad_bits.
  pose proof (Z.mod_pos_bound n 4 ltac:(lia)) as Hb.
  assert (Hc : n mod 4 = 0 \/ n mod 4 = 1 \/ n mod 4 = 2 \/ n mod 4 = 3) by lia.
  rewrite Z.add_mod by lia.
  destruct Hc as [E | [E | [E | E]]]; rewrite E; reflexivity.
Qed.

(** The encoder on any bit string is the specification's encoder. *)
Lemma hamming_7_4_encode_spec (bs : list bool) :
  hamming_7_4_encode (bitstring_of bs)
  = Ok (bitstring_of (fst (spec_hamming_encode bs)), snd (spec_hamming_encode bs)).
Proof.
  destruct bs as [|b0 bs0]; [reflexivity|].
  set (bs := b0 :: bs0).
  unfold hamming_7_4_encode.
  change (bitstring_of bs) with (char_of_bit b0 :: bitstring_of bs0) at 1.
  cbv iota.
  assert (Hlen : len (bitstring_of bs) = len bs)
    by (unfold len, bitstring_of; rewrite length_map; reflexivity).
  rewrite Hlen.
  fold (spec_pad_bits (len bs)).
  set (pad := spec_pad_bits (len bs)).
  pose proof (spec_pad_bits_range (len bs)) as Hpad.
  pose proof (spec_pad_bits_aligned (len bs)) as Hal.
  fold pad in Hpad, Hal.
  set (padded := bs ++ repeat false (Z.to_nat pad)).
  assert (Epad : bitstring_of bs ++ repeat "0"%char (Z.to_nat pad) = bitstring_of padded).
  { unfold padded, bitstring_of. rewrite map_app, map_repeat. reflexivity. }
  rewrite Epad.
  assert (Hplen : len padded = len bs + pad).
  { unfold padded. rewrite len_app. unfold len at 2. rewrite repeat_length. lia. }
  assert (Hn : length padded = (4 * Z.to_nat (len padded / 4))%nat).
  { assert (len padded = 4 * (len padded / 4)).
    { rewrite Hplen. apply Z.div_exact; [lia | exact Hal]. }
    unfold len in *. lia. }
  pose proof (encode_loop_blocks (Z.to_nat (len padded / 4)) [] padded [] Hn) as Hloop.
  cbn [app] in Hloop.
  change (len (@nil bool)) with 0 in Hloop. rewrite Z.add_0_l in Hloop.
  replace (len (bitstring_of padded)) with (len padded)
    by (unfold len, bitstring_of; rewrite length_map; reflexivity).
  match goal with
  | |- bind ?c _ = _ =>
      replace c with (Ok (map Zb (spec_blocks padded)))
        by (symmetry; exact Hloop)
  end.
  cbn [bind].
  rewrite int_list_to_bitstr_bits. reflexivity.
Qed.

(** ** Hamming(7,4): the decoders as block maps *)

Lemma len_mod7_blocks (A : Type) (l : list A) :
  len l mod 7 = 0 -> length l = (7 * Z.to_nat (len l / 7))%nat.
Proof.
  intros H.
  assert (len l = 7 * (len l / 7)) by (apply Z.div_exact; [lia | exact H]).
  unfold len in *; lia.
Qed.

Lemma hamming_7_4_decode_blocks (e : str) (pad : Z) :
  e <> [] -> len e mod 7 = 0 ->
  hamming_7_4_decode e pad
  = Ok (int_list_to_bitstr
          (let data :=
             blocks_data block_fix (bitstr_to_int_list e)
                         (Z.to_nat (len e / 7)) in
           if 0 <? pad then drop_last data pad else data)).
Proof.
  intros Hne Hmod.
  unfold hamming_7_4_decode.
  destruct e as [|c e0]; [congruence|].
  set (e := c :: e0) in *.
  rewrite Hmod. cbn [Z.eqb negb].
  assert (Hl : len (bitstr_to_int_list e) = len e)
    by (unfold len, bitstr_to_int_list; rewrite length_map; reflexivity).
  destruct (@decode_loop_blocks (Z.to_nat (len e / 7)) []
              (bitstr_to_int_list e) [])
    as [bits' Hloop].
  - rewrite <- len_mod7_blocks by exact Hmod.
    unfold bitstr_to_int_list; apply length_map.
  - rewrite bitstr_to_int_list_bits; apply Forall_bitZ_map_Zb.
  - cbn [app] in Hloop.
    change (len (@nil Z)) with 0 in Hloop. rewrite Z.add_0_l in Hloop.
    rewrite Hloop. reflexivity.
Qed.

Lemma hamming_7_4_decode_no_correction_blocks (e : str) (pad : Z) :
  e <> [] -> len e mod 7 = 0 ->
  hamming_7_4_decode_no_correction e pad
  = Ok (int_list_to_bitstr
          (let data :=
             blocks_data (fun b => b) (bitstr_to_int_list e)
                         (Z.to_nat (len e / 7)) in
           if 0 <? pad then drop_last data pad else data)).
Proof.
  intros Hne Hmod.
  unfold hamming_7_4_decode_no_correction.
  destruct e as [|c e0]; [congruence|].
  set (e := c :: e0) in *.
  rewrite Hmod. cbn [Z.eqb negb].
  pose proof (@nocorrect_loop_blocks (Z.to_nat (len e / 7)) []
                (bitstr_to_int_list e) []) as Hloop.
  cbn [app] in Hloop.
  change (len (@nil Z)) with 0 in Hloop. rewrite Z.add_0_l in Hloop.
  rewrite Hloop; [reflexivity|].
  rewrite <- len_mod7_blocks by exact Hmod.
  unfold bitstr_to_int_list; apply length_map.
Qed.

Lemma hamming_7_4_decode_fault (e : str) (pad : Z) :
  len e mod 7 <> 0 -> hamming_7_4_decode e pad = Raise ValueError.
Proof.
  intros H. unfold hamming_7_4_decode.
  destruct e as [|c e0]; [exfalso; apply H; reflexivity|].
  apply Z.eqb_neq in H. rewrite H. reflexivity.
Qed.

Lemma hamming_7_4_decode_no_correction_fault (e : str) (pad : Z) :
  len e mod 7 <> 0 -> hamming_7_4_decode_no_correction e pad = Raise ValueError.
Proof.
  intros H. unfold hamming_7_4_decode_no_correction.
  destruct e as [|c e0]; [exfalso; apply H; reflexivity|].
  apply Z.eqb_neq in H. rewrite H. reflexivity.
Qed.

Lemma hamming_7_4_decode_total (e : str) (pad : Z) :
  len e mod 7 = 0 -> exists r, hamming_7_4_decode e pad = Ok r.
Proof.
  intros H. destruct e as [|c e0]; [exists []; reflexivity|].
  eexists. apply hamming_7_4_decode_blocks; [discriminate | exact H].
Qed.

Lemma hamming_7_4_decode_no_correction_total (e : str) (pad : Z) :
  len e mod 7 = 0 -> exists r, hamming_7_4_decode_no_correction e pad = Ok r.
Proof.
  intros H. destruct e as [|c e0]; [exists []; reflexivity|].
  eexists.
  apply hamming_7_4_decode_no_correction_blocks; [discriminate | exact H].
Qed.

(** Decoding the blocks of the specification's encoder gives the data back:
    every syndrome is zero. *)
Lemma blocks_data_spec_blocks (n : nat) :
  forall l : list bool,
    length l = (4 * n)%nat ->
    blocks_data block_fix (map Zb (spec_blocks l)) n = map Zb l.
Proof.
  induction n as [|n IH]; intros l Hlen.
  - destruct l; [reflexivity | discriminate Hlen].
  - do 4 (destruct l as [|? l]; [simpl in Hlen; lia|]).
    assert (Hr : length l = (4 * n)%nat) by (simpl in Hlen; lia).
    cbn [spec_blocks spec_block app map blocks_data firstn skipn].
    rewrite (IH l Hr).
    destruct b, b0, b1, b2; reflexivity.
Qed.

Lemma spec_blocks_length (n : nat) :
  forall l : list bool,
    length l = (4 * n)%nat -> length (spec_blocks l) = (7 * n)%nat.
Proof.
  induction n as [|n IH]; intros l Hlen.
  - destruct l; [reflexivity | discriminate Hlen].
  - do 4 (destruct l as [|? l]; [simpl in Hlen; lia|]).
    cbn [spec_blocks spec_block app length].
    rewrite (IH l) by (simpl in Hlen; lia). lia.
Qed.

Lemma drop_last_app (A : Type) (l pad : list A) :
  drop_last (l ++ pad) (len pad) = l.
Proof.
  unfold drop_last. rewrite length_app. unfold len.
  replace (Z.to_nat (Z.max 0 (Z.of_nat (length l + length pad) - Z.of_nat (length pad))))
    with (length l) by lia.
  rewrite firstn_app, firstn_all, Nat.sub_diag. simpl. apply app_nil_r.
Qed.

Lemma hamming_round_trip_bits (bs : list bool) :
  hamming_7_4_decode (bitstring_of (fst (spec_hamming_encode bs)))
                     (snd (spec_hamming_encode bs))
  = Ok (bitstring_of bs).
Proof.
  destruct bs as [|b0 bs0]; [reflexivity|].
  set (bs := b0 :: bs0).
  unfold spec_hamming_encode. cbn [fst snd].
  set (pad := spec_pad_bits (len bs)).
  pose proof (spec_pad_bits_range (len bs)) as Hpad.
  pose proof (spec_pad_bits_aligned (len bs)) as Hal.
  fold pad in Hpad, Hal.
  set (padded := bs ++ repeat false (Z.to_nat pad)).
  assert (Hplen : len padded = len bs + pad).
  { unfold padded. rewrite len_app. unfold len at 2. rewrite repeat_length. lia. }
  assert (Hn : length padded = (4 * Z.to_nat (len padded / 4))%nat).
  { assert (len padded = 4 * (len padded / 4)).
    { rewrite Hplen. apply Z.div_exact; [lia | exact Hal]. }
    unfold len in *. lia. }
  set (n := Z.to_nat (len padded / 4)) in *.
  pose proof (spec_blocks_length n padded Hn) as Hslen.
  assert (Hn0 : (0 < n)%nat).
  { destruct n; [|lia]. unfold padded, bs in Hn. simpl in Hn. discriminate Hn. }
  assert (Helen : len (bitstring_of (spec_blocks padded)) = 7 * Z.of_nat n).
  { unfold len, bitstring_of. rewrite length_map, Hslen. lia. }
  rewrite hamming_7_4_decode_blocks.
  - rewrite Helen.
    replace (7 * Z.of_nat n / 7) with (Z.of_nat n)
      by (rewrite Z.mul_comm, Z.div_mul; lia).
    rewrite Nat2Z.id.
    rewrite bitstr_to_int_list_of_bits.
    rewrite blocks_data_spec_blocks by exact Hn.
    cbv zeta.
    destruct (0 <? pad) eqn:Ep.
    + unfold padded. rewrite map_app.
      replace pad with (len (map Zb (repeat false (Z.to_nat pad)))) at 2
        by (unfold len; rewrite length_map, repeat_length; lia).
      rewrite drop_last_app. rewrite int_list_to_bitstr_bits. reflexivity.
    + apply Z.ltb_ge in Ep. assert (pad = 0) by lia.
      unfold padded. replace (Z.to_nat pad) with O by lia.
      simpl repeat. rewrite app_nil_r, int_list_to_bitstr_bits. reflexivity.
  - intros E. apply (f_equal (@length _)) in E.
    unfold bitstring_of in E. rewrite length_map, Hslen in E. simpl in E. lia.
  - rewrite Helen, Z.mul_comm. apply Z.mod_mul. lia.
Qed.

(** ** Hamming(7,4): what the specification states *)

Lemma is_bitstring_bits (B : str) :
  is_bitstring B -> B = bitstring_of (map bit_of_char B).
Proof.
  induction 1 as [|c B Hc _ IH]; [reflexivity|].
  simpl. rewrite <- IH. f_equal.
  destruct Hc as [-> | ->]; reflexivity.
Qed.

Lemma bitstring_of_is_bitstring (bs : list bool) : is_bitstring (bitstring_of bs).
Proof.
  induction bs as [|[] bs IH]; constructor; auto; [right | left]; reflexivity.
Qed.

Lemma spec_encode_bits (bs : list bool) :
  spec_encode (bitstring_of bs)
  = (bitstring_of (fst (spec_hamming_encode bs)), snd (spec_hamming_encode bs)).
Proof.
  unfold spec_encode, spec_hamming_encode. cbn [fst snd].
  replace (len (bitstring_of bs)) with (len bs)
    by (unfold len, bitstring_of; rewrite length_map; reflexivity).
  f_equal. f_equal. f_equal.
  rewrite map_app. unfold bitstring_of. rewrite map_map, map_repeat.
  rewrite (map_ext _ (fun b => b) bit_of_char_of_bit), map_id.
  reflexivity.
Qed.

(** C6. On every bit string the encoder pads on the right with
    [(4 - len % 4) % 4] zero bits and emits, for each group [(d1,d2,d3,d4)],
    the block [(p1,p2,d1,p4,d2,d3,d4)] with [p1 = d1+d2+d4], [p2 = d1+d3+d4],
    [p4 = d2+d3+d4] modulo 2, which is [spec_encode]; and ["1110"] is
    encoded as ["0010110"] with no padding. *)
Theorem hamming_7_4_encode_as_specified :
  (forall B : str, is_bitstring B -> hamming_7_4_encode B = Ok (spec_encode B))
  /\ hamming_7_4_encode (py "1110") = Ok (py "0010110", 0).
Proof.
  split; [|reflexivity].
  intros B HB. rewrite (is_bitstring_bits HB).
  rewrite hamming_7_4_encode_spec, spec_encode_bits. reflexivity.
Qed.

Lemma hamming_7_4_encode_as_specified_witness :
  is_bitstring (py "10110") /\
  hamming_7_4_encode (py "10110") = Ok (spec_encode (py "10110")).
Proof.
  assert (H : is_bitstring (py "10110")).
  { repeat constructor; (left; reflexivity) || (right; reflexivity). }
  split; [exact H|].
  exact (proj1 hamming_7_4_encode_as_specified (py "10110") H).
Defined.

(** C2. Encoding a bit string and decoding the result with the returned pad
    count gives the bit string back, the empty one included. *)
Theorem hamming_round_trip (B : str) :
  is_bitstring B ->
  exists encoded pad,
    hamming_7_4_encode B = Ok (encoded, pad)
    /\ hamming_7_4_decode encoded pad = Ok B.
Proof.
  intros HB. rewrite (is_bitstring_bits HB).
  set (bs := map bit_of_char B).
  exists (bitstring_of (fst (spec_hamming_encode bs))), (snd (spec_hamming_encode bs)).
  split; [apply hamming_7_4_encode_spec | apply hamming_round_trip_bits].
Qed.

Lemma hamming_round_trip_witness :
  is_bitstring (py "110") /\
  exists encoded pad,
    hamming_7_4_encode (py "110") = Ok (encoded, pad)
    /\ hamming_7_4_decode encoded pad = Ok (py "110").
Proof.
  assert (H : is_bitstring (py "110")).
  { repeat constructor; (left; reflexivity) || (right; reflexivity). }
  split; [exact H|].
  exact (hamming_round_trip H).
Defined.

(** C5. For every group of four data bits, flipping any one of the seven
    bits of its codeword still decodes to the four data bits. *)
Theorem hamming_corrects_single_flip (d : str) (k : nat) :
  is_bitstring d -> length d = 4%nat -> (k < 7)%nat ->
  exists codeword,
    hamming_7_4_encode d = Ok (codeword, 0)
    /\ length codeword = 7%nat
    /\ flip_at codeword k <> codeword
    /\ hamming_7_4_decode (flip_at codeword k) 0 = Ok d.
Proof.
  intros Hd Hlen Hk.
  rewrite (is_bitstring_bits Hd).
  assert (Hl : length (map bit_of_char d) = 4%nat) by (rewrite length_map; exact Hlen).
  destruct (length4_inv _ Hl) as (d1 & d2 & d3 & d4 & ->).
  do 7 (destruct k as [|k]; [destruct d1, d2, d3, d4; eexists;
                             (split; [reflexivity|]); (split; [reflexivity|]);
                             (split; [discriminate | reflexivity])|]).
  lia.
Qed.

Lemma hamming_corrects_single_flip_witness :
  is_bitstring (py "1011") /\ length (py "1011") = 4%nat /\ (5 < 7)%nat /\
  exists codeword,
    hamming_7_4_encode (py "1011") = Ok (codeword, 0)
    /\ length codeword = 7%nat
    /\ flip_at codeword 5 <> codeword
    /\ hamming_7_4_decode (flip_at codeword 5) 0 = Ok (py "1011").
Proof.
  assert (H : is_bitstring (py "1011")).
  { repeat constructor; (left; reflexivity) || (right; reflexivity). }
  assert (H5 : (5 < 7)%nat) by (repeat constructor).
  split; [exact H|]. split; [reflexivity|]. split; [exact H5|].
  exact (@hamming_corrects_single_flip (py "1011") 5 H eq_refl H5).
Defined.

(** C8. Both Hamming decoders raise the structural fault exactly when the
    length of the encoded string is not a multiple of 7, whatever the
    characters and the pad count; on a multiple of 7, the empty string
    included, they return a result. *)
Theorem hamming_decoders_fault_iff (encoded : str) (pad : Z) :
  (hamming_7_4_decode encoded pad = Raise ValueError
   <-> len encoded mod 7 <> 0)
  /\ (is_ok (hamming_7_4_decode encoded pad) = true
      <-> len encoded mod 7 = 0)
  /\ (hamming_7_4_decode_no_correction encoded pad = Raise ValueError
      <-> len encoded mod 7 <> 0)
  /\ (is_ok (hamming_7_4_decode_no_correction encoded pad) = true
      <-> len encoded mod 7 = 0).
Proof.
  destruct (Z.eq_dec (len encoded mod 7) 0) as [E | E].
  - destruct (hamming_7_4_decode_total encoded pad E) as [r Hr].
    destruct (hamming_7_4_decode_no_correction_total encoded pad E) as [r' Hr'].
    rewrite Hr, Hr'. simpl.
    repeat split; intros; try discriminate; try contradiction; auto.
  - rewrite (hamming_7_4_decode_fault encoded pad E).
    rewrite (hamming_7_4_decode_no_correction_fault encoded pad E). simpl.
    repeat split; intros; try discriminate; try contradiction; auto.
Qed.

(** ** [heapq]: every operation returns and permutes the heap *)

Local Close Scope Z_scope.
Unset Implicit Arguments.

Lemma update_same (A : Type) (l : list A) i x :
  nth_error l i = Some x -> update l i x = l.
Proof.
  revert i; induction l as [|h t IH]; intros [|i] H; simpl in *;
    try discriminate; [congruence | now rewrite IH].
Qed.

Lemma perm_move_out (A : Type) (t : list A) j x y :
  nth_error t j = Some y -> Permutation (y :: update t j x) (x :: t).
Proof.
  revert j; induction t as [|a t IH]; intros [|j] H; simpl in *;
    try discriminate.
  - injection H as ->. apply perm_swap.
  - rewrite perm_swap. rewrite (IH j H). apply perm_swap.
Qed.

Lemma perm_move_in (A : Type) (t : list A) i x h :
  (i < length t)%nat -> Permutation (x :: update t i h) (h :: update t i x).
Proof.
  revert i; induction t as [|a t IH]; intros [|i] H; simpl in *; try lia.
  - apply perm_swap.
  - rewrite perm_swap. rewrite (IH i) by lia. apply perm_swap.
Qed.

(** Filling position [i] with a copy of the item at [j] and then putting [x]
    at [j] holds the same items as putting [x] at [i]. *)
Lemma perm_shift_hole (A : Type) (l : list A) i j x y :
  i <> j -> (i < length l)%nat -> nth_error l j = Some y ->
  Permutation (update (update l i y) j x) (update l i x).
Proof.
  revert i j; induction l as [|h t IH]; intros [|i] [|j] Hij Hi Hj;
    simpl in *; try discriminate; try lia.
  - now apply perm_move_out.
  - injection Hj as ->. apply perm_move_in; lia.
  - apply perm_skip. apply IH; auto; lia.
Qed.

Section HeapProofs.
Variable A : Type.
Variable lt : A -> A -> bool.

Lemma getitem_lt (l : list A) i :
  (i < length l)%nat -> exists x, getitem l i = Ok x /\ nth_error l i = Some x.
Proof.
  intros H. unfold getitem.
  destruct (nth_error l i) eqn:E; [eauto|].
  apply nth_error_None in E. lia.
Qed.

Lemma siftdown_loop_ok (fuel : nat) :
  forall (heap : list A) startpos pos newitem,
    (pos < length heap)%nat -> (pos <= fuel)%nat ->
    exists heap' pos',
      heapq.siftdown_loop lt fuel heap startpos pos newitem = Ok (heap', pos')
      /\ length heap' = length heap
      /\ (pos' < length heap)%nat
      /\ Permutation (update heap' pos' newitem) (update heap pos newitem).
Proof.
  induction fuel as [|fuel IH]; intros heap startpos pos newitem Hpos Hfuel.
  - assert (pos = 0)%nat by lia; subst pos. simpl.
    destruct (startpos <? 0)%nat eqn:E; [apply Nat.ltb_lt in E; lia|].
    exists heap, 0%nat. auto.
  - cbn [heapq.siftdown_loop].
    destruct (startpos <? pos)%nat eqn:E; [|exists heap, pos; auto].
    apply Nat.ltb_lt in E.
    assert (Hpar : ((pos - 1) / 2 < pos)%nat).
    { apply Nat.Div0.div_lt_upper_bound; lia. }
    destruct (getitem_lt heap ((pos - 1) / 2)) as (parent & -> & Hparent); [lia|].
    cbn [bind].
    destruct (lt newitem parent); [|exists heap, pos; auto].
    rewrite setitem_ok by exact Hpos. cbn [bind].
    destruct (IH (update heap pos parent) startpos ((pos - 1) / 2)%nat newitem)
      as (heap' & pos' & -> & Hl & Hp & Hperm).
    { rewrite update_length. lia. }
    { lia. }
    rewrite update_length in Hl, Hp.
    exists heap', pos'. repeat split; auto.
    rewrite Hperm. apply perm_shift_hole; auto; lia.
Qed.

Lemma siftdown_ok (heap : list A) startpos pos :
  (pos < length heap)%nat ->
  exists r, heapq.siftdown lt heap startpos pos = Ok r /\ Permutation r heap.
Proof.
  intros Hpos. unfold heapq.siftdown.
  destruct (getitem_lt heap pos Hpos) as (newitem & -> & Hnew). cbn [bind].
  destruct (siftdown_loop_ok pos heap startpos pos newitem Hpos (le_n pos))
    as (heap' & pos' & -> & Hl & Hp & Hperm).
  cbn [bind].
  rewrite setitem_ok by lia.
  eexists; split; [reflexivity|].
  rewrite Hperm, (update_same _ _ _ _ Hnew). reflexivity.
Qed.

Lemma siftup_loop_ok (fuel : nat) :
  forall (heap : list A) endpos pos,
    endpos = length heap -> (pos < endpos)%nat -> (endpos - pos <= fuel)%nat ->
    exists heap' pos',
      heapq.siftup_loop lt fuel heap endpos pos = Ok (heap', pos')
      /\ length heap' = length heap
      /\ (pos' < endpos)%nat
      /\ forall x, Permutation (update heap' pos' x) (update heap pos x).
Proof.
  induction fuel as [|fuel IH]; intros heap endpos pos Hend Hpos Hfuel; [lia|].
  cbn [heapq.siftup_loop].
  destruct (2 * pos + 1 <? endpos)%nat eqn:E; [|exists heap, pos; auto].
  apply Nat.ltb_lt in E.
  assert (Hchild : exists childpos',
             (if (2 * pos + 1 + 1 <? endpos)%nat
              then c <- getitem heap (2 * pos + 1) ;;
                   r <- getitem heap (2 * pos + 1 + 1) ;;
                   Ok (if negb (lt c r) then (2 * pos + 1 + 1)%nat
                       else (2 * pos + 1)%nat)
              else Ok (2 * pos + 1)%nat) = Ok childpos'
             /\ (pos < childpos' < endpos)%nat).
  { destruct (2 * pos + 1 + 1 <? endpos)%nat eqn:E2.
    - apply Nat.ltb_lt in E2.
      destruct (getitem_lt heap (2 * pos + 1)) as (c & -> & _); [lia|].
      destruct (getitem_lt heap (2 * pos + 1 + 1)) as (r & -> & _); [lia|].
      cbn [bind]. destruct (negb (lt c r)); eexists; split; try reflexivity; lia.
    - eexists; split; [reflexivity | lia]. }
  destruct Hchild as (childpos' & -> & Hc). cbn [bind].
  destruct (getitem_lt heap childpos') as (child & -> & Hchild); [lia|].
  cbn [bind].
  rewrite setitem_ok by lia. cbn [bind].
  destruct (IH (update heap pos child) endpos childpos')
    as (heap' & pos' & -> & Hl & Hp & Hperm).
  { rewrite update_length. exact Hend. }
  { lia. }
  { lia. }
  rewrite update_length in Hl.
  exists heap', pos'. repeat split; auto.
  intros x. rewrite Hperm. apply perm_shift_hole; auto; lia.
Qed.

Lemma siftup_ok (heap : list A) pos :
  (pos < length heap)%nat ->
  exists r, heapq.siftup lt heap pos = Ok r /\ Permutation r heap.
Proof.
  intros Hpos. unfold heapq.siftup.
  destruct (getitem_lt heap pos Hpos) as (newitem & -> & Hnew). cbn [bind].
  destruct (siftup_loop_ok (length heap) heap (length heap) pos eq_refl Hpos)
    as (heap' & pos' & -> & Hl & Hp & Hperm); [lia|].
  cbn [bind].
  rewrite setitem_ok by lia. cbn [bind].
  destruct (siftdown_ok (update heap' pos' newitem) pos pos')
    as (r & -> & Hr).
  { rewrite update_length. lia. }
  exists r; split; [reflexivity|].
  rewrite Hr, Hperm, (update_same _ _ _ _ Hnew). reflexivity.
Qed.

Lemma foldM_siftup_ok (idxs : list nat) :
  forall heap : list A,
    Forall (fun i => (i < length heap)%nat) idxs ->
    exists r, foldM (heapq.siftup lt) idxs heap = Ok r /\ Permutation r heap.
Proof.
  induction idxs as [|i idxs IH]; intros heap Hall.
  - exists heap; split; [reflexivity | apply Permutation_refl].
  - inversion Hall as [|? ? Hi Hrest]; subst.
    cbn [foldM].
    destruct (siftup_ok heap i Hi) as (h1 & -> & Hp1). cbn [bind].
    destruct (IH h1) as (r & -> & Hr).
    { rewrite (Permutation_length Hp1). exact Hrest. }
    exists r; split; [reflexivity|]. now rewrite Hr.
Qed.

Lemma heapify_ok (x : list A) :
  exists r, heapq.heapify lt x = Ok r /\ Permutation r x.
Proof.
  unfold heapq.heapify. apply foldM_siftup_ok.
  apply Forall_forall. intros i Hi.
  apply in_rev, in_seq in Hi.
  assert (length x / 2 <= length x)%nat by (apply Nat.Div0.div_le_upper_bound; lia).
  lia.
Qed.

Lemma heappush_ok (heap : list A) (item : A) :
  exists r, heapq.heappush lt heap item = Ok r /\ Permutation r (item :: heap).
Proof.
  unfold heapq.heappush.
  destruct (siftdown_ok (heap ++ [item]) 0 (length (heap ++ [item]) - 1))
    as (r & -> & Hr).
  { rewrite length_app. simpl. lia. }
  exists r; split; [reflexivity|].
  rewrite Hr. symmetry. apply Permutation_cons_append.
Qed.

Lemma heappop_ok (heap : list A) :
  heap <> [] ->
  exists x rest,
    heapq.heappop lt heap = Ok (x, rest) /\ Permutation (x :: rest) heap.
Proof.
  intros Hne. unfold heapq.heappop.
  destruct (rev heap) as [|lastelt rest] eqn:Erev.
  { apply (f_equal (@rev A)) in Erev. rewrite rev_involutive in Erev.
    contradiction. }
  assert (Eheap : heap = rev rest ++ [lastelt]).
  { rewrite <- (rev_involutive heap), Erev. reflexivity. }
  destruct (rev rest) as [|returnitem tl] eqn:Erest.
  - exists lastelt, []. subst heap. split; reflexivity.
  - rewrite setitem_ok by (simpl; lia). cbn [bind update].
    destruct (siftup_ok (lastelt :: tl) 0) as (r & -> & Hr);
      [simpl; lia|].
    cbn [bind].
    exists returnitem, r. split; [reflexivity|].
    subst heap. rewrite Hr. cbn [app].
    apply perm_skip. apply Permutation_cons_append.
Qed.

End HeapProofs.

(** ** Dictionaries *)

Lemma ascii_eqb_refl c : ascii_eqb c c = true.
Proof. apply Ascii.eqb_refl. Qed.

Lemma ascii_eqb_eq a b : ascii_eqb a b = true <-> a = b.
Proof. apply Ascii.eqb_eq. Qed.


Lemma dict_set_fresh (V : Type) (d : dict V) k v :
  ~ In k (dict_keys d) -> dict_set d k v = d ++ [(k, v)].
Proof.
  induction d as [|[k' v'] d IH]; intros Hk; [reflexivity|].
  simpl in *.
  destruct (ascii_eqb k k') eqn:E.
  - apply ascii_eqb_eq in E. subst. tauto.
  - rewrite IH by tauto. reflexivity.
Qed.

Lemma dict_set_keys_incl (V : Type) (d : dict V) k v x :
  In x (dict_keys (dict_set d k v)) <-> x = k \/ In x (dict_keys d).
Proof.
  induction d as [|[k' v'] d IH]; simpl.
  - intuition.
  - destruct (ascii_eqb k k') eqn:E; simpl.
    + apply ascii_eqb_eq in E. subst. intuition.
    + rewrite IH. intuition.
Qed.

Lemma dict_set_NoDup (V : Type) (d : dict V) k v :
  NoDup (dict_keys d) -> NoDup (dict_keys (dict_set d k v)).
Proof.
  induction d as [|[k' v'] d IH]; intros Hnd; simpl.
  - constructor; [intros [] | constructor].
  - inversion Hnd as [|? ? Hnotin Hnd']; subst.
    destruct (ascii_eqb k k') eqn:E; simpl.
    + constructor; assumption.
    + constructor; [|apply IH; assumption].
      intros Hin. apply dict_set_keys_incl in Hin as [-> | Hin].
      * rewrite ascii_eqb_refl in E. discriminate.
      * contradiction.
Qed.

Lemma dict_get_in (V : Type) (d : dict V) k v :
  NoDup (dict_keys d) -> In (k, v) d -> dict_get d k = Some v.
Proof.
  induction d as [|[k' v'] d IH]; intros Hnd Hin; [contradiction|].
  inversion Hnd as [|? ? Hnotin Hnd']; subst.
  simpl. destruct Hin as [E | Hin].
  - injection E as -> ->. rewrite ascii_eqb_refl. reflexivity.
  - destruct (ascii_eqb k k') eqn:E.
    + apply ascii_eqb_eq in E. subst. exfalso. apply Hnotin.
      apply (in_map fst) in Hin. exact Hin.
    + apply IH; assumption.
Qed.

(** ** [Counter] and the distribution *)

Lemma Counter_fold_keys (text : str) :
  forall counts : dict Z,
    NoDup (dict_keys counts) ->
    let counts' :=
      fold_left
        (fun counts ch =>
           dict_set counts ch
             (match dict_get counts ch with Some c => c | None => 0 end + 1)%Z)
        text counts in
    NoDup (dict_keys counts')
    /\ (forall x, In x (dict_keys counts') <-> In x text \/ In x (dict_keys counts)).
Proof.
  induction text as [|ch text IH]; intros counts Hnd; simpl.
  - split; [assumption | intuition].
  - destruct (IH (dict_set counts ch
                    (match dict_get counts ch with Some c => c | None => 0 end + 1)%Z)
                 (dict_set_NoDup _ _ _ _ Hnd)) as [Hnd' Hin].
    split; [exact Hnd'|].
    intros x. rewrite Hin, dict_set_keys_incl. intuition.
Qed.

Lemma probabilities_keys (text : str) :
  NoDup (dict_keys (compute_symbol_probabilities text))
  /\ (forall x, In x (dict_keys (compute_symbol_probabilities text)) <-> In x text).
Proof.
  destruct text as [|c text]; [split; [constructor | simpl; tauto]|].
  unfold compute_symbol_probabilities.
  set (T := c :: text).
  assert (Hk : dict_keys
                 (map (fun '(sym, c0) =>
                         (sym, (float_of_Z c0
                                / float_of_Z (fold_left Z.add (map snd (Counter T)) 0%Z))%float))
                      (Counter T))
               = dict_keys (Counter T)).
  { unfold dict_keys. rewrite map_map. apply map_ext. intros [? ?]. reflexivity. }
  rewrite Hk.
  destruct (Counter_fold_keys T [] (NoDup_nil _)) as [Hnd Hin].
  split; [exact Hnd|].
  intros x. unfold Counter. rewrite Hin. simpl. tauto.
Qed.

(** ** The tree [build_huffman_tree] returns *)

Lemma merge_loop_ok (fuel : nat) :
  forall heap : list HuffmanNode,
    heap <> [] -> length heap <= S fuel -> Forall proper heap ->
    exists root,
      merge_loop fuel heap = Ok [root]
      /\ proper root
      /\ Permutation (leaves root) (flat_map leaves heap).
Proof.
  induction fuel as [|fuel IH]; intros heap Hne Hlen Hall.
  - destruct heap as [|root [|? ?]]; [contradiction | | simpl in Hlen; lia].
    exists root. inversion Hall; subst.
    repeat split; auto. simpl. rewrite app_nil_r. reflexivity.
  - cbn [merge_loop].
    destruct (1 <? length heap) eqn:E.
    2:{ apply Nat.ltb_ge in E.
        destruct heap as [|root [|? ?]]; [contradiction | | simpl in E; lia].
        exists root. inversion Hall; subst.
        repeat split; auto. simpl. rewrite app_nil_r. reflexivity. }
    apply Nat.ltb_lt in E.
    destruct (heappop_ok _ node_lt heap Hne) as (n1 & heap1 & -> & Hp1).
    cbn [bind].
    assert (Hl1 : S (length heap1) = length heap)
      by (apply (Permutation_length Hp1)).
    assert (Hne1 : heap1 <> []) by (destruct heap1; [simpl in Hl1; lia | discriminate]).
    destruct (heappop_ok _ node_lt heap1 Hne1) as (n2 & heap2 & -> & Hp2).
    cbn [bind].
    assert (Hl2 : S (length heap2) = length heap1)
      by (apply (Permutation_length Hp2)).
    destruct (heappush_ok _ node_lt heap2
                (Node None (prob n1 + prob n2)%float (Some n1) (Some n2)))
      as (heap3 & -> & Hp3).
    cbn [bind].
    assert (Hl3 : length heap3 = S (length heap2))
      by (apply (Permutation_length Hp3)).
    assert (Hall' : Forall proper (n1 :: n2 :: heap2)).
    { eapply Permutation_Forall; [|exact Hall].
      rewrite <- Hp1. apply perm_skip. symmetry. exact Hp2. }
    inversion Hall' as [|? ? Hn1 Hall'']; subst.
    inversion Hall'' as [|? ? Hn2 Hall2]; subst.
    destruct (IH heap3) as (root & Hroot & Hprop & Hleaves).
    { destruct heap3; [simpl in Hl3; lia | discriminate]. }
    { lia. }
    { eapply Permutation_Forall; [symmetry; exact Hp3|].
      constructor; [constructor; assumption | assumption]. }
    exists root. repeat split; auto.
    rewrite Hleaves, Hp3. cbn [flat_map leaves].
    rewrite <- Hp1, <- Hp2. cbn [flat_map].
    rewrite app_assoc. reflexivity.
Qed.

Lemma leaf_heap_proper (probs : dict float) :
  Forall proper (map (fun '(sym, p) => Node (Some sym) p None None) probs).
Proof.
  induction probs as [|[sym p] probs IH]; simpl; constructor; auto.
  constructor.
Qed.

Lemma leaf_heap_leaves (probs : dict float) :
  flat_map leaves (map (fun '(sym, p) => Node (Some sym) p None None) probs)
  = dict_keys probs.
Proof.
  induction probs as [|[sym p] probs IH]; simpl; [reflexivity | now rewrite IH].
Qed.

Lemma build_huffman_tree_ok (probs : dict float) :
  probs <> [] ->
  exists root,
    build_huffman_tree probs = Ok (Some root)
    /\ huffman_shape root
    /\ Permutation (leaves root) (dict_keys probs).
Proof.
  intros Hne. unfold build_huffman_tree.
  set (heap0 := map (fun '(sym, p) => Node (Some sym) p None None) probs).
  assert (Hne0 : heap0 <> []).
  { subst heap0. destruct probs; [contradiction | discriminate]. }
  destruct heap0 as [|h0 t0] eqn:E0; [contradiction|].
  rewrite <- E0 in *. clear h0 t0 E0.
  destruct (heapify_ok _ node_lt heap0) as (heap & -> & Hperm).
  cbn [bind].
  assert (Hall : Forall proper heap).
  { eapply Permutation_Forall; [symmetry; exact Hperm|]. apply leaf_heap_proper. }
  assert (Hleaves : Permutation (flat_map leaves heap) (dict_keys probs)).
  { rewrite Hperm. subst heap0. rewrite leaf_heap_leaves. reflexivity. }
  assert (Hne1 : heap <> []).
  { intros ->. apply Permutation_nil in Hperm. contradiction. }
  destruct (length heap =? 1) eqn:E1.
  - apply Nat.eqb_eq in E1.
    destruct heap as [|only [|? ?]]; try discriminate E1.
    inversion Hall as [|? ? Honly _]; subst.
    cbn [getitem nth_error bind].
    eexists. split; [reflexivity|].
    simpl in Hleaves. rewrite app_nil_r in Hleaves.
    destruct Honly as [sym p | p l r Hl Hr].
    + split; [constructor|]. simpl. exact Hleaves.
    + (* a heap of leaves holds no inner node *)
      exfalso.
      assert (Hin : In (Node None p (Some l) (Some r)) heap0).
      { apply (Permutation_in _ Hperm). left. reflexivity. }
      subst heap0. apply in_map_iff in Hin as ([sym q] & Hq & _). discriminate Hq.
  - apply Nat.eqb_neq in E1.
    destruct (merge_loop_ok (length heap) heap Hne1 (Nat.le_succ_diag_r _) Hall)
      as (root & -> & Hprop & Hroot).
    cbn [bind getitem nth_error].
    exists root. split; [reflexivity|].
    split; [|rewrite Hroot; exact Hleaves].
    destruct Hprop as [sym p | p l r Hl Hr]; [|constructor; assumption].
    exfalso. simpl in Hroot.
    apply Permutation_length in Hroot. simpl in Hroot.
    assert (Hlen : forall h, Forall proper h -> length h <= length (flat_map leaves h)).
    { clear. induction 1 as [|n h Hn _ IH]; [simpl; lia|].
      simpl. rewrite length_app.
      assert (1 <= length (leaves n)).
      { clear -Hn. induction Hn; simpl; [lia|]. rewrite length_app. lia. }
      lia. }
    specialize (Hlen heap Hall).
    destruct heap as [|? [|? ?]]; simpl in *; try lia; contradiction.
Qed.

(** ** The code table is the list of root-to-leaf paths *)

Lemma paths_keys (n : HuffmanNode) :
  proper n -> forall prefix, dict_keys (paths n prefix) = leaves n.
Proof.
  induction 1 as [sym p | p l r Hl IHl Hr IHr]; intros prefix; [reflexivity|].
  cbn [paths leaves]. unfold dict_keys in *.
  rewrite map_app, IHl, IHr. reflexivity.
Qed.

Lemma traverse_paths (n : HuffmanNode) :
  proper n ->
  forall (prefix : str) (codes : dict str),
    prefix <> [] ->
    NoDup (dict_keys codes ++ leaves n) ->
    traverse n prefix codes = codes ++ paths n prefix.
Proof.
  induction 1 as [sym p | p l r Hl IHl Hr IHr]; intros prefix codes Hpre Hnd.
  - cbn [traverse paths].
    destruct prefix as [|b prefix]; [contradiction|].
    apply dict_set_fresh.
    intros Hin. simpl in Hnd.
    apply NoDup_remove_2 in Hnd. apply Hnd.
    rewrite app_nil_r. exact Hin.
  - cbn [traverse paths]. cbn [leaves] in Hnd.
    rewrite app_assoc in Hnd.
    rewrite IHl.
    + rewrite IHr.
      * rewrite app_assoc. reflexivity.
      * intros E. apply app_eq_nil in E as [_ E]. discriminate E.
      * unfold dict_keys in *. rewrite map_app.
        fold (dict_keys (paths l (prefix ++ py "0"))).
        rewrite paths_keys by assumption. exact Hnd.
    + intros E. apply app_eq_nil in E as [_ E]. discriminate E.
    + apply NoDup_app_remove_r in Hnd. exact Hnd.
Qed.

Lemma build_huffman_codes_paths (root : HuffmanNode) :
  huffman_shape root -> NoDup (leaves root) ->
  build_huffman_codes (Some root) = paths root [].
Proof.
  intros [p sym q | p l r Hl Hr] Hnd; [reflexivity|].
  cbn [build_huffman_codes traverse paths app]. cbn [leaves] in Hnd.
  rewrite (traverse_paths l Hl (py "0") []);
    [|discriminate | apply NoDup_app_remove_r in Hnd; exact Hnd].
  cbn [app].
  rewrite (traverse_paths r Hr (py "1") (paths l (py "0"))).
  - reflexivity.
  - discriminate.
  - rewrite paths_keys by assumption. exact Hnd.
Qed.

Lemma shape_paths_keys (root : HuffmanNode) :
  huffman_shape root -> dict_keys (paths root []) = leaves root.
Proof.
  intros [p sym q | p l r Hl Hr]; [reflexivity|].
  cbn [paths leaves]. unfold dict_keys. rewrite map_app.
  fold (dict_keys (paths l ([] ++ py "0"))).
  fold (dict_keys (paths r ([] ++ py "1"))).
  rewrite !paths_keys by assumption. reflexivity.
Qed.

(** ** Walking a path decodes its symbol *)

Lemma decode_loop_step (root node : HuffmanNode) b bits acc :
  decode_loop root (b :: bits) node acc
  = match (if ascii_eqb b "0" then left node else right node) with
    | None => acc
    | Some node' => arrive root node' bits acc
    end.
Proof. reflexivity. Qed.

Lemma paths_decode (n : HuffmanNode) :
  proper n ->
  forall prefix sym code,
    In (sym, code) (paths n prefix) ->
    exists suffix,
      code = prefix ++ suffix
      /\ is_bitstring suffix
      /\ forall root rest acc,
          arrive root n (suffix ++ rest) acc
          = decode_loop root rest root (acc ++ [sym]).
Proof.
  induction 1 as [s0 p | p l r Hl IHl Hr IHr]; intros prefix sym code Hin.
  - destruct Hin as [E | []]. injection E as <- <-.
    exists []. rewrite app_nil_r.
    split; [reflexivity|]. split; [constructor|]. reflexivity.
  - cbn [paths] in Hin. apply in_app_or in Hin as [Hin | Hin].
    + destruct (IHl _ _ _ Hin) as (suffix & -> & Hbits & Hdec).
      exists ("0"%char :: suffix). rewrite <- app_assoc.
      split; [reflexivity|].
      split; [constructor; [left; reflexivity | exact Hbits]|].
      intros root rest acc. unfold arrive at 1. cbn [symbol app].
      rewrite decode_loop_step. cbn. apply Hdec.
    + destruct (IHr _ _ _ Hin) as (suffix & -> & Hbits & Hdec).
      exists ("1"%char :: suffix). rewrite <- app_assoc.
      split; [reflexivity|].
      split; [constructor; [right; reflexivity | exact Hbits]|].
      intros root rest acc. unfold arrive at 1. cbn [symbol app].
      rewrite decode_loop_step. cbn. apply Hdec.
Qed.

Lemma shape_paths_decode (root : HuffmanNode) :
  huffman_shape root ->
  forall sym code,
    In (sym, code) (paths root []) ->
    1 <= length code
    /\ is_bitstring code
    /\ forall rest acc,
        decode_loop root (code ++ rest) root acc
        = decode_loop root rest root (acc ++ [sym]).
Proof.
  intros [p s0 q | p l r Hl Hr] sym code Hin.
  - destruct Hin as [E | []]. injection E as <- <-.
    split; [simpl; lia|].
    split; [constructor; [left; reflexivity | constructor]|].
    reflexivity.
  - cbn [paths app] in Hin. apply in_app_or in Hin as [Hin | Hin].
    + destruct (paths_decode l Hl _ _ _ Hin) as (suffix & -> & Hbits & Hdec).
      split; [simpl; lia|].
      split; [constructor; [left; reflexivity | exact Hbits]|].
      intros rest acc. cbn [py list_ascii_of_string app].
      rewrite decode_loop_step. cbn. apply Hdec.
    + destruct (paths_decode r Hr _ _ _ Hin) as (suffix & -> & Hbits & Hdec).
      split; [simpl; lia|].
      split; [constructor; [right; reflexivity | exact Hbits]|].
      intros rest acc. cbn [py list_ascii_of_string app].
      rewrite decode_loop_step. cbn. apply Hdec.
Qed.

(** ** Prefix-freeness of the paths *)

Lemma paths_prefix_free (n : HuffmanNode) :
  proper n -> forall prefix, prefix_free (paths n prefix).
Proof.
  induction 1 as [s0 p | p l r Hl IHl Hr IHr];
    intros prefix s1 c1 s2 c2 H1 H2 Hneq.
  - destruct H1 as [E1 | []], H2 as [E2 | []]. congruence.
  - cbn [paths] in H1, H2.
    apply in_app_or in H1 as [H1 | H1]; apply in_app_or in H2 as [H2 | H2].
    + exact (IHl _ _ _ _ _ H1 H2 Hneq).
    + destruct (paths_decode l Hl _ _ _ H1) as (x & -> & _).
      destruct (paths_decode r Hr _ _ _ H2) as (y & -> & _).
      intros [z Hz]. rewrite <- !app_assoc in Hz.
      apply app_inv_head in Hz. discriminate Hz.
    + destruct (paths_decode r Hr _ _ _ H1) as (x & -> & _).
      destruct (paths_decode l Hl _ _ _ H2) as (y & -> & _).
      intros [z Hz]. rewrite <- !app_assoc in Hz.
      apply app_inv_head in Hz. discriminate Hz.
    + exact (IHr _ _ _ _ _ H1 H2 Hneq).
Qed.

Lemma shape_paths_prefix_free (root : HuffmanNode) :
  huffman_shape root -> prefix_free (paths root []).
Proof.
  intros [p s0 q | p l r Hl Hr].
  - intros s1 c1 s2 c2 [E1 | []] [E2 | []]. congruence.
  - apply paths_prefix_free. constructor; assumption.
Qed.

(** ** Encoding and decoding a whole text *)

Lemma huffman_encode_loop (codes : dict str) (text : str) :
  (forall ch, In ch text -> exists c, dict_get codes ch = Some c) ->
  forall acc,
    foldM (fun acc ch => c <- dict_lookup codes ch ;; Ok (acc ++ c)) text acc
    = Ok (acc ++ flat_map (code_of codes) text).
Proof.
  induction text as [|ch text IH]; intros Hall acc.
  - simpl. rewrite app_nil_r. reflexivity.
  - cbn [foldM flat_map].
    destruct (Hall ch (or_introl eq_refl)) as [c Hc].
    unfold dict_lookup at 1, code_of at 1. rewrite Hc. cbn [bind].
    rewrite IH by (intros; apply Hall; right; assumption).
    rewrite app_assoc. reflexivity.
Qed.

Lemma decode_loop_text (root : HuffmanNode) (codes : dict str) (text : str) :
  (forall ch, In ch text ->
     exists c, dict_get codes ch = Some c
               /\ forall rest acc,
                   decode_loop root (c ++ rest) root acc
                   = decode_loop root rest root (acc ++ [ch])) ->
  forall acc,
    decode_loop root (flat_map (code_of codes) text) root acc = acc ++ text.
Proof.
  induction text as [|ch text IH]; intros Hall acc.
  - simpl. rewrite app_nil_r. reflexivity.
  - cbn [flat_map].
    destruct (Hall ch (or_introl eq_refl)) as (c & Hc & Hdec).
    unfold code_of at 1. rewrite Hc, Hdec.
    rewrite IH by (intros; apply Hall; right; assumption).
    rewrite <- app_assoc. reflexivity.
Qed.

(** Everything the later statements need about the tree and the table built
    from a distribution. *)
Lemma huffman_table_ok (probs : dict float) :
  probs <> [] -> NoDup (dict_keys probs) ->
  exists root,
    build_huffman_tree probs = Ok (Some root)
    /\ huffman_shape root
    /\ build_huffman_codes (Some root) = paths root []
    /\ NoDup (dict_keys (paths root []))
    /\ Permutation (dict_keys (paths root [])) (dict_keys probs).
Proof.
  intros Hne Hnd.
  destruct (build_huffman_tree_ok probs Hne) as (root & Hroot & Hshape & Hperm).
  assert (Hndl : NoDup (leaves root)).
  { eapply Permutation_NoDup; [symmetry; exact Hperm | exact Hnd]. }
  exists root. split; [exact Hroot|]. split; [exact Hshape|].
  split; [apply build_huffman_codes_paths; assumption|].
  rewrite shape_paths_keys by assumption. split; assumption.
Qed.

Lemma flat_map_codes_bits (codes : dict str) (text : str) :
  (forall sym code, In (sym, code) codes -> is_bitstring code) ->
  is_bitstring (flat_map (code_of codes) text).
Proof.
  intros Hall. induction text as [|ch text IH]; [constructor|].
  cbn [flat_map]. apply Forall_app. split; [|exact IH].
  unfold code_of. destruct (dict_get codes ch) as [c|] eqn:E; [|constructor].
  assert (Hin : In (ch, c) codes).
  { clear -E. induction codes as [|[k v] codes IH]; [discriminate|].
    simpl in E. destruct (ascii_eqb ch k) eqn:Ek.
    - apply ascii_eqb_eq in Ek. injection E as ->. subst. left; reflexivity.
    - right. apply IH. exact E. }
  exact (Hall _ _ Hin).
Qed.

(** A non-empty text is encoded, by the table built from it, as the
    concatenation of its symbols' codes, a bit string that decodes to the
    text. *)
Lemma huffman_text_ok (T : str) :
  T <> [] ->
  exists root,
    build_huffman_tree (compute_symbol_probabilities T) = Ok (Some root)
    /\ huffman_shape root
    /\ huffman_encode T (build_huffman_codes (Some root))
       = Ok (flat_map (code_of (build_huffman_codes (Some root))) T)
    /\ is_bitstring (flat_map (code_of (build_huffman_codes (Some root))) T)
    /\ huffman_decode (flat_map (code_of (build_huffman_codes (Some root))) T)
                      (Some root) = T.
Proof.
  intros Hne.
  destruct (probabilities_keys T) as [Hnd Hkeys].
  assert (Hpne : compute_symbol_probabilities T <> []).
  { destruct T as [|c T]; [contradiction|].
    intros E. specialize (Hkeys c). rewrite E in Hkeys. simpl in Hkeys.
    tauto. }
  destruct (huffman_table_ok _ Hpne Hnd)
    as (root & Hroot & Hshape & Hcodes & Hndc & Hperm).
  exists root. split; [exact Hroot|]. split; [exact Hshape|].
  rewrite Hcodes.
  assert (Hget : forall ch, In ch T ->
            exists c, dict_get (paths root []) ch = Some c
                      /\ In (ch, c) (paths root [])).
  { intros ch Hin.
    assert (Hk : In ch (dict_keys (paths root []))).
    { apply (Permutation_in _ (Permutation_sym Hperm)). apply Hkeys. exact Hin. }
    unfold dict_keys in Hk. apply in_map_iff in Hk as ([k c] & Ek & Hk).
    simpl in Ek. subst k. exists c. split; [|exact Hk].
    apply dict_get_in; assumption. }
  split; [|split].
  - unfold huffman_encode.
    rewrite huffman_encode_loop; [reflexivity|].
    intros ch Hin. destruct (Hget ch Hin) as (c & Hc & _). eauto.
  - apply flat_map_codes_bits. intros sym code Hin.
    apply (shape_paths_decode root Hshape sym code Hin).
  - unfold huffman_decode.
    rewrite (decode_loop_text root (paths root []) T); [reflexivity|].
    intros ch Hin. destruct (Hget ch Hin) as (c & Hc & Hinc).
    exists c. split; [exact Hc|].
    apply (shape_paths_decode root Hshape ch c Hinc).
Qed.

(** ** Huffman coding: what the specification states *)

(** C1. For every non-empty text, with the distribution, tree and table
    built from the text itself, encoding succeeds and decoding the encoded
    bits gives the text back. *)
Theorem huffman_round_trip (T : str) :
  T <> [] ->
  exists root bits,
    build_huffman_tree (compute_symbol_probabilities T) = Ok root
    /\ huffman_encode T (build_huffman_codes root) = Ok bits
    /\ huffman_decode bits root = T.
Proof.
  intros Hne.
  destruct (huffman_text_ok T Hne) as (root & Hroot & _ & Henc & _ & Hdec).
  exists (Some root), (flat_map (code_of (build_huffman_codes (Some root))) T).
  auto.
Qed.

Lemma huffman_round_trip_witness :
  py "ABRACADABRA" <> [] /\
  exists root bits,
    build_huffman_tree (compute_symbol_probabilities (py "ABRACADABRA")) = Ok root
    /\ huffman_encode (py "ABRACADABRA") (build_huffman_codes root) = Ok bits
    /\ huffman_decode bits root = py "ABRACADABRA".
Proof.
  assert (H : py "ABRACADABRA" <> []) by discriminate.
  split; [exact H|].
  exact (huffman_round_trip (py "ABRACADABRA") H).
Defined.

(** C7. The table built from the tree of a non-empty distribution is
    prefix-free, gives every symbol of the distribution a code, and every
    code has at least one bit; a distribution of one symbol yields the table
    with the single entry ["0"] for it. *)
Theorem code_table_prefix_free (probs : dict float) :
  probs <> [] -> NoDup (dict_keys probs) ->
  exists root,
    build_huffman_tree probs = Ok root
    /\ prefix_free (build_huffman_codes root)
    /\ (forall sym code, In (sym, code) (build_huffman_codes root) ->
                         1 <= length code)
    /\ Permutation (dict_keys (build_huffman_codes root)) (dict_keys probs)
    /\ (forall sym p, probs = [(sym, p)] ->
                      build_huffman_codes root = [(sym, py "0")]).
Proof.
  intros Hne Hnd.
  destruct (huffman_table_ok probs Hne Hnd)
    as (root & Hroot & Hshape & Hcodes & Hndc & Hperm).
  exists (Some root). rewrite Hcodes.
  split; [exact Hroot|].
  split; [apply shape_paths_prefix_free; exact Hshape|].
  split; [intros sym code Hin; apply (shape_paths_decode root Hshape sym code Hin)|].
  split; [exact Hperm|].
  intros sym p ->.
  assert (E : build_huffman_tree [(sym, p)]
              = Ok (Some (Node None p (Some (Node (Some sym) p None None)) None)))
    by reflexivity.
  rewrite E in Hroot. injection Hroot as <-. reflexivity.
Qed.

Lemma code_table_prefix_free_witness :
  [("a"%char, 0.5%float); ("b"%char, 0.25%float); ("c"%char, 0.25%float)] <> []
  /\ NoDup (dict_keys [("a"%char, 0.5%float); ("b"%char, 0.25%float);
                       ("c"%char, 0.25%float)])
  /\ exists root,
      build_huffman_tree [("a"%char, 0.5%float); ("b"%char, 0.25%float);
                          ("c"%char, 0.25%float)] = Ok root
      /\ prefix_free (build_huffman_codes root)
      /\ (forall sym code, In (sym, code) (build_huffman_codes root) ->
                           1 <= length code)
      /\ Permutation (dict_keys (build_huffman_codes root))
                     (dict_keys [("a"%char, 0.5%float); ("b"%char, 0.25%float);
                                 ("c"%char, 0.25%float)])
      /\ (forall sym p,
             [("a"%char, 0.5%float); ("b"%char, 0.25%float);
              ("c"%char, 0.25%float)] = [(sym, p)] ->
             build_huffman_codes root = [(sym, py "0")]).
Proof.
  assert (H1 : [("a"%char, 0.5%float); ("b"%char, 0.25%float);
                ("c"%char, 0.25%float)] <> []) by discriminate.
  assert (H2 : NoDup (dict_keys [("a"%char, 0.5%float); ("b"%char, 0.25%float);
                                 ("c"%char, 0.25%float)])).
  { simpl. repeat constructor; simpl; intuition discriminate. }
  split; [exact H1|]. split; [exact H2|].
  exact (code_table_prefix_free _ H1 H2).
Defined.

(** ** The safe decoder's flag *)

Lemma decode_safe_loop_walk (root : HuffmanNode) (bits : str) :
  forall node acc pending,
    (snd (decode_safe_loop root bits node acc) = false
     <-> walk root bits node pending = CutShort)
    /\ (snd (decode_safe_loop root bits node acc) = true
        <-> exists dangling, walk root bits node pending = Consumed dangling)
    /\ fst (decode_safe_loop root bits node acc) = decode_loop root bits node acc.
Proof.
  induction bits as [|b bits IH]; intros node acc pending.
  - simpl. repeat split; intros; try discriminate; eauto.
  - cbn [decode_safe_loop walk decode_loop].
    destruct (if ascii_eqb b "0" then left node else right node) as [node'|].
    + destruct (symbol node'); apply IH.
    + simpl. repeat split; intros H; try discriminate; auto.
      destruct H as [d H]. discriminate H.
Qed.

(** C3, as the code has it. The flag is [false] exactly when the walk was cut
    short by a missing child and [true] exactly when every bit was consumed,
    whether or not the walk then stands at the root; and the text returned
    is the one [huffman_decode] returns. *)
Theorem decode_safe_flag (bits : str) (root : option HuffmanNode) :
  (snd (huffman_decode_safe bits root) = false
   <-> walk_outcome bits root = CutShort)
  /\ (snd (huffman_decode_safe bits root) = true
      <-> exists dangling, walk_outcome bits root = Consumed dangling)
  /\ fst (huffman_decode_safe bits root) = huffman_decode bits root.
Proof.
  destruct root as [root|]; cbn [huffman_decode_safe walk_outcome huffman_decode].
  - apply decode_safe_loop_walk.
  - simpl. repeat split; intros; try discriminate; eauto.
Qed.

(** The flag does not tell a clean end from a dangling partial code: with
    the tree of ["AABC"] (codes A = 0, C = 10, B = 11) the single bit ["1"]
    is consumed, leaves the walk on an inner node, and the flag is [true]. *)
Lemma decode_safe_flag_counterexample :
  ~ (forall (T bits : str) (root : option HuffmanNode),
       build_huffman_tree (compute_symbol_probabilities T) = Ok root ->
       (snd (huffman_decode_safe bits root) = false
        <-> walk_outcome bits root = CutShort)
       /\ (snd (huffman_decode_safe bits root) = true
           <-> walk_outcome bits root = Consumed [])).
Proof.
  intros H.
  destruct (build_huffman_tree (compute_symbol_probabilities (py "AABC")))
    as [root|e] eqn:E; [|vm_compute in E; discriminate E].
  destruct (H (py "AABC") (py "1") root E) as [_ [Hclean _]].
  vm_compute in E. injection E as <-.
  specialize (Hclean eq_refl). vm_compute in Hclean. discriminate Hclean.
Qed.

(** ** Corruption *)

Local Open Scope Z_scope.

Lemma flip_char_involutive c : is_bit c -> flip_char (flip_char c) = c.
Proof. intros [-> | ->]; reflexivity. Qed.

Lemma range3_bounds start stop step i :
  0 < step -> In i (range3 start stop step) -> start <= i < stop.
Proof.
  intros Hs Hin. unfold range3 in Hin.
  apply in_map_iff in Hin as (k & <- & Hk).
  apply in_seq in Hk.
  set (q := (stop - start + step - 1) / step) in *.
  assert (Hq : step * q <= stop - start + step - 1)
    by (apply Z.mul_div_le; lia).
  assert (Z.of_nat k + 1 <= q) by lia.
  nia.
Qed.

Lemma flip_step (bits : str) :
  is_bitstring bits ->
  forall (cur : str) (j : nat) (b : ascii),
    Forall2 same_or_flipped bits cur ->
    nth_error cur j = Some b ->
    Forall2 same_or_flipped bits
            (update cur j (if ascii_eqb b "1" then "0"%char else "1"%char)).
Proof.
  intros Hbits cur j b HF. revert j.
  induction HF as [|c o bits' cur' Hco HF IH]; intros j Hj.
  - destruct j; discriminate Hj.
  - inversion Hbits as [|? ? Hc Hbits']; subst.
    destruct j as [|j]; simpl in *.
    + injection Hj as ->. constructor; [|exact HF].
      fold (flip_char b).
      destruct Hco as [-> | ->]; [right; reflexivity|].
      left. apply flip_char_involutive. exact Hc.
    + constructor; [exact Hco|]. apply IH; assumption.
Qed.

Lemma add_errors_loop (bits : str) :
  is_bitstring bits ->
  forall (idxs : list Z) (cur : str),
    Forall (fun i => 0 <= i < len bits) idxs ->
    Forall2 same_or_flipped bits cur ->
    exists out,
      foldM
        (fun bits i =>
           b <- getitemZ bits i ;;
           setitemZ bits i (if ascii_eqb b "1" then "0"%char else "1"%char))
        idxs cur = Ok out
      /\ Forall2 same_or_flipped bits out.
Proof.
  intros Hbits idxs.
  induction idxs as [|i idxs IH]; intros cur Hidx HF.
  - exists cur. split; [reflexivity | exact HF].
  - inversion Hidx as [|? ? Hi Hrest]; subst.
    cbn [foldM].
    assert (Hlen : length cur = length bits)
      by (symmetry; apply (Forall2_length HF)).
    assert (Hj : (Z.to_nat i < length cur)%nat) by (unfold len in Hi; lia).
    destruct (nth_error cur (Z.to_nat i)) as [b|] eqn:Eb;
      [|apply nth_error_None in Eb; lia].
    assert (Ei : Z.of_nat (Z.to_nat i) = i) by lia.
    pose proof (@getitemZ_ok _ cur (Z.to_nat i) b Eb) as Hget.
    pose proof (@setitemZ_ok _ cur (Z.to_nat i)
                  (if ascii_eqb b "1" then "0"%char else "1"%char) Hj) as Hset.
    rewrite Ei in Hget, Hset.
    rewrite Hget. cbn [bind]. rewrite Hset. cbn [bind].
    apply IH; [exact Hrest|].
    apply flip_step; assumption.
Qed.

Lemma same_or_flipped_refl (bits : str) : Forall2 same_or_flipped bits bits.
Proof. induction bits; constructor; auto. left; reflexivity. Qed.


Lemma str_eqb_eq (a b : str) : str_eqb a b = true <-> a = b.
Proof.
  revert b; induction a as [|x a IH]; intros [|y b]; simpl;
    try (split; [discriminate | discriminate]); [tauto|].
  rewrite andb_true_iff, ascii_eqb_eq, IH.
  split; [intros [-> ->]; reflexivity | intros E; injection E; auto].
Qed.

Section PipelineProofs.
Variable randint : Z -> Z -> Z -> Z.
Hypothesis randint_range :
  forall seed a b, a <= b -> a <= randint seed a b <= b.

Lemma add_errors_ok (bitstring : str) (interval seed : Z) :
  is_bitstring bitstring ->
  exists out,
    add_errors randint bitstring interval seed = Ok out
    /\ Forall2 same_or_flipped bitstring out.
Proof.
  intros Hbits. unfold add_errors.
  destruct bitstring as [|c0 rest] eqn:E;
    [exists []; split; [reflexivity | constructor]|].
  rewrite <- E in *. clear c0 rest E.
  destruct (interval <=? 0) eqn:Ei;
    [exists bitstring; split; [reflexivity | apply same_or_flipped_refl]|].
  apply Z.leb_gt in Ei.
  apply add_errors_loop; [exact Hbits | | apply same_or_flipped_refl].
  apply Forall_forall. intros i Hin.
  apply range3_bounds in Hin; [|exact Ei].
  destruct (1 <? interval); [|lia].
  pose proof (randint_range seed 0 (Z.max 0 (interval - 1)) ltac:(lia)).
  lia.
Qed.

Lemma spec_encode_shape (B : str) :
  is_bitstring (fst (spec_encode B)) /\ len (fst (spec_encode B)) mod 7 = 0.
Proof.
  unfold spec_encode. cbn [fst].
  split; [apply bitstring_of_is_bitstring|].
  set (pad := spec_pad_bits (len B)).
  set (padded := map bit_of_char (B ++ repeat "0"%char (Z.to_nat pad))).
  pose proof (spec_pad_bits_range (len B)) as Hpad.
  pose proof (spec_pad_bits_aligned (len B)) as Hal.
  fold pad in Hpad, Hal.
  assert (Hplen : len padded = len B + pad).
  { unfold padded, len. rewrite length_map, length_app, repeat_length. lia. }
  assert (Hn : length padded = (4 * Z.to_nat (len padded / 4))%nat).
  { assert (len padded = 4 * (len padded / 4)).
    { rewrite Hplen. apply Z.div_exact; [lia | exact Hal]. }
    unfold len in *. lia. }
  unfold len, bitstring_of. rewrite length_map.
  rewrite (spec_blocks_length _ padded Hn).
  rewrite Nat2Z.inj_mul, Z.mul_comm. apply Z.mod_mul. lia.
Qed.

(** Every stage of the pipeline returns; the result record is the one made
    of the stages' values. *)
Lemma pipeline_stages (text : str) (error_interval : Z) :
  exists root enc ham pad cor cdata rec,
    build_huffman_tree (compute_symbol_probabilities text) = Ok root
    /\ is_bitstring enc
    /\ huffman_decode enc root = text
    /\ hamming_7_4_encode enc = Ok (ham, pad)
    /\ add_errors randint ham error_interval 2024 = Ok cor
    /\ Forall2 same_or_flipped ham cor
    /\ len cor mod 7 = 0
    /\ hamming_7_4_decode_no_correction cor pad = Ok cdata
    /\ hamming_7_4_decode cor pad = Ok rec
    /\ run_full_pipeline randint text error_interval
       = Ok {| text_length := len text;
               probabilities := compute_symbol_probabilities text;
               codes := build_huffman_codes root;
               encoded_bits := enc;
               decoded_text := text;
               hamming_bits := ham;
               pad_bits := pad;
               corrupted_bits := cor;
               corrupted_data_bits := cdata;
               corrupted_decoded_text := fst (huffman_decode_safe cdata root);
               corrupted_decode_ok := snd (huffman_decode_safe cdata root);
               recovered_bits := rec;
               recovered_decoded_text := huffman_decode rec root;
               recovered_text_ok := str_eqb (huffman_decode rec root) text;
               huffman_ok := true;
               hamming_ok := str_eqb rec enc |}.
Proof.
  assert (Hhuff : exists root enc,
             build_huffman_tree (compute_symbol_probabilities text) = Ok root
             /\ (match text with
                 | [] => Ok []
                 | _ => huffman_encode text (build_huffman_codes root)
                 end) = Ok enc
             /\ is_bitstring enc
             /\ huffman_decode enc root = text).
  { destruct text as [|c t0].
    - exists None, []. repeat split; constructor.
    - destruct (huffman_text_ok (c :: t0))
        as (root & Hroot & _ & Henc & Hbits & Hdec); [discriminate|].
      exists (Some root),
        (flat_map (code_of (build_huffman_codes (Some root))) (c :: t0)).
      auto. }
  destruct Hhuff as (root & enc & Hroot & Henc & Hbits & Hdec).
  pose proof (hamming_7_4_encode_spec (map bit_of_char enc)) as Hham.
  rewrite <- (is_bitstring_bits Hbits), <- spec_encode_bits in Hham.
  rewrite <- (is_bitstring_bits Hbits) in Hham.
  destruct (spec_encode enc) as [ham pad] eqn:Espec.
  pose proof (spec_encode_shape enc) as [Hhb Hhl]. rewrite Espec in Hhb, Hhl.
  cbn [fst snd] in *.
  destruct (add_errors_ok ham error_interval 2024 Hhb) as (cor & Hcor & HF).
  assert (Hcl : len cor mod 7 = 0).
  { unfold len in *. rewrite <- (Forall2_length HF). exact Hhl. }
  destruct (hamming_7_4_decode_no_correction_total cor pad Hcl) as [cdata Hcdata].
  destruct (hamming_7_4_decode_total cor pad Hcl) as [rec Hrec].
  exists root, enc, ham, pad, cor, cdata, rec.
  repeat (split; [assumption|]).
  unfold run_full_pipeline.
  rewrite Hroot. cbn [bind]. rewrite Henc. cbn [bind].
  rewrite Hham. cbn [bind]. rewrite Hcor. cbn [bind].
  rewrite Hcdata. cbn [bind].
  destruct (huffman_decode_safe cdata root) as [ctext cok].
  rewrite Hrec. cbn [bind fst snd].
  rewrite Hdec.
  replace (str_eqb text text) with true
    by (symmetry; apply str_eqb_eq; reflexivity).
  reflexivity.
Qed.

(** C10. [add_errors] returns a string of the same length in which every
    position holds the original bit or its complement; so in the pipeline the
    corrupted stream is still a whole number of 7-bit blocks and neither
    Hamming decoder raises. *)
Theorem add_errors_keeps_shape :
  (forall (bits : str) (interval seed : Z),
      is_bitstring bits ->
      exists out,
        add_errors randint bits interval seed = Ok out
        /\ length out = length bits
        /\ Forall2 same_or_flipped bits out)
  /\ (forall (text : str) (error_interval : Z),
         exists r,
           run_full_pipeline randint text error_interval = Ok r
           /\ add_errors randint (hamming_bits r) error_interval 2024
              = Ok (corrupted_bits r)
           /\ len (corrupted_bits r) mod 7 = 0
           /\ hamming_7_4_decode_no_correction (corrupted_bits r) (pad_bits r)
              = Ok (corrupted_data_bits r)
           /\ hamming_7_4_decode (corrupted_bits r) (pad_bits r)
              = Ok (recovered_bits r)).
Proof.
  split.
  - intros bits interval seed Hbits.
    destruct (add_errors_ok bits interval seed Hbits) as (out & Hout & HF).
    exists out. split; [exact Hout|]. split; [|exact HF].
    symmetry. apply (Forall2_length HF).
  - intros text error_interval.
    destruct (pipeline_stages text error_interval)
      as (root & enc & ham & pad & cor & cdata & rec & _ & _ & _ & _
          & Hcor & _ & Hcl & Hcdata & Hrec & Hrun).
    eexists. split; [exact Hrun|]. cbn. auto.
Qed.

(** C4, as the code has it. [hamming_ok] reports the round trip through the
    corrupted stream: it is [true] exactly when decoding, with correction,
    the corrupted Hamming stream gives the pre-ECC bits back. *)
Theorem hamming_ok_reports_corrected_stream (text : str) (error_interval : Z) :
  0 < error_interval ->
  exists r,
    run_full_pipeline randint text error_interval = Ok r
    /\ hamming_7_4_encode (encoded_bits r) = Ok (hamming_bits r, pad_bits r)
    /\ add_errors randint (hamming_bits r) error_interval 2024
       = Ok (corrupted_bits r)
    /\ (hamming_ok r = true
        <-> hamming_7_4_decode (corrupted_bits r) (pad_bits r)
            = Ok (encoded_bits r)).
Proof.
  intros _.
  destruct (pipeline_stages text error_interval)
    as (root & enc & ham & pad & cor & cdata & rec & _ & _ & _ & Hham
        & Hcor & _ & _ & _ & Hrec & Hrun).
  eexists. split; [exact Hrun|]. cbn.
  split; [exact Hham|]. split; [exact Hcor|].
  rewrite Hrec, str_eqb_eq. split; [intros ->; reflexivity | intros E; injection E; auto].
Qed.

(** C9. On the empty text the pipeline returns the empty distribution, the
    empty table, empty bits and texts at every stage, no padding, and all
    four flags [true]. *)
Theorem empty_text_pipeline (error_interval : Z) :
  0 < error_interval ->
  run_full_pipeline randint [] error_interval
  = Ok {| text_length := 0;
          probabilities := [];
          codes := [];
          encoded_bits := [];
          decoded_text := [];
          hamming_bits := [];
          pad_bits := 0;
          corrupted_bits := [];
          corrupted_data_bits := [];
          corrupted_decoded_text := [];
          corrupted_decode_ok := true;
          recovered_bits := [];
          recovered_decoded_text := [];
          recovered_text_ok := true;
          huffman_ok := true;
          hamming_ok := true |}.
Proof. intros _. reflexivity. Qed.

End PipelineProofs.

Lemma lowest_draw_range (seed a b : Z) : a <= b -> a <= lowest_draw seed a b <= b.
Proof. unfold lowest_draw; lia. Qed.

Lemma add_errors_keeps_shape_witness :
  (forall seed a b, a <= b -> a <= lowest_draw seed a b <= b)
  /\ (forall (bits : str) (interval seed : Z),
         is_bitstring bits ->
         exists out,
           add_errors lowest_draw bits interval seed = Ok out
           /\ length out = length bits
           /\ Forall2 same_or_flipped bits out)
  /\ (forall (text : str) (error_interval : Z),
         exists r,
           run_full_pipeline lowest_draw text error_interval = Ok r
           /\ add_errors lowest_draw (hamming_bits r) error_interval 2024
              = Ok (corrupted_bits r)
           /\ len (corrupted_bits r) mod 7 = 0
           /\ hamming_7_4_decode_no_correction (corrupted_bits r) (pad_bits r)
              = Ok (corrupted_data_bits r)
           /\ hamming_7_4_decode (corrupted_bits r) (pad_bits r)
              = Ok (recovered_bits r)).
Proof.
  split; [exact lowest_draw_range|].
  exact (add_errors_keeps_shape lowest_draw lowest_draw_range).
Defined.

Lemma hamming_ok_reports_corrected_stream_witness :
  (forall seed a b, a <= b -> a <= lowest_draw seed a b <= b)
  /\ 0 < 3
  /\ exists r,
      run_full_pipeline lowest_draw (py "AAAB") 3 = Ok r
      /\ hamming_7_4_encode (encoded_bits r) = Ok (hamming_bits r, pad_bits r)
      /\ add_errors lowest_draw (hamming_bits r) 3 2024 = Ok (corrupted_bits r)
      /\ (hamming_ok r = true
          <-> hamming_7_4_decode (corrupted_bits r) (pad_bits r)
              = Ok (encoded_bits r)).
Proof.
  split; [exact lowest_draw_range|].
  split; [reflexivity|].
  exact (hamming_ok_reports_corrected_stream lowest_draw lowest_draw_range
           (py "AAAB") 3 eq_refl).
Defined.

(** The flag is not about the uncorrupted stream: for the text ["A"] and
    interval 1 every bit of the one block is flipped, the decoder returns
    ["1"] for the encoded ["0"], and [hamming_ok] is [false], although
    decoding the uncorrupted stream gives the encoded bits back. *)
Lemma hamming_ok_counterexample :
  ~ (forall (randint : Z -> Z -> Z -> Z) (text : str) (error_interval : Z)
            (r : PipelineResult),
       (forall seed a b, a <= b -> a <= randint seed a b <= b) ->
       0 < error_interval ->
       run_full_pipeline randint text error_interval = Ok r ->
       (hamming_ok r = true
        <-> hamming_7_4_decode (hamming_bits r) (pad_bits r)
            = Ok (encoded_bits r))).
Proof.
  intros H.
  destruct (run_full_pipeline lowest_draw (py "A") 1) as [r|e] eqn:E;
    [|vm_compute in E; discriminate E].
  specialize (H lowest_draw (py "A") 1 r lowest_draw_range eq_refl E).
  vm_compute in E. injection E as <-.
  destruct H as [_ H]. specialize (H eq_refl). discriminate H.
Qed.

Lemma empty_text_pipeline_witness :
  0 < 50
  /\ run_full_pipeline lowest_draw [] 50
     = Ok {| text_length := 0;
             probabilities := [];
             codes := [];
             encoded_bits := [];
             decoded_text := [];
             hamming_bits := [];
             pad_bits := 0;
             corrupted_bits := [];
             corrupted_data_bits := [];
             corrupted_decoded_text := [];
             corrupted_decode_ok := true;
             recovered_bits := [];
             recovered_decoded_text := [];
             recovered_text_ok := true;
             huffman_ok := true;
             hamming_ok := true |}.
Proof.
  split; [reflexivity|].
  exact (empty_text_pipeline lowest_draw 50 eq_refl).
Defined.

(** ** The scenarios of the specification, run on the model *)

Example scenario_AAAB :
  exists r,
    run_full_pipeline lowest_draw (py "AAAB") 50 = Ok r
    /\ probabilities r = [("A"%char, 0.75%float); ("B"%char, 0.25%float)]
    /\ codes r = [("B"%char, py "0"); ("A"%char, py "1")]
    /\ encoded_bits r = py "1110"
    /\ hamming_bits r = py "0010110"
    /\ pad_bits r = 0
    /\ recovered_bits r = py "1110"
    /\ recovered_decoded_text r = py "AAAB".
Proof. eexists. split; [vm_compute; reflexivity|]. repeat split. Qed.

Example scenario_ZZZZ :
  exists r,
    run_full_pipeline lowest_draw (py "ZZZZ") 50 = Ok r
    /\ probabilities r = [("Z"%char, 1%float)]
    /\ codes r = [("Z"%char, py "0")]
    /\ encoded_bits r = py "0000"
    /\ decoded_text r = py "ZZZZ"
    /\ huffman_ok r = true.
Proof. eexists. split; [vm_compute; reflexivity|]. repeat split. Qed.

(** * Further properties of the code *)

(** ** The distribution *)

Lemma dict_get_set (V : Type) (d : dict V) k v x :
  dict_get (dict_set d k v) x
  = if ascii_eqb x k then Some v else dict_get d x.
Proof.
  induction d as [|[k' v'] d IH]; simpl.
  - destruct (ascii_eqb x k); reflexivity.
  - destruct (ascii_eqb k k') eqn:Ek; simpl.
    + apply ascii_eqb_eq in Ek. subst k'.
      destruct (ascii_eqb x k); reflexivity.
    + destruct (ascii_eqb x k') eqn:Ex.
      * apply ascii_eqb_eq in Ex. subst k'.
        destruct (ascii_eqb x k) eqn:Exk; [|reflexivity].
        apply ascii_eqb_eq in Exk. subst. rewrite ascii_eqb_refl in Ek.
        discriminate.
      * exact IH.
Qed.

Lemma Counter_fold_get (text : str) :
  forall (counts : dict Z) (x : ascii),
    count_at
      (fold_left
         (fun counts ch =>
            dict_set counts ch
              (match dict_get counts ch with Some c => c | None => 0 end + 1))
         text counts) x
    = count_at counts x + occurrences x text.
Proof.
  induction text as [|ch text IH]; intros counts x; simpl; [lia|].
  rewrite IH. unfold count_at at 1. rewrite dict_get_set.
  destruct (ascii_eqb x ch) eqn:E.
  - apply ascii_eqb_eq in E. subst ch. rewrite ascii_eqb_refl.
    unfold count_at. lia.
  - assert (ascii_eqb ch x = false).
    { destruct (ascii_eqb ch x) eqn:E'; [|reflexivity].
      apply ascii_eqb_eq in E'. subst. rewrite ascii_eqb_refl in E. discriminate. }
    rewrite H. unfold count_at. lia.
Qed.

Lemma dict_sum_set (counts : dict Z) k v :
  dict_sum (dict_set counts k v) = dict_sum counts - count_at counts k + v.
Proof.
  induction counts as [|[k' v'] counts IH]; unfold dict_sum, count_at in *; simpl.
  - lia.
  - destruct (ascii_eqb k k'); simpl; lia.
Qed.

Lemma Counter_fold_sum (text : str) :
  forall counts : dict Z,
    dict_sum
      (fold_left
         (fun counts ch =>
            dict_set counts ch
              (match dict_get counts ch with Some c => c | None => 0 end + 1))
         text counts)
    = dict_sum counts + len text.
Proof.
  induction text as [|ch text IH]; intros counts; simpl.
  - unfold len; simpl; lia.
  - rewrite IH, dict_sum_set. unfold count_at, len. simpl length. lia.
Qed.

Lemma fold_left_add_sum (l : list Z) (a : Z) :
  fold_left Z.add l a = a + fold_right Z.add 0 l.
Proof.
  revert a; induction l as [|x l IH]; intros a; simpl; [lia|].
  rewrite IH. lia.
Qed.

Lemma dict_get_map (V W : Type) (f : V -> W) (d : dict V) x :
  dict_get (map (fun '(k, v) => (k, f v)) d) x = option_map f (dict_get d x).
Proof.
  induction d as [|[k v] d IH]; simpl; [reflexivity|].
  destruct (ascii_eqb x k); [reflexivity | exact IH].
Qed.

Lemma occurrences_pos (x : ascii) (text : str) :
  In x text <-> 0 < occurrences x text.
Proof.
  induction text as [|c text IH]; simpl; [split; [tauto | lia]|].
  assert (0 <= occurrences x text).
  { clear. induction text as [|c text IH]; simpl; [lia|].
    destruct (ascii_eqb c x); lia. }
  destruct (ascii_eqb c x) eqn:E.
  - apply ascii_eqb_eq in E. split; [lia | auto].
  - split.
    + intros [-> | Hin]; [rewrite ascii_eqb_refl in E; discriminate|].
      apply IH in Hin. lia.
    + intros Hpos. right. apply IH. lia.
Qed.

Lemma dict_get_some_key (V : Type) (d : dict V) x v :
  dict_get d x = Some v -> In x (dict_keys d).
Proof.
  induction d as [|[k v'] d IH]; [discriminate|].
  simpl. destruct (ascii_eqb x k) eqn:E.
  - apply ascii_eqb_eq in E. intros _. left. symmetry. exact E.
  - intros H. right. apply IH. exact H.
Qed.

(** The distribution has one entry per distinct character of the text, and
    the entry of a character is its number of occurrences divided by the
    length of the text; a character that does not occur has no entry. *)
Theorem probabilities_are_frequencies (text : str) (x : ascii) :
  NoDup (dict_keys (compute_symbol_probabilities text))
  /\ dict_get (compute_symbol_probabilities text) x
     = if 0 <? occurrences x text
       then Some (float_of_Z (occurrences x text) / float_of_Z (len text))%float
       else None.
Proof.
  split; [apply probabilities_keys|].
  destruct text as [|c0 t0]; [reflexivity|].
  unfold compute_symbol_probabilities. cbv iota.
  set (text := c0 :: t0).
  rewrite fold_left_add_sum, Z.add_0_l.
  fold (dict_sum (Counter text)).
  unfold Counter. rewrite Counter_fold_sum.
  change (dict_sum []) with 0. rewrite Z.add_0_l.
  rewrite (dict_get_map _ _ (fun c => (float_of_Z c / float_of_Z (len text))%float)).
  pose proof (Counter_fold_get text [] x) as Hget.
  change (count_at [] x) with 0 in Hget. rewrite Z.add_0_l in Hget.
  destruct (Counter_fold_keys text [] (NoDup_nil _)) as [_ Hkeys].
  specialize (Hkeys x).
  unfold count_at in Hget.
  destruct (0 <? occurrences x text) eqn:Epos.
  - apply Z.ltb_lt in Epos.
    destruct (dict_get _ x) as [c|]; [|lia].
    simpl. rewrite Hget. reflexivity.
  - apply Z.ltb_ge in Epos.
    destruct (dict_get _ x) as [c|] eqn:Eg; [|reflexivity].
    exfalso.
    assert (Hin : In x text).
    { apply dict_get_some_key in Eg. apply Hkeys in Eg as [Hin | []]. exact Hin. }
    apply occurrences_pos in Hin. lia.
Qed.

(** ** The entropy codec *)

Lemma huffman_encode_loop_missing (codes : dict str) (text : str) :
  (exists ch, In ch text /\ dict_get codes ch = None) ->
  forall acc,
    foldM (fun acc ch => c <- dict_lookup codes ch ;; Ok (acc ++ c)) text acc
    = Raise KeyError.
Proof.
  induction text as [|c0 text IH]; intros (ch & Hin & Hnone) acc;
    [contradiction|].
  cbn [foldM]. unfold dict_lookup at 1.
  destruct (dict_get codes c0) as [code|] eqn:E; [|reflexivity].
  cbn [bind]. apply IH.
  destruct Hin as [-> | Hin]; [congruence|]. eauto.
Qed.

(** [huffman_encode] returns the concatenation of the codes when every
    character of the text has an entry in the table, and raises [KeyError]
    as soon as one has none. *)
Theorem huffman_encode_result (text : str) (codes : dict str) :
  ((forall ch, In ch text -> In ch (dict_keys codes)) ->
   huffman_encode text codes = Ok (flat_map (code_of codes) text))
  /\ ((exists ch, In ch text /\ ~ In ch (dict_keys codes)) ->
      huffman_encode text codes = Raise KeyError).
Proof.
  split.
  - intros Hall. unfold huffman_encode.
    rewrite huffman_encode_loop; [reflexivity|].
    intros ch Hin. specialize (Hall ch Hin).
    destruct (dict_get codes ch) as [c|] eqn:E; [eauto|].
    exfalso. clear -Hall E.
    induction codes as [|[k v] codes IH]; [contradiction|].
    simpl in *. destruct (ascii_eqb ch k) eqn:Ek; [discriminate|].
    destruct Hall as [-> | Hall]; [rewrite ascii_eqb_refl in Ek; discriminate|].
    auto.
  - intros (ch & Hin & Hnot). apply huffman_encode_loop_missing.
    exists ch. split; [exact Hin|].
    destruct (dict_get codes ch) as [c|] eqn:E; [|reflexivity].
    exfalso. apply Hnot. eapply dict_get_some_key. exact E.
Qed.

Lemma flat_map_codes_length (codes : dict str) (text : str) :
  (forall ch, In ch text -> (1 <= length (code_of codes ch))%nat) ->
  (length text <= length (flat_map (code_of codes) text))%nat.
Proof.
  induction text as [|c text IH]; intros Hall; [simpl; lia|].
  cbn [flat_map]. rewrite length_app. simpl length.
  specialize (Hall c (or_introl eq_refl)) as Hc.
  specialize (IH (fun ch H => Hall ch (or_intror H))). lia.
Qed.

Lemma huffman_text_length (T : str) :
  T <> [] ->
  exists root,
    build_huffman_tree (compute_symbol_probabilities T) = Ok (Some root)
    /\ (length T
        <= length (flat_map (code_of (build_huffman_codes (Some root))) T))%nat.
Proof.
  intros Hne.
  destruct (probabilities_keys T) as [Hnd Hkeys].
  assert (Hpne : compute_symbol_probabilities T <> []).
  { destruct T as [|c T]; [contradiction|].
    intros E. specialize (Hkeys c). rewrite E in Hkeys. simpl in Hkeys. tauto. }
  destruct (huffman_table_ok _ Hpne Hnd)
    as (root & Hroot & Hshape & Hcodes & Hndc & Hperm).
  exists root. split; [exact Hroot|].
  apply flat_map_codes_length. intros ch Hin.
  rewrite Hcodes.
  assert (Hk : In ch (dict_keys (paths root []))).
  { apply (Permutation_in _ (Permutation_sym Hperm)). apply Hkeys. exact Hin. }
  unfold dict_keys in Hk. apply in_map_iff in Hk as ([k c] & Ek & Hk).
  simpl in Ek. subst k.
  unfold code_of. rewrite (dict_get_in _ _ _ _ Hndc Hk).
  apply (shape_paths_decode root Hshape ch c Hk).
Qed.

(** With the table built from a non-empty text, the encoded bit string has
    at least one bit per character of the text; in particular it is not
    empty, so the ratio of the two lengths that the callers compute is
    defined. *)
Theorem encoded_length_at_least_text (T : str) :
  T <> [] ->
  exists root bits,
    build_huffman_tree (compute_symbol_probabilities T) = Ok root
    /\ huffman_encode T (build_huffman_codes root) = Ok bits
    /\ is_bitstring bits
    /\ (1 <= length T <= length bits)%nat.
Proof.
  intros Hne.
  destruct (huffman_text_length T Hne) as (root & Hroot & Hlen).
  destruct (huffman_text_ok T Hne) as (root' & Hroot' & _ & Henc & Hbits & _).
  rewrite Hroot in Hroot'. injection Hroot' as <-.
  exists (Some root), (flat_map (code_of (build_huffman_codes (Some root))) T).
  split; [exact Hroot|]. split; [exact Henc|]. split; [exact Hbits|].
  split; [destruct T; [contradiction | simpl; lia] | exact Hlen].
Qed.

Lemma encoded_length_at_least_text_witness :
  py "MISSISSIPPI" <> []
  /\ exists root bits,
      build_huffman_tree (compute_symbol_probabilities (py "MISSISSIPPI")) = Ok root
      /\ huffman_encode (py "MISSISSIPPI") (build_huffman_codes root) = Ok bits
      /\ is_bitstring bits
      /\ (1 <= length (py "MISSISSIPPI") <= length bits)%nat.
Proof.
  assert (H : py "MISSISSIPPI" <> []) by discriminate.
  split; [exact H|].
  exact (encoded_length_at_least_text (py "MISSISSIPPI") H).
Defined.

(** *** Trees of two or more symbols: the safe decoder never reports a fault *)

Lemma proper_step (n : HuffmanNode) (b : ascii) :
  full_inner n ->
  exists c, (if ascii_eqb b "0" then left n else right n) = Some c /\ proper c.
Proof.
  intros (p & l & r & -> & Hl & Hr). simpl.
  destruct (ascii_eqb b "0"); eauto.
Qed.

Lemma proper_symbol_or_inner (c : HuffmanNode) :
  proper c -> (exists sym, symbol c = Some sym) \/ (symbol c = None /\ full_inner c).
Proof.
  intros [sym p | p l r Hl Hr]; [left; simpl; eauto|].
  right. split; [reflexivity|]. exists p, l, r. auto.
Qed.

Lemma decode_safe_loop_full (root : HuffmanNode) (bits : str) :
  full_inner root ->
  forall node acc,
    full_inner node -> snd (decode_safe_loop root bits node acc) = true.
Proof.
  intros Hroot. induction bits as [|b bits IH]; intros node acc Hnode;
    [reflexivity|].
  cbn [decode_safe_loop].
  destruct (proper_step node b Hnode) as (c & -> & Hc).
  destruct (proper_symbol_or_inner c Hc) as [[sym ->] | [-> Hin]]; auto.
Qed.

Lemma shape_two_leaves (root : HuffmanNode) :
  huffman_shape root -> (2 <= length (leaves root))%nat -> full_inner root.
Proof.
  intros [p sym q | p l r Hl Hr] Hlen; [simpl in Hlen; lia|].
  exists p, l, r. auto.
Qed.

(** For a distribution of two or more symbols the tree has no missing
    child, so [huffman_decode_safe] returns the flag [True] for every string
    of bits whatsoever, corrupted or not. *)
Theorem decode_safe_never_fails_on_full_tree (probs : dict float) :
  (2 <= length probs)%nat ->
  exists root,
    build_huffman_tree probs = Ok (Some root)
    /\ forall bits : str, snd (huffman_decode_safe bits (Some root)) = true.
Proof.
  intros Hlen.
  assert (Hne : probs <> []) by (destruct probs; [simpl in Hlen; lia | discriminate]).
  destruct (build_huffman_tree_ok probs Hne) as (root & Hroot & Hshape & Hperm).
  exists root. split; [exact Hroot|].
  intros bits. unfold huffman_decode_safe.
  assert (Hfull : full_inner root).
  { apply shape_two_leaves; [exact Hshape|].
    rewrite (Permutation_length Hperm). unfold dict_keys. rewrite length_map.
    exact Hlen. }
  apply decode_safe_loop_full; assumption.
Qed.

Lemma decode_safe_never_fails_on_full_tree_witness :
  (2 <= length [("a"%char, 0.5%float); ("b"%char, 0.5%float)])%nat
  /\ exists root,
      build_huffman_tree [("a"%char, 0.5%float); ("b"%char, 0.5%float)]
      = Ok (Some root)
      /\ forall bits : str, snd (huffman_decode_safe bits (Some root)) = true.
Proof.
  assert (H : (2 <= length [("a"%char, 0.5%float); ("b"%char, 0.5%float)])%nat)
    by (simpl; lia).
  split; [exact H|].
  exact (decode_safe_never_fails_on_full_tree _ H).
Defined.

(** *** The tree of a single symbol *)

Lemma single_tree_decode_safe_loop (p q : float) (sym : ascii) (bits : str) :
  forall acc,
    decode_safe_loop
      (Node None p (Some (Node (Some sym) q None None)) None) bits
      (Node None p (Some (Node (Some sym) q None None)) None) acc
    = (acc ++ repeat sym (leading_zeros bits),
       forallb (fun b => ascii_eqb b "0") bits).
Proof.
  induction bits as [|b bits IH]; intros acc.
  - simpl. rewrite app_nil_r. reflexivity.
  - cbn [decode_safe_loop leading_zeros forallb].
    destruct (ascii_eqb b "0"); cbn.
    + rewrite IH, <- app_assoc. reflexivity.
    + rewrite app_nil_r. reflexivity.
Qed.

(** For a distribution of one symbol the tree has a single edge: the safe
    decoder emits the symbol once per leading ["0"], stops at the first
    other character, and its flag is [True] exactly when there is none. *)
Theorem decode_safe_single_symbol (sym : ascii) (p : float) (bits : str) :
  exists root,
    build_huffman_tree [(sym, p)] = Ok (Some root)
    /\ huffman_decode_safe bits (Some root)
       = (repeat sym (leading_zeros bits),
          forallb (fun b => ascii_eqb b "0") bits)
    /\ huffman_decode bits (Some root) = repeat sym (leading_zeros bits).
Proof.
  exists (Node None p (Some (Node (Some sym) p None None)) None).
  split; [reflexivity|].
  assert (E : huffman_decode_safe bits
                (Some (Node None p (Some (Node (Some sym) p None None)) None))
              = (repeat sym (leading_zeros bits),
                 forallb (fun b => ascii_eqb b "0") bits)).
  { unfold huffman_decode_safe. apply (single_tree_decode_safe_loop p p sym bits []). }
  split; [exact E|].
  destruct (decode_safe_loop_walk
              (Node None p (Some (Node (Some sym) p None None)) None) bits
              (Node None p (Some (Node (Some sym) p None None)) None) [] [])
    as (_ & _ & Hfst).
  unfold huffman_decode. rewrite <- Hfst.
  unfold huffman_decode_safe in E. rewrite E. reflexivity.
Qed.

(** ** Hamming(7,4): further properties *)

(** The layout of a padded, non-empty bit string. *)
Lemma padded_layout (bs : list bool) :
  bs <> [] ->
  let pad := spec_pad_bits (len bs) in
  let padded := bs ++ repeat false (Z.to_nat pad) in
  exists n : nat,
    (0 < n)%nat
    /\ length padded = (4 * n)%nat
    /\ length (spec_blocks padded) = (7 * n)%nat
    /\ len padded = len bs + pad
    /\ 0 <= pad <= 3.
Proof.
  intros Hne pad padded.
  pose proof (spec_pad_bits_range (len bs)) as Hpad.
  pose proof (spec_pad_bits_aligned (len bs)) as Hal.
  fold pad in Hpad, Hal.
  assert (Hplen : len padded = len bs + pad).
  { unfold padded. rewrite len_app. unfold len at 2. rewrite repeat_length. lia. }
  assert (Hn : length padded = (4 * Z.to_nat (len padded / 4))%nat).
  { assert (len padded = 4 * (len padded / 4)).
    { rewrite Hplen. apply Z.div_exact; [lia | exact Hal]. }
    unfold len in *. lia. }
  exists (Z.to_nat (len padded / 4)).
  split.
  { destruct (Z.to_nat (len padded / 4)); [|lia].
    destruct bs; [contradiction|]. unfold padded in Hn. simpl in Hn. discriminate Hn. }
  split; [exact Hn|].
  split; [apply spec_blocks_length; exact Hn|].
  split; [exact Hplen | lia].
Qed.

Lemma strip_pad_bits (bs : list bool) (pad : Z) :
  0 <= pad ->
  int_list_to_bitstr
    (let data := map Zb (bs ++ repeat false (Z.to_nat pad)) in
     if 0 <? pad then drop_last data pad else data)
  = bitstring_of bs.
Proof.
  intros Hpad. cbv zeta.
  destruct (0 <? pad) eqn:Ep.
  - rewrite map_app.
    replace pad with (len (map Zb (repeat false (Z.to_nat pad)))) at 2
      by (unfold len; rewrite length_map, repeat_length; lia).
    rewrite drop_last_app. apply int_list_to_bitstr_bits.
  - apply Z.ltb_ge in Ep. replace (Z.to_nat pad) with O by lia.
    simpl repeat. rewrite app_nil_r. apply int_list_to_bitstr_bits.
Qed.

Lemma blocks_data_id_spec_blocks (n : nat) :
  forall l : list bool,
    length l = (4 * n)%nat ->
    blocks_data (fun b => b) (map Zb (spec_blocks l)) n = map Zb l.
Proof.
  induction n as [|n IH]; intros l Hlen.
  - destruct l; [reflexivity | discriminate Hlen].
  - do 4 (destruct l as [|? l]; [simpl in Hlen; lia|]).
    assert (Hr : length l = (4 * n)%nat) by (simpl in Hlen; lia).
    cbn [spec_blocks spec_block app map blocks_data firstn skipn].
    rewrite (IH l Hr). reflexivity.
Qed.

Lemma no_correction_round_trip_bits (bs : list bool) :
  hamming_7_4_decode_no_correction
    (bitstring_of (fst (spec_hamming_encode bs))) (snd (spec_hamming_encode bs))
  = Ok (bitstring_of bs).
Proof.
  destruct bs as [|b0 bs0] eqn:Ebs; [reflexivity|]. rewrite <- Ebs.
  assert (Hne : bs <> []) by (rewrite Ebs; discriminate).
  destruct (padded_layout bs Hne) as (n & Hn0 & Hn & Hslen & Hplen & Hpad).
  unfold spec_hamming_encode. cbn [fst snd].
  set (pad := spec_pad_bits (len bs)) in *.
  set (padded := bs ++ repeat false (Z.to_nat pad)) in *.
  assert (Helen : len (bitstring_of (spec_blocks padded)) = 7 * Z.of_nat n).
  { unfold len, bitstring_of. rewrite length_map, Hslen. lia. }
  rewrite hamming_7_4_decode_no_correction_blocks.
  - rewrite Helen.
    replace (7 * Z.of_nat n / 7) with (Z.of_nat n)
      by (rewrite Z.mul_comm, Z.div_mul; lia).
    rewrite Nat2Z.id, bitstr_to_int_list_of_bits.
    rewrite blocks_data_id_spec_blocks by exact Hn.
    f_equal. unfold padded. apply strip_pad_bits. lia.
  - intros E. apply (f_equal (@length _)) in E.
    unfold bitstring_of in E. rewrite length_map, Hslen in E. simpl in E. lia.
  - rewrite Helen, Z.mul_comm. apply Z.mod_mul. lia.
Qed.

(** Without corruption the decoder that does not correct gives the data back
    as well. *)
Theorem hamming_round_trip_no_correction (B : str) :
  is_bitstring B ->
  exists encoded pad,
    hamming_7_4_encode B = Ok (encoded, pad)
    /\ hamming_7_4_decode_no_correction encoded pad = Ok B.
Proof.
  intros HB. rewrite (is_bitstring_bits HB).
  set (bs := map bit_of_char B).
  exists (bitstring_of (fst (spec_hamming_encode bs))), (snd (spec_hamming_encode bs)).
  split; [apply hamming_7_4_encode_spec | apply no_correction_round_trip_bits].
Qed.

Lemma hamming_round_trip_no_correction_witness :
  is_bitstring (py "10011") /\
  exists encoded pad,
    hamming_7_4_encode (py "10011") = Ok (encoded, pad)
    /\ hamming_7_4_decode_no_correction encoded pad = Ok (py "10011").
Proof.
  assert (H : is_bitstring (py "10011")).
  { repeat constructor; (left; reflexivity) || (right; reflexivity). }
  split; [exact H|].
  exact (hamming_round_trip_no_correction (py "10011") H).
Defined.

(** The encoder's output is a bit string of seven bits per group of four
    padded input bits, and the pad count, between 0 and 3, completes the
    input to a multiple of four. *)
Theorem hamming_7_4_encode_shape (B : str) :
  is_bitstring B ->
  exists encoded pad,
    hamming_7_4_encode B = Ok (encoded, pad)
    /\ 0 <= pad <= 3
    /\ (len B + pad) mod 4 = 0
    /\ 4 * len encoded = 7 * (len B + pad)
    /\ is_bitstring encoded.
Proof.
  intros HB. rewrite (is_bitstring_bits HB).
  set (bs := map bit_of_char B).
  exists (bitstring_of (fst (spec_hamming_encode bs))), (snd (spec_hamming_encode bs)).
  split; [apply hamming_7_4_encode_spec|].
  replace (len (bitstring_of bs)) with (len bs)
    by (unfold len, bitstring_of; rewrite length_map; reflexivity).
  unfold spec_hamming_encode. cbn [fst snd].
  pose proof (spec_pad_bits_range (len bs)) as Hpad.
  split; [lia|]. split; [apply spec_pad_bits_aligned|].
  split; [|apply bitstring_of_is_bitstring].
  destruct bs as [|b0 bs0] eqn:Ebs; [reflexivity|]. rewrite <- Ebs.
  assert (Hne : bs <> []) by (rewrite Ebs; discriminate).
  destruct (padded_layout bs Hne) as (n & Hn0 & Hn & Hslen & Hplen & _).
  cbv zeta in Hn, Hslen, Hplen.
  set (padded := bs ++ repeat false (Z.to_nat (spec_pad_bits (len bs)))) in *.
  assert (Hl : len (bitstring_of (spec_blocks padded)) = 7 * Z.of_nat n)
    by (unfold len, bitstring_of; rewrite length_map, Hslen; lia).
  assert (Hp : len padded = 4 * Z.of_nat n) by (unfold len; rewrite Hn; lia).
  lia.
Qed.

Lemma hamming_7_4_encode_shape_witness :
  is_bitstring (py "101101") /\
  exists encoded pad,
    hamming_7_4_encode (py "101101") = Ok (encoded, pad)
    /\ 0 <= pad <= 3
    /\ (len (py "101101") + pad) mod 4 = 0
    /\ 4 * len encoded = 7 * (len (py "101101") + pad)
    /\ is_bitstring encoded.
Proof.
  assert (H : is_bitstring (py "101101")).
  { repeat constructor; (left; reflexivity) || (right; reflexivity). }
  split; [exact H|].
  exact (hamming_7_4_encode_shape (py "101101") H).
Defined.

(** Two flipped bits in one block are beyond the code: the decoder returns
    four data bits without any fault, and they are never the original
    ones. *)
Theorem hamming_double_flip_miscorrects (d : str) (j k : nat) :
  is_bitstring d -> length d = 4%nat -> (j < 7)%nat -> (k < 7)%nat -> j <> k ->
  exists codeword d',
    hamming_7_4_encode d = Ok (codeword, 0)
    /\ hamming_7_4_decode (flip_at (flip_at codeword j) k) 0 = Ok d'
    /\ length d' = 4%nat
    /\ d' <> d.
Proof.
  intros Hd Hlen Hj Hk Hjk.
  rewrite (is_bitstring_bits Hd).
  assert (Hl : length (map bit_of_char d) = 4%nat) by (rewrite length_map; exact Hlen).
  destruct (length4_inv _ Hl) as (d1 & d2 & d3 & d4 & ->).
  do 7 (destruct j as [|j]; [
    do 7 (destruct k as [|k]; [
      try (exfalso; apply Hjk; reflexivity);
      destruct d1, d2, d3, d4; eexists; eexists;
      (split; [vm_compute; reflexivity|]);
      (split; [vm_compute; reflexivity|]);
      (split; [reflexivity | discriminate])|]); lia|]).
  lia.
Qed.

Lemma hamming_double_flip_miscorrects_witness :
  is_bitstring (py "1011") /\ length (py "1011") = 4%nat
  /\ (1 < 7)%nat /\ (4 < 7)%nat /\ 1%nat <> 4%nat
  /\ exists codeword d',
      hamming_7_4_encode (py "1011") = Ok (codeword, 0)
      /\ hamming_7_4_decode (flip_at (flip_at codeword 1) 4) 0 = Ok d'
      /\ length d' = 4%nat
      /\ d' <> py "1011".
Proof.
  assert (H : is_bitstring (py "1011")).
  { repeat constructor; (left; reflexivity) || (right; reflexivity). }
  assert (H1 : (1 < 7)%nat) by (repeat constructor).
  assert (H4 : (4 < 7)%nat) by (repeat constructor).
  assert (Hne : 1%nat <> 4%nat) by discriminate.
  split; [exact H|]. split; [reflexivity|]. split; [exact H1|].
  split; [exact H4|]. split; [exact Hne|].
  exact (hamming_double_flip_miscorrects (py "1011") 1 4 H eq_refl H1 H4 Hne).
Defined.

(** Without correction a single flipped bit reaches the data exactly when it
    sits on a data position of the block (the third, fifth, sixth or
    seventh): that data bit comes out flipped; a flipped parity bit is not
    seen at all. *)
Theorem no_correction_single_flip (d : str) (k : nat) :
  is_bitstring d -> length d = 4%nat -> (k < 7)%nat ->
  exists codeword,
    hamming_7_4_encode d = Ok (codeword, 0)
    /\ hamming_7_4_decode_no_correction (flip_at codeword k) 0
       = Ok (match k with
             | 2 => flip_at d 0
             | 4 => flip_at d 1
             | 5 => flip_at d 2
             | 6 => flip_at d 3
             | _ => d
             end)%nat.
Proof.
  intros Hd Hlen Hk.
  rewrite (is_bitstring_bits Hd).
  assert (Hl : length (map bit_of_char d) = 4%nat) by (rewrite length_map; exact Hlen).
  destruct (length4_inv _ Hl) as (d1 & d2 & d3 & d4 & ->).
  do 7 (destruct k as [|k]; [destruct d1, d2, d3, d4; eexists;
                             split; vm_compute; reflexivity|]).
  lia.
Qed.

Lemma no_correction_single_flip_witness :
  is_bitstring (py "0110") /\ length (py "0110") = 4%nat /\ (4 < 7)%nat
  /\ exists codeword,
      hamming_7_4_encode (py "0110") = Ok (codeword, 0)
      /\ hamming_7_4_decode_no_correction (flip_at codeword 4) 0
         = Ok (flip_at (py "0110") 1).
Proof.
  assert (H : is_bitstring (py "0110")).
  { repeat constructor; (left; reflexivity) || (right; reflexivity). }
  assert (H4 : (4 < 7)%nat) by (repeat constructor).
  split; [exact H|]. split; [reflexivity|]. split; [exact H4|].
  exact (no_correction_single_flip (py "0110") 4 H eq_refl H4).
Defined.

Lemma block_data_length (blk : list Z) :
  length blk = 7%nat -> length (block_data blk) = 4%nat.
Proof.
  intros H. destruct (length7_inv _ H) as (b1 & b2 & b3 & b4 & b5 & b6 & b7 & ->).
  reflexivity.
Qed.

Lemma blocks_data_length (fix_ : list Z -> list Z) (n : nat) :
  (forall blk, length (fix_ blk) = length blk) ->
  forall l, length l = (7 * n)%nat -> length (blocks_data fix_ l n) = (4 * n)%nat.
Proof.
  intros Hfix. induction n as [|n IH]; intros l Hlen; [reflexivity|].
  cbn [blocks_data]. rewrite length_app.
  rewrite block_data_length by (rewrite Hfix, length_firstn; lia).
  rewrite IH by (rewrite length_skipn; lia). lia.
Qed.

Lemma int_list_to_bitstr_is_bitstring (l : list Z) :
  is_bitstring (int_list_to_bitstr l).
Proof.
  induction l as [|z l IH]; [constructor|].
  simpl. constructor; [|exact IH].
  destruct (z =? 0); [left | right]; reflexivity.
Qed.

Lemma strip_length (data : list Z) (pad : Z) :
  len (int_list_to_bitstr (if 0 <? pad then drop_last data pad else data))
  = if 0 <? pad then Z.max 0 (len data - pad) else len data.
Proof.
  unfold len, int_list_to_bitstr. rewrite length_map.
  destruct (0 <? pad) eqn:E; [|reflexivity].
  apply Z.ltb_lt in E. unfold drop_last. rewrite length_firstn. lia.
Qed.

(** On an input of [n] blocks (any characters) both decoders return a bit
    string of [4 n] bits less the pad count, and of no bits at all when the
    pad count exceeds [4 n]; a pad count that is zero or negative strips
    nothing. *)
Theorem hamming_decoders_output_shape (encoded : str) (pad : Z) :
  len encoded mod 7 = 0 ->
  exists out out',
    hamming_7_4_decode encoded pad = Ok out
    /\ hamming_7_4_decode_no_correction encoded pad = Ok out'
    /\ is_bitstring out /\ is_bitstring out'
    /\ len out = (if 0 <? pad then Z.max 0 (4 * (len encoded / 7) - pad)
                  else 4 * (len encoded / 7))
    /\ len out' = len out.
Proof.
  intros Hmod.
  destruct encoded as [|c e0] eqn:E.
  { exists [], []. repeat split; try constructor.
    change (len (@nil ascii) / 7) with 0. change (len (@nil ascii)) with 0.
    destruct (0 <? pad) eqn:Ep; [apply Z.ltb_lt in Ep|]; lia. }
  rewrite <- E in *. assert (Hne : encoded <> []) by (subst; discriminate).
  clear c e0 E.
  pose proof (len_mod7_blocks encoded Hmod) as Hn.
  assert (Hl : length (bitstr_to_int_list encoded)
               = (7 * Z.to_nat (len encoded / 7))%nat)
    by (unfold bitstr_to_int_list; rewrite length_map; exact Hn).
  eexists. eexists.
  split; [apply hamming_7_4_decode_blocks; assumption|].
  split; [apply hamming_7_4_decode_no_correction_blocks; assumption|].
  split; [apply int_list_to_bitstr_is_bitstring|].
  split; [apply int_list_to_bitstr_is_bitstring|].
  cbv zeta. rewrite !strip_length.
  assert (H0 : 0 <= len encoded / 7) by (apply Z.div_pos; unfold len; lia).
  assert (H1 : len (blocks_data block_fix (bitstr_to_int_list encoded)
                      (Z.to_nat (len encoded / 7)))
               = 4 * (len encoded / 7)).
  { unfold len at 1.
    rewrite (blocks_data_length block_fix _ block_fix_length _ Hl). lia. }
  assert (H2 : len (blocks_data (fun b => b) (bitstr_to_int_list encoded)
                      (Z.to_nat (len encoded / 7)))
               = 4 * (len encoded / 7)).
  { unfold len at 1.
    rewrite (blocks_data_length (fun b => b) _ (fun _ => eq_refl) _ Hl). lia. }
  rewrite H1, H2. split; reflexivity.
Qed.

Lemma hamming_decoders_output_shape_witness :
  len (py "abcdefg1111111") mod 7 = 0
  /\ exists out out',
      hamming_7_4_decode (py "abcdefg1111111") 5 = Ok out
      /\ hamming_7_4_decode_no_correction (py "abcdefg1111111") 5 = Ok out'
      /\ is_bitstring out /\ is_bitstring out'
      /\ len out = (if 0 <? 5
                    then Z.max 0 (4 * (len (py "abcdefg1111111") / 7) - 5)
                    else 4 * (len (py "abcdefg1111111") / 7))
      /\ len out' = len out.
Proof.
  split; [reflexivity|].
  exact (hamming_decoders_output_shape (py "abcdefg1111111") 5 eq_refl).
Defined.

(** *** Input that is not made of digits *)

Lemma int_of_char_cases (c : ascii) :
  (is_digit c = true /\ exists z, int_of_char c = Ok z)
  \/ (is_digit c = false /\ int_of_char c = Raise ValueError).
Proof.
  unfold is_digit, int_of_char.
  destruct ((48 <=? Z.of_nat (nat_of_ascii c))
            && (Z.of_nat (nat_of_ascii c) <=? 57)); [left | right]; eauto.
Qed.

Lemma char_at (pre blk post : str) (j : nat) (x : ascii) :
  nth_error blk j = Some x ->
  (c <- getitemZ (pre ++ blk ++ post) (len pre + Z.of_nat j) ;; int_of_char c)
  = int_of_char x.
Proof.
  intros H. rewrite (getitemZ_mid pre blk post j (x := x) H). reflexivity.
Qed.

Lemma encode_loop_chars (n : nat) :
  forall (pre l : str) (acc : list Z),
    length l = (4 * n)%nat ->
    (forallb is_digit l = true ->
     exists out,
       foldM
         (fun encoded_bits i =>
            d1 <- (c <- getitemZ (pre ++ l) i ;; int_of_char c) ;;
            d2 <- (c <- getitemZ (pre ++ l) (i + 1) ;; int_of_char c) ;;
            d3 <- (c <- getitemZ (pre ++ l) (i + 2) ;; int_of_char c) ;;
            d4 <- (c <- getitemZ (pre ++ l) (i + 3) ;; int_of_char c) ;;
            let p1 := Z.lxor (Z.lxor d1 d2) d4 in
            let p2 := Z.lxor (Z.lxor d1 d3) d4 in
            let p4 := Z.lxor (Z.lxor d2 d3) d4 in
            let codeword := [p1; p2; d1; p4; d2; d3; d4] in
            Ok (encoded_bits ++ codeword))
         (range3 (len pre) (len pre + len l) 4) acc = Ok out)
    /\ (forallb is_digit l = false ->
        foldM
          (fun encoded_bits i =>
             d1 <- (c <- getitemZ (pre ++ l) i ;; int_of_char c) ;;
             d2 <- (c <- getitemZ (pre ++ l) (i + 1) ;; int_of_char c) ;;
             d3 <- (c <- getitemZ (pre ++ l) (i + 2) ;; int_of_char c) ;;
             d4 <- (c <- getitemZ (pre ++ l) (i + 3) ;; int_of_char c) ;;
             let p1 := Z.lxor (Z.lxor d1 d2) d4 in
             let p2 := Z.lxor (Z.lxor d1 d3) d4 in
             let p4 := Z.lxor (Z.lxor d2 d3) d4 in
             let codeword := [p1; p2; d1; p4; d2; d3; d4] in
             Ok (encoded_bits ++ codeword))
          (range3 (len pre) (len pre + len l) 4) acc = Raise ValueError).
Proof.
  induction n as [|n IH]; intros pre l acc Hlen.
  - destruct l; [|discriminate Hlen].
    rewrite range3_nil by (unfold len; simpl; lia).
    split; [intros _; eexists; reflexivity | intros H; simpl in H; discriminate H].
  - do 4 (destruct l as [|? l]; [simpl in Hlen; lia|]).
    rename a into d1, a0 into d2, a1 into d3, a2 into d4.
    assert (Hr : length l = (4 * n)%nat) by (simpl in Hlen; lia).
    change (d1 :: d2 :: d3 :: d4 :: l) with ([d1; d2; d3; d4] ++ l).
    rewrite range3_cons by (unfold len; simpl; lia).
    cbn [foldM].
    pose proof (char_at pre [d1; d2; d3; d4] l 0 d1 eq_refl) as D1.
    pose proof (char_at pre [d1; d2; d3; d4] l 1 d2 eq_refl) as D2.
    pose proof (char_at pre [d1; d2; d3; d4] l 2 d3 eq_refl) as D3.
    pose proof (char_at pre [d1; d2; d3; d4] l 3 d4 eq_refl) as D4.
    change (Z.of_nat 0) with 0 in D1. rewrite Z.add_0_r in D1.
    change (Z.of_nat 1) with 1 in D2.
    change (Z.of_nat 2) with 2 in D3.
    change (Z.of_nat 3) with 3 in D4.
    rewrite D1, D2, D3, D4.
    rewrite forallb_app. cbn [forallb]. rewrite andb_true_r.
    destruct (int_of_char_cases d1) as [[-> [z1 ->]] | [-> ->]];
      [|split; [discriminate | reflexivity]].
    destruct (int_of_char_cases d2) as [[-> [z2 ->]] | [-> ->]];
      [|split; [discriminate | reflexivity]].
    destruct (int_of_char_cases d3) as [[-> [z3 ->]] | [-> ->]];
      [|split; [discriminate | reflexivity]].
    destruct (int_of_char_cases d4) as [[-> [z4 ->]] | [-> ->]];
      [|split; [discriminate | reflexivity]].
    cbn [bind andb].
    specialize (IH (pre ++ [d1; d2; d3; d4]) l
                   (acc ++ [Z.lxor (Z.lxor z1 z2) z4; Z.lxor (Z.lxor z1 z3) z4;
                            z1; Z.lxor (Z.lxor z2 z3) z4; z2; z3; z4]) Hr).
    rewrite <- app_assoc in IH.
    replace (len pre + 4) with (len (pre ++ [d1; d2; d3; d4]))
      by (rewrite len_app; reflexivity).
    replace (len pre + len ([d1; d2; d3; d4] ++ l))
      with (len (pre ++ [d1; d2; d3; d4]) + len l)
      by (rewrite !len_app; lia).
    exact IH.
Qed.

(** The encoder accepts exactly the strings of decimal digits: any other
    character makes it raise [ValueError] (from [int]), and it raises nothing
    else. *)
Theorem hamming_7_4_encode_fails_iff (bitstring : str) :
  is_ok (hamming_7_4_encode bitstring) = forallb is_digit bitstring
  /\ (forallb is_digit bitstring = false ->
      hamming_7_4_encode bitstring = Raise ValueError).
Proof.
  destruct bitstring as [|c0 b0] eqn:E; [split; [reflexivity | discriminate]|].
  rewrite <- E. assert (Hne : bitstring <> []) by (subst; discriminate).
  clear c0 b0 E.
  unfold hamming_7_4_encode.
  destruct bitstring as [|c0 b0] eqn:E; [contradiction|]. rewrite <- E in *.
  clear c0 b0 E.
  fold (spec_pad_bits (len bitstring)).
  set (pad := spec_pad_bits (len bitstring)).
  pose proof (spec_pad_bits_range (len bitstring)) as Hpad.
  pose proof (spec_pad_bits_aligned (len bitstring)) as Hal.
  fold pad in Hpad, Hal.
  set (padded := bitstring ++ repeat "0"%char (Z.to_nat pad)).
  assert (Hplen : len padded = len bitstring + pad).
  { unfold padded. rewrite len_app. unfold len at 2. rewrite repeat_length. lia. }
  assert (Hn : length padded = (4 * Z.to_nat (len padded / 4))%nat).
  { assert (len padded = 4 * (len padded / 4)).
    { rewrite Hplen. apply Z.div_exact; [lia | exact Hal]. }
    unfold len in *. lia. }
  assert (Hdig : forallb is_digit padded = forallb is_digit bitstring).
  { unfold padded. rewrite forallb_app.
    replace (forallb is_digit (repeat "0"%char (Z.to_nat pad))) with true;
      [apply andb_true_r|].
    symmetry. apply forallb_forall. intros x Hx.
    apply repeat_spec in Hx. subst x. reflexivity. }
  destruct (encode_loop_chars (Z.to_nat (len padded / 4)) [] padded [] Hn)
    as [Hok Hfail].
  cbn [app] in Hok, Hfail.
  change (len (@nil ascii)) with 0 in Hok, Hfail.
  rewrite Z.add_0_l in Hok, Hfail.
  rewrite <- Hdig.
  destruct (forallb is_digit padded).
  - destruct (Hok eq_refl) as [out Hout].
    match goal with
    | |- context [bind ?c _] => replace c with (Ok out) by (symmetry; exact Hout)
    end.
    split; [reflexivity | discriminate].
  - specialize (Hfail eq_refl).
    match goal with
    | |- context [bind ?c _] =>
        replace c with (@Raise (list Z) ValueError) by (symmetry; exact Hfail)
    end.
    split; [reflexivity | reflexivity].
Qed.

(** ** The corruption simulator, position by position *)

Lemma nth_error_update_eq (A : Type) (l : list A) i x :
  (i < length l)%nat -> nth_error (update l i x) i = Some x.
Proof.
  revert i; induction l as [|h t IH]; intros [|i] Hi; simpl in *; try lia; auto.
  apply IH; lia.
Qed.

Lemma nth_error_update_ne (A : Type) (l : list A) i j x :
  i <> j -> nth_error (update l i x) j = nth_error l j.
Proof.
  revert i j; induction l as [|h t IH]; intros [|i] [|j] Hij; simpl; auto;
    try congruence.
Qed.

Lemma flip_loop_nth (idxs : list Z) :
  forall cur : str,
    NoDup idxs ->
    Forall (fun i => 0 <= i < len cur) idxs ->
    exists out,
      foldM
        (fun bits i =>
           b <- getitemZ bits i ;;
           setitemZ bits i (if ascii_eqb b "1" then "0"%char else "1"%char))
        idxs cur = Ok out
      /\ length out = length cur
      /\ forall (j : nat) (c : ascii),
          nth_error cur j = Some c ->
          nth_error out j
          = Some (if existsb (Z.eqb (Z.of_nat j)) idxs then flip_char c else c).
Proof.
  induction idxs as [|i idxs IH]; intros cur Hnd Hidx.
  - exists cur. split; [reflexivity|]. split; [reflexivity|]. auto.
  - inversion Hnd as [|? ? Hnotin Hnd']; subst.
    inversion Hidx as [|? ? Hi Hrest]; subst.
    cbn [foldM].
    assert (Hj : (Z.to_nat i < length cur)%nat) by (unfold len in Hi; lia).
    destruct (nth_error cur (Z.to_nat i)) as [b|] eqn:Eb;
      [|apply nth_error_None in Eb; lia].
    assert (Ei : Z.of_nat (Z.to_nat i) = i) by lia.
    pose proof (@getitemZ_ok _ cur (Z.to_nat i) b Eb) as Hget.
    pose proof (@setitemZ_ok _ cur (Z.to_nat i)
                  (if ascii_eqb b "1" then "0"%char else "1"%char) Hj) as Hset.
    rewrite Ei in Hget, Hset.
    rewrite Hget. cbn [bind]. rewrite Hset. cbn [bind].
    fold (flip_char b).
    destruct (IH (update cur (Z.to_nat i) (flip_char b)) Hnd') as (out & -> & Hlen & Hnth).
    { unfold len in *. rewrite update_length. exact Hrest. }
    exists out. split; [reflexivity|].
    rewrite update_length in Hlen. split; [exact Hlen|].
    intros j c Hc. cbn [existsb].
    destruct (Z.of_nat j =? i) eqn:Eji.
    + apply Z.eqb_eq in Eji. assert (j = Z.to_nat i) by lia. subst j.
      rewrite Eb in Hc. injection Hc as ->.
      rewrite (Hnth _ (flip_char c)) by (apply nth_error_update_eq; exact Hj).
      replace (existsb (Z.eqb (Z.of_nat (Z.to_nat i))) idxs) with false;
        [reflexivity|].
      symmetry. destruct (existsb _ idxs) eqn:Ex; [|reflexivity].
      apply existsb_exists in Ex as (x & Hx & Exi).
      apply Z.eqb_eq in Exi. exfalso. apply Hnotin. rewrite <- Ei, Exi. exact Hx.
    + apply Z.eqb_neq in Eji. cbn [orb].
      apply Hnth. rewrite nth_error_update_ne by lia. exact Hc.
Qed.

Lemma range3_mem (start stop step i : Z) :
  0 < step ->
  existsb (Z.eqb i) (range3 start stop step)
  = on_stride start step i && (i <? stop).
Proof.
  intros Hs.
  destruct (on_stride start step i && (i <? stop)) eqn:E.
  - apply andb_true_iff in E as [Eon Elt].
    unfold on_stride in Eon. apply andb_true_iff in Eon as [Ege Emod].
    apply Z.leb_le in Ege. apply Z.eqb_eq in Emod. apply Z.ltb_lt in Elt.
    apply existsb_exists. exists i. split; [|apply Z.eqb_refl].
    unfold range3. apply in_map_iff.
    exists (Z.to_nat ((i - start) / step)).
    assert (Hq : 0 <= (i - start) / step) by (apply Z.div_pos; lia).
    assert (Hdm : i - start = step * ((i - start) / step))
      by (apply Z.div_exact; lia).
    split; [lia|].
    apply in_seq. split; [lia|]. simpl.
    assert ((i - start) / step < (stop - start + step - 1) / step); [|lia].
    replace (stop - start + step - 1) with ((stop - start - 1) + 1 * step) by lia.
    rewrite Z.div_add by lia.
    assert ((i - start) / step <= (stop - start - 1) / step)
      by (apply Z.div_le_mono; lia).
    lia.
  - destruct (existsb (Z.eqb i) (range3 start stop step)) eqn:Ex; [|reflexivity].
    apply existsb_exists in Ex as (x & Hx & Exi). apply Z.eqb_eq in Exi. subst x.
    pose proof (range3_bounds _ _ _ _ Hs Hx) as Hb.
    unfold range3 in Hx. apply in_map_iff in Hx as (k & Hk & _).
    assert (Hmod : (i - start) mod step = 0).
    { replace (i - start) with (Z.of_nat k * step) by lia. apply Z.mod_mul. lia. }
    unfold on_stride in E.
    assert (H1 : (start <=? i) = true) by (apply Z.leb_le; lia).
    assert (H2 : ((i - start) mod step =? 0) = true)
      by (apply Z.eqb_eq; exact Hmod).
    assert (H3 : (i <? stop) = true) by (apply Z.ltb_lt; lia).
    rewrite H1, H2, H3 in E. discriminate E.
Qed.

Lemma range3_NoDup (start stop step : Z) :
  0 < step -> NoDup (range3 start stop step).
Proof.
  intros Hs. unfold range3.
  generalize (seq_NoDup (Z.to_nat ((stop - start + step - 1) / step)) 0).
  generalize (seq 0 (Z.to_nat ((stop - start + step - 1) / step))).
  induction 1 as [|k ks Hk Hnd IH]; cbn [map]; constructor; [|exact IH].
  rewrite in_map_iff. intros (y & E & Hy).
  assert (y = k) by nia. subst y. contradiction.
Qed.

(** The loop of [add_errors] from a start position that is not negative. *)
Lemma add_errors_stride (randint : Z -> Z -> Z -> Z)
      (bitstring : str) (interval seed : Z) :
  0 < interval ->
  0 <= start_index randint interval seed ->
  exists out,
    add_errors randint bitstring interval seed = Ok out
    /\ length out = length bitstring
    /\ forall (j : nat) (c : ascii),
        nth_error bitstring j = Some c ->
        nth_error out j
        = Some (if on_stride (start_index randint interval seed) interval
                             (Z.of_nat j)
                then flip_char c else c).
Proof.
  intros Hpos Hstart. unfold add_errors.
  destruct bitstring as [|c0 rest] eqn:E.
  { exists []. split; [reflexivity|]. split; [reflexivity|].
    intros [|j] c H; discriminate H. }
  rewrite <- E in *. clear c0 rest E.
  destruct (interval <=? 0) eqn:Ei; [apply Z.leb_le in Ei; lia|].
  fold (start_index randint interval seed).
  set (start := start_index randint interval seed) in *.
  destruct (flip_loop_nth (range3 start (len bitstring) interval) bitstring)
    as (out & Hout & Hlen & Hnth).
  { apply range3_NoDup. exact Hpos. }
  { apply Forall_forall. intros i Hin.
    apply range3_bounds in Hin; [lia | exact Hpos]. }
  exists out. split; [exact Hout|]. split; [exact Hlen|].
  intros j c Hc. rewrite (Hnth j c Hc), range3_mem by exact Hpos.
  assert (Hj : (Z.of_nat j <? len bitstring) = true).
  { apply Z.ltb_lt. unfold len.
    assert (j < length bitstring)%nat by (apply nth_error_Some; congruence). lia. }
  rewrite Hj, andb_true_r. reflexivity.
Qed.

Lemma add_errors_all_flipped (randint : Z -> Z -> Z -> Z)
      (bitstring : str) (seed : Z) :
  add_errors randint bitstring 1 seed = Ok (map flip_char bitstring).
Proof.
  destruct (add_errors_stride randint bitstring 1 seed)
    as (out & Hout & Hlen & Hnth); [lia | reflexivity|].
  rewrite Hout. f_equal.
  apply nth_error_ext. intros j.
  rewrite nth_error_map.
  destruct (nth_error bitstring j) as [c|] eqn:Ec.
  - rewrite (Hnth j c Ec). simpl.
    unfold on_stride, start_index. simpl.
    rewrite Z.mod_1_r.
    replace (0 <=? Z.of_nat j) with true by (symmetry; apply Z.leb_le; lia).
    reflexivity.
  - simpl. apply nth_error_None. rewrite Hlen.
    apply nth_error_None. exact Ec.
Qed.

(** With interval 1 the start is 0 whatever the generator and the seed:
    every character is complemented (anything but ["1"] becomes ["1"]), and
    the length is kept. *)
Theorem add_errors_interval_one (randint : Z -> Z -> Z -> Z)
        (bitstring : str) (seed : Z) :
  add_errors randint bitstring 1 seed = Ok (map flip_char bitstring)
  /\ length (map flip_char bitstring) = length bitstring.
Proof. split; [apply add_errors_all_flipped | apply length_map]. Qed.

Section CorruptionProofs.
Variable randint : Z -> Z -> Z -> Z.
Hypothesis randint_range :
  forall seed a b, a <= b -> a <= randint seed a b <= b.

Lemma start_index_range (interval seed : Z) :
  0 < interval -> 0 <= start_index randint interval seed < interval.
Proof.
  intros Hpos. unfold start_index.
  destruct (1 <? interval) eqn:E; [|lia].
  apply Z.ltb_lt in E.
  pose proof (randint_range seed 0 (Z.max 0 (interval - 1)) ltac:(lia)). lia.
Qed.

(** For a positive interval [add_errors] complements exactly the characters
    at the positions [start, start + interval, start + 2 interval, ...],
    where [start] is the draw, between 0 and [interval - 1]; every other
    character is left as it was. *)
Theorem add_errors_flips_stride (bitstring : str) (interval seed : Z) :
  0 < interval ->
  0 <= start_index randint interval seed < interval
  /\ exists out,
      add_errors randint bitstring interval seed = Ok out
      /\ length out = length bitstring
      /\ forall (j : nat) (c : ascii),
          nth_error bitstring j = Some c ->
          nth_error out j
          = Some (if on_stride (start_index randint interval seed) interval
                               (Z.of_nat j)
                  then flip_char c else c).
Proof.
  intros Hpos.
  pose proof (start_index_range interval seed Hpos) as Hs.
  split; [exact Hs|].
  apply add_errors_stride; [exact Hpos | lia].
Qed.

(** On a bit string, corrupting the corrupted string again with the same
    interval and seed restores the original. *)
Theorem add_errors_twice (bitstring : str) (interval seed : Z) :
  is_bitstring bitstring ->
  exists out,
    add_errors randint bitstring interval seed = Ok out
    /\ add_errors randint out interval seed = Ok bitstring.
Proof.
  intros Hbits.
  destruct (Z.le_gt_cases interval 0) as [Hle | Hpos].
  - exists bitstring. unfold add_errors.
    assert (E : (interval <=? 0) = true) by (apply Z.leb_le; exact Hle).
    rewrite E. destruct bitstring; auto.
  - pose proof (start_index_range interval seed ltac:(lia)) as Hs.
    destruct (add_errors_stride randint bitstring interval seed)
      as (out & Hout & Hlen & Hnth); [lia | lia|].
    destruct (add_errors_stride randint out interval seed)
      as (back & Hback & Hlen' & Hnth'); [lia | lia|].
    exists out. split; [exact Hout|]. rewrite Hback. f_equal.
    apply nth_error_ext. intros j.
    destruct (nth_error bitstring j) as [c|] eqn:Ec.
    + rewrite (Hnth' j _ (Hnth j c Ec)).
      destruct (on_stride _ _ _); [|reflexivity].
      f_equal. apply flip_char_involutive.
      apply (proj1 (Forall_forall _ _) Hbits). eapply nth_error_In. exact Ec.
    + apply nth_error_None. rewrite Hlen', Hlen.
      apply nth_error_None. exact Ec.
Qed.

End CorruptionProofs.

Lemma add_errors_flips_stride_witness :
  (forall seed a b, a <= b -> a <= lowest_draw seed a b <= b)
  /\ 0 < 3
  /\ 0 <= start_index lowest_draw 3 2024 < 3
  /\ exists out,
      add_errors lowest_draw (py "0000000") 3 2024 = Ok out
      /\ length out = length (py "0000000")
      /\ forall (j : nat) (c : ascii),
          nth_error (py "0000000") j = Some c ->
          nth_error out j
          = Some (if on_stride (start_index lowest_draw 3 2024) 3 (Z.of_nat j)
                  then flip_char c else c).
Proof.
  split; [exact lowest_draw_range|]. split; [reflexivity|].
  exact (add_errors_flips_stride lowest_draw lowest_draw_range
           (py "0000000") 3 2024 eq_refl).
Defined.

Lemma add_errors_twice_witness :
  (forall seed a b, a <= b -> a <= lowest_draw seed a b <= b)
  /\ is_bitstring (py "0010110")
  /\ exists out,
      add_errors lowest_draw (py "0010110") 3 2024 = Ok out
      /\ add_errors lowest_draw out 3 2024 = Ok (py "0010110").
Proof.
  assert (H : is_bitstring (py "0010110")).
  { repeat constructor; (left; reflexivity) || (right; reflexivity). }
  split; [exact lowest_draw_range|]. split; [exact H|].
  exact (add_errors_twice lowest_draw lowest_draw_range (py "0010110") 3 2024 H).
Defined.

(** ** Errors at most one per block are all corrected *)

Lemma block_single_error (d1 d2 d3 d4 m0 m1 m2 m3 m4 m5 m6 : bool) :
  at_most_one [m0; m1; m2; m3; m4; m5; m6] = true ->
  block_data
    (block_fix
       (bitstr_to_int_list
          (flip_where (bitstring_of (spec_block d1 d2 d3 d4))
                      [m0; m1; m2; m3; m4; m5; m6])))
  = map Zb [d1; d2; d3; d4].
Proof.
  intros H.
  destruct m0, m1, m2, m3, m4, m5, m6;
    try (vm_compute in H; discriminate H);
    destruct d1, d2, d3, d4; vm_compute; reflexivity.
Qed.

Lemma spaced_block (P : Z -> bool) (off : Z) :
  spaced P ->
  at_most_one [P (off + 0); P (off + 1); P (off + 2); P (off + 3);
               P (off + 4); P (off + 5); P (off + 6)] = true.
Proof.
  intros Hsp.
  destruct (P (off + 0)) eqn:E0, (P (off + 1)) eqn:E1, (P (off + 2)) eqn:E2,
           (P (off + 3)) eqn:E3, (P (off + 4)) eqn:E4, (P (off + 5)) eqn:E5,
           (P (off + 6)) eqn:E6;
    try reflexivity; exfalso;
    match goal with
    | Ha : P ?a = true, Hb : P ?b = true |- _ =>
        pose proof (Hsp a b Ha Hb); lia
    end.
Qed.

Lemma on_stride_spaced (start interval : Z) :
  7 <= interval -> spaced (on_stride start interval).
Proof.
  intros Hk i1 i2 H1 H2 Hlt. unfold on_stride in *.
  apply andb_true_iff in H1 as [_ H1]. apply andb_true_iff in H2 as [_ H2].
  apply Z.eqb_eq in H1, H2.
  apply Z.div_exact in H1; [|lia]. apply Z.div_exact in H2; [|lia].
  set (q1 := (i1 - start) / interval) in *.
  set (q2 := (i2 - start) / interval) in *.
  assert (q1 < q2) by nia.
  assert (interval * (q1 + 1) <= interval * q2) by (apply Z.mul_le_mono_nonneg_l; lia).
  lia.
Qed.

Lemma blocks_data_spaced (P : Z -> bool) (n : nat) :
  spaced P ->
  forall (l : list bool) (cor : str) (off : Z),
    length l = (4 * n)%nat -> length cor = (7 * n)%nat ->
    (forall (j : nat) (c : ascii),
        nth_error (bitstring_of (spec_blocks l)) j = Some c ->
        nth_error cor j
        = Some (if P (off + Z.of_nat j) then flip_char c else c)) ->
    blocks_data block_fix (bitstr_to_int_list cor) n = map Zb l.
Proof.
  intros Hsp. induction n as [|n IH]; intros l cor off Hl Hc H.
  - destruct l; [reflexivity | discriminate Hl].
  - do 4 (destruct l as [|? l]; [simpl in Hl; lia|]).
    rename b into d1, b0 into d2, b1 into d3, b2 into d4.
    do 7 (destruct cor as [|? cor]; [simpl in Hc; lia|]).
    pose proof (H 0%nat _ eq_refl) as H0. injection H0 as ->.
    pose proof (H 1%nat _ eq_refl) as H1. injection H1 as ->.
    pose proof (H 2%nat _ eq_refl) as H2. injection H2 as ->.
    pose proof (H 3%nat _ eq_refl) as H3. injection H3 as ->.
    pose proof (H 4%nat _ eq_refl) as H4. injection H4 as ->.
    pose proof (H 5%nat _ eq_refl) as H5. injection H5 as ->.
    pose proof (H 6%nat _ eq_refl) as H6. injection H6 as ->.
    cbn [blocks_data].
    match goal with
    | |- block_data (block_fix (firstn 7 ?x)) ++ _ = _ =>
        replace (firstn 7 x)
          with (bitstr_to_int_list
                  (flip_where (bitstring_of (spec_block d1 d2 d3 d4))
                              [P (off + 0); P (off + 1); P (off + 2);
                               P (off + 3); P (off + 4); P (off + 5);
                               P (off + 6)]))
          by reflexivity
    end.
    rewrite block_single_error by (apply spaced_block; exact Hsp).
    cbn [bitstr_to_int_list map skipn].
    fold (bitstr_to_int_list cor).
    rewrite (IH l cor (off + 7)).
    + reflexivity.
    + simpl in Hl. lia.
    + simpl in Hc. lia.
    + intros j c Hj.
      specialize (H (7 + j)%nat c Hj). cbn [nth_error Nat.add] in H.
      rewrite H. f_equal.
      replace (off + Z.of_nat (S (S (S (S (S (S (S j))))))))
        with (off + 7 + Z.of_nat j) by lia.
      reflexivity.
Qed.

(** Decoding a stream whose flipped positions are at least seven apart gives
    the data back. *)
Lemma decode_spaced_flips (bs : list bool) (cor : str) (P : Z -> bool) :
  spaced P ->
  length cor = length (bitstring_of (fst (spec_hamming_encode bs))) ->
  (forall (j : nat) (c : ascii),
      nth_error (bitstring_of (fst (spec_hamming_encode bs))) j = Some c ->
      nth_error cor j = Some (if P (Z.of_nat j) then flip_char c else c)) ->
  hamming_7_4_decode cor (snd (spec_hamming_encode bs)) = Ok (bitstring_of bs).
Proof.
  intros Hsp Hlen Hnth.
  destruct bs as [|b0 bs0] eqn:Ebs.
  { simpl in Hlen. destruct cor; [reflexivity | discriminate Hlen]. }
  rewrite <- Ebs in *.
  assert (Hne : bs <> []) by (rewrite Ebs; discriminate).
  destruct (padded_layout bs Hne) as (n & Hn0 & Hn & Hslen & Hplen & Hpad).
  unfold spec_hamming_encode in *. cbn [fst snd] in *.
  set (pad := spec_pad_bits (len bs)) in *.
  set (padded := bs ++ repeat false (Z.to_nat pad)) in *.
  assert (Hclen : length cor = (7 * n)%nat).
  { rewrite Hlen. unfold bitstring_of. rewrite length_map. exact Hslen. }
  assert (Helen : len cor = 7 * Z.of_nat n) by (unfold len; lia).
  rewrite hamming_7_4_decode_blocks.
  - rewrite Helen.
    replace (7 * Z.of_nat n / 7) with (Z.of_nat n)
      by (rewrite Z.mul_comm, Z.div_mul; lia).
    rewrite Nat2Z.id.
    rewrite (blocks_data_spaced P n Hsp padded cor 0 Hn Hclen).
    + f_equal. unfold padded. apply strip_pad_bits. lia.
    + intros j c Hj. rewrite (Hnth j c Hj). reflexivity.
  - intros E. rewrite E in Hclen. simpl in Hclen. lia.
  - rewrite Helen, Z.mul_comm. apply Z.mod_mul. lia.
Qed.

(** ** The pipeline as a whole *)

Lemma single_code_zeros (sym : ascii) (text : str) :
  forallb (fun b => ascii_eqb b "0") (flat_map (code_of [(sym, py "0")]) text)
  = true.
Proof.
  induction text as [|ch text IH]; [reflexivity|].
  cbn [flat_map]. rewrite forallb_app, IH, andb_true_r.
  unfold code_of. simpl. destruct (ascii_eqb ch sym); reflexivity.
Qed.

Lemma decode_safe_on_encoded (root : HuffmanNode) (text : str) :
  huffman_shape root ->
  snd (huffman_decode_safe (flat_map (code_of (paths root [])) text) (Some root))
  = true.
Proof.
  intros [p sym q | p l r Hl Hr]; unfold huffman_decode_safe.
  - rewrite single_tree_decode_safe_loop. cbn [snd].
    apply (single_code_zeros sym text).
  - apply decode_safe_loop_full; exists p, l, r; auto.
Qed.

Lemma two_distinct_length (A : Type) (l : list A) (a b : A) :
  In a l -> In b l -> a <> b -> (2 <= length l)%nat.
Proof.
  intros Ha Hb Hab.
  destruct l as [|x [|y l]]; simpl in *; try lia; try tauto.
  destruct Ha as [-> | []], Hb as [-> | []]. contradiction.
Qed.

Section PipelineFacts.
Variable randint : Z -> Z -> Z -> Z.
Hypothesis randint_range :
  forall seed a b, a <= b -> a <= randint seed a b <= b.

(** The stages of the pipeline with what is known of each value. *)
Lemma pipeline_stages_full (text : str) (error_interval : Z) :
  exists root enc bs cor cdata rec,
    enc = bitstring_of bs
    /\ (length text <= length enc)%nat
    /\ huffman_decode enc root = text
    /\ snd (huffman_decode_safe enc root) = true
    /\ (forall a b, In a text -> In b text -> a <> b ->
        forall bits, snd (huffman_decode_safe bits root) = true)
    /\ add_errors randint (bitstring_of (fst (spec_hamming_encode bs)))
                  error_interval 2024 = Ok cor
    /\ hamming_7_4_decode_no_correction cor (snd (spec_hamming_encode bs))
       = Ok cdata
    /\ hamming_7_4_decode cor (snd (spec_hamming_encode bs)) = Ok rec
    /\ run_full_pipeline randint text error_interval
       = Ok {| text_length := len text;
               probabilities := compute_symbol_probabilities text;
               codes := build_huffman_codes root;
               encoded_bits := enc;
               decoded_text := text;
               hamming_bits := bitstring_of (fst (spec_hamming_encode bs));
               pad_bits := snd (spec_hamming_encode bs);
               corrupted_bits := cor;
               corrupted_data_bits := cdata;
               corrupted_decoded_text := fst (huffman_decode_safe cdata root);
               corrupted_decode_ok := snd (huffman_decode_safe cdata root);
               recovered_bits := rec;
               recovered_decoded_text := huffman_decode rec root;
               recovered_text_ok := str_eqb (huffman_decode rec root) text;
               huffman_ok := true;
               hamming_ok := str_eqb rec enc |}.
Proof.
  assert (Hhuff : exists root enc,
             build_huffman_tree (compute_symbol_probabilities text) = Ok root
             /\ (match text with
                 | [] => Ok []
                 | _ => huffman_encode text (build_huffman_codes root)
                 end) = Ok enc
             /\ is_bitstring enc
             /\ (length text <= length enc)%nat
             /\ huffman_decode enc root = text
             /\ snd (huffman_decode_safe enc root) = true
             /\ (forall a b, In a text -> In b text -> a <> b ->
                 forall bits, snd (huffman_decode_safe bits root) = true)).
  { destruct text as [|c t0].
    - exists None, []. repeat split; try constructor.
    - set (T := c :: t0).
      destruct (probabilities_keys T) as [Hnd Hkeys].
      destruct (huffman_text_ok T) as (root & Hroot & Hshape & Henc & Hbits & Hdec);
        [discriminate|].
      assert (Hpne : compute_symbol_probabilities T <> [])
        by (intros E; rewrite E in Hroot; discriminate Hroot).
      destruct (huffman_table_ok _ Hpne Hnd)
        as (root' & Hroot' & _ & Hcodes & _ & Hperm).
      rewrite Hroot in Hroot'. injection Hroot' as <-.
      exists (Some root),
        (flat_map (code_of (build_huffman_codes (Some root))) T).
      split; [exact Hroot|]. split; [exact Henc|]. split; [exact Hbits|].
      split.
      { destruct (huffman_text_length T) as (root2 & Hroot2 & Hlen2);
          [discriminate|].
        rewrite Hroot in Hroot2. injection Hroot2 as <-. exact Hlen2. }
      split; [exact Hdec|].
      split; [rewrite Hcodes; apply decode_safe_on_encoded; exact Hshape|].
      intros a b Ha Hb Hab bits. unfold huffman_decode_safe.
      assert (Hfull : full_inner root).
      { apply shape_two_leaves; [exact Hshape|].
        rewrite <- (shape_paths_keys root Hshape), (Permutation_length Hperm).
        apply (two_distinct_length _ _ a b); [apply Hkeys | apply Hkeys |];
          assumption. }
      apply decode_safe_loop_full; assumption. }
  destruct Hhuff
    as (root & enc & Hroot & Henc & Hbits & Hlenc & Hdec & Hsafe & Hfull).
  set (bs := map bit_of_char enc).
  assert (Eenc : enc = bitstring_of bs) by (apply is_bitstring_bits; exact Hbits).
  pose proof (hamming_7_4_encode_spec bs) as Hham. rewrite <- Eenc in Hham.
  set (ham := bitstring_of (fst (spec_hamming_encode bs))) in *.
  set (pad := snd (spec_hamming_encode bs)) in *.
  assert (Hhb : is_bitstring ham) by apply bitstring_of_is_bitstring.
  destruct (add_errors_ok randint randint_range ham error_interval 2024 Hhb)
    as (cor & Hcor & HF).
  assert (Hcl : len cor mod 7 = 0).
  { pose proof (spec_encode_shape enc) as [_ Hl].
    rewrite Eenc, spec_encode_bits in Hl. cbn [fst] in Hl.
    unfold len in *. rewrite <- (Forall2_length HF). exact Hl. }
  destruct (hamming_7_4_decode_no_correction_total cor pad Hcl) as [cdata Hcdata].
  destruct (hamming_7_4_decode_total cor pad Hcl) as [rec Hrec].
  exists root, enc, bs, cor, cdata, rec.
  repeat (split; [assumption|]).
  unfold run_full_pipeline.
  rewrite Hroot. cbn [bind]. rewrite Henc. cbn [bind].
  rewrite Hham. cbn [bind]. rewrite Hcor. cbn [bind].
  rewrite Hcdata. cbn [bind].
  destruct (huffman_decode_safe cdata root) as [ctext cok].
  rewrite Hrec. cbn [bind fst snd].
  rewrite Hdec.
  replace (str_eqb text text) with true
    by (symmetry; apply str_eqb_eq; reflexivity).
  reflexivity.
Qed.

(** The clean path never fails: for every text and interval the pipeline
    returns, [decoded_text] is the text and [huffman_ok] is [True]. *)
Theorem pipeline_huffman_ok (text : str) (error_interval : Z) :
  exists r,
    run_full_pipeline randint text error_interval = Ok r
    /\ text_length r = len text
    /\ decoded_text r = text
    /\ huffman_ok r = true.
Proof.
  destruct (pipeline_stages_full text error_interval)
    as (root & enc & bs & cor & cdata & rec & _ & _ & _ & _ & _ & _ & _ & _ & Hrun).
  eexists. split; [exact Hrun|]. cbn. auto.
Qed.

(** When the corrected bits equal the encoded bits the recovered text is
    the original text: [hamming_ok] implies [recovered_text_ok]. *)
Theorem hamming_ok_implies_text_ok (text : str) (error_interval : Z) :
  exists r,
    run_full_pipeline randint text error_interval = Ok r
    /\ (hamming_ok r = true ->
        recovered_decoded_text r = text /\ recovered_text_ok r = true).
Proof.
  destruct (pipeline_stages_full text error_interval)
    as (root & enc & bs & cor & cdata & rec & _ & _ & Hdec & _ & _ & _ & _ & _ & Hrun).
  eexists. split; [exact Hrun|]. cbn.
  intros H. apply str_eqb_eq in H. subst rec. rewrite Hdec.
  split; [reflexivity | apply str_eqb_eq; reflexivity].
Qed.

(** With an interval of 7 or more no block holds two flipped bits, so the
    correction restores the encoded bits and the text: [hamming_ok] and
    [recovered_text_ok] are [True]. *)
Theorem pipeline_recovers_sparse_errors (text : str) (error_interval : Z) :
  7 <= error_interval ->
  exists r,
    run_full_pipeline randint text error_interval = Ok r
    /\ recovered_bits r = encoded_bits r
    /\ hamming_ok r = true
    /\ recovered_decoded_text r = text
    /\ recovered_text_ok r = true.
Proof.
  intros Hk.
  destruct (pipeline_stages_full text error_interval)
    as (root & enc & bs & cor & cdata & rec & Eenc & _ & Hdec & _ & _ & Hcor & _
        & Hrec & Hrun).
  pose proof (start_index_range randint randint_range error_interval 2024
                ltac:(lia)) as Hs.
  destruct (add_errors_stride randint
              (bitstring_of (fst (spec_hamming_encode bs))) error_interval 2024)
    as (out & Hout & Hlen & Hnth); [lia | lia|].
  rewrite Hcor in Hout. injection Hout as <-.
  assert (E : rec = enc).
  { rewrite (decode_spaced_flips bs cor
               (on_stride (start_index randint error_interval 2024) error_interval)
               (on_stride_spaced _ _ Hk) Hlen Hnth) in Hrec.
    injection Hrec as <-. symmetry. exact Eenc. }
  eexists. split; [exact Hrun|]. cbn. subst rec. rewrite Hdec.
  repeat split; apply str_eqb_eq; reflexivity.
Qed.

(** An interval that is zero or negative switches the corruption off: the
    corrupted stream is the Hamming stream, both decoders return the encoded
    bits, and all four flags are [True]. *)
Theorem pipeline_without_corruption (text : str) (error_interval : Z) :
  error_interval <= 0 ->
  exists r,
    run_full_pipeline randint text error_interval = Ok r
    /\ corrupted_bits r = hamming_bits r
    /\ corrupted_data_bits r = encoded_bits r
    /\ recovered_bits r = encoded_bits r
    /\ huffman_ok r = true /\ hamming_ok r = true
    /\ corrupted_decode_ok r = true /\ recovered_text_ok r = true.
Proof.
  intros Hk.
  destruct (pipeline_stages_full text error_interval)
    as (root & enc & bs & cor & cdata & rec & Eenc & _ & Hdec & Hsafe & _ & Hcor
        & Hcdata & Hrec & Hrun).
  assert (Ecor : cor = bitstring_of (fst (spec_hamming_encode bs))).
  { unfold add_errors in Hcor.
    assert (E : (error_interval <=? 0) = true) by (apply Z.leb_le; exact Hk).
    rewrite E in Hcor.
    destruct (bitstring_of (fst (spec_hamming_encode bs)));
      injection Hcor as <-; reflexivity. }
  subst cor.
  rewrite no_correction_round_trip_bits in Hcdata. injection Hcdata as <-.
  rewrite hamming_round_trip_bits in Hrec. injection Hrec as <-.
  rewrite <- Eenc in *.
  eexists. split; [exact Hrun|]. cbn. rewrite Hdec.
  repeat split; try (apply str_eqb_eq; reflexivity). exact Hsafe.
Qed.

(** For a text with two different characters the flag of the uncorrected
    path is [True] whatever the corruption did: the tree has no missing child
    for the safe decoder to run into. *)
Theorem corrupted_decode_ok_two_symbols (text : str) (error_interval : Z)
        (a b : ascii) :
  In a text -> In b text -> a <> b ->
  exists r,
    run_full_pipeline randint text error_interval = Ok r
    /\ corrupted_decode_ok r = true.
Proof.
  intros Ha Hb Hab.
  destruct (pipeline_stages_full text error_interval)
    as (root & enc & bs & cor & cdata & rec & _ & _ & _ & _ & Hfull & _ & _ & _ & Hrun).
  eexists. split; [exact Hrun|]. cbn.
  apply (Hfull a b Ha Hb Hab).
Qed.

End PipelineFacts.

Lemma pipeline_huffman_ok_witness :
  (forall seed a b, a <= b -> a <= lowest_draw seed a b <= b)
  /\ exists r,
      run_full_pipeline lowest_draw (py "hello world") 2 = Ok r
      /\ text_length r = len (py "hello world")
      /\ decoded_text r = py "hello world"
      /\ huffman_ok r = true.
Proof.
  split; [exact lowest_draw_range|].
  exact (pipeline_huffman_ok lowest_draw lowest_draw_range (py "hello world") 2).
Defined.

Lemma hamming_ok_implies_text_ok_witness :
  (forall seed a b, a <= b -> a <= lowest_draw seed a b <= b)
  /\ exists r,
      run_full_pipeline lowest_draw (py "hello world") 9 = Ok r
      /\ (hamming_ok r = true ->
          recovered_decoded_text r = py "hello world"
          /\ recovered_text_ok r = true).
Proof.
  split; [exact lowest_draw_range|].
  exact (hamming_ok_implies_text_ok lowest_draw lowest_draw_range
           (py "hello world") 9).
Defined.

Lemma pipeline_recovers_sparse_errors_witness :
  (forall seed a b, a <= b -> a <= lowest_draw seed a b <= b)
  /\ 7 <= 7
  /\ exists r,
      run_full_pipeline lowest_draw (py "hello world") 7 = Ok r
      /\ recovered_bits r = encoded_bits r
      /\ hamming_ok r = true
      /\ recovered_decoded_text r = py "hello world"
      /\ recovered_text_ok r = true.
Proof.
  assert (H : 7 <= 7) by lia.
  split; [exact lowest_draw_range|]. split; [exact H|].
  exact (pipeline_recovers_sparse_errors lowest_draw lowest_draw_range
           (py "hello world") 7 H).
Defined.

Lemma pipeline_without_corruption_witness :
  (forall seed a b, a <= b -> a <= lowest_draw seed a b <= b)
  /\ 0 <= 0
  /\ exists r,
      run_full_pipeline lowest_draw (py "hello world") 0 = Ok r
      /\ corrupted_bits r = hamming_bits r
      /\ corrupted_data_bits r = encoded_bits r
      /\ recovered_bits r = encoded_bits r
      /\ huffman_ok r = true /\ hamming_ok r = true
      /\ corrupted_decode_ok r = true /\ recovered_text_ok r = true.
Proof.
  assert (H : 0 <= 0) by lia.
  split; [exact lowest_draw_range|]. split; [exact H|].
  exact (pipeline_without_corruption lowest_draw lowest_draw_range
           (py "hello world") 0 H).
Defined.

Lemma corrupted_decode_ok_two_symbols_witness :
  (forall seed a b, a <= b -> a <= lowest_draw seed a b <= b)
  /\ In "A"%char (py "AAAB") /\ In "B"%char (py "AAAB") /\ "A"%char <> "B"%char
  /\ exists r,
      run_full_pipeline lowest_draw (py "AAAB") 1 = Ok r
      /\ corrupted_decode_ok r = true.
Proof.
  assert (Ha : In "A"%char (py "AAAB")) by (left; reflexivity).
  assert (Hb : In "B"%char (py "AAAB")) by (do 3 right; left; reflexivity).
  assert (Hab : "A"%char <> "B"%char) by discriminate.
  split; [exact lowest_draw_range|].
  split; [exact Ha|]. split; [exact Hb|]. split; [exact Hab|].
  exact (corrupted_decode_ok_two_symbols lowest_draw lowest_draw_range
           (py "AAAB") 1 "A"%char "B"%char Ha Hb Hab).
Defined.

(** ** Decoding, then encoding again *)

Lemma descend_snoc (n : HuffmanNode) (path : str) (b : ascii) (node c : HuffmanNode) :
  descend n path = Some node ->
  (if ascii_eqb b "0" then left node else right node) = Some c ->
  descend n (path ++ [b]) = Some c.
Proof.
  revert n. induction path as [|x path IH]; intros n Hd Hc; simpl in *.
  - assert (E : n = node) by congruence. subst n. rewrite Hc. reflexivity.
  - destruct (if ascii_eqb x "0" then left n else right n) as [m|];
      [|discriminate]. apply IH; assumption.
Qed.

Lemma proper_descend_leaf (n : HuffmanNode) :
  proper n ->
  forall (prefix path : str) (node : HuffmanNode) (sym : ascii),
    is_bitstring path ->
    descend n path = Some node -> symbol node = Some sym ->
    In (sym, prefix ++ path) (paths n prefix).
Proof.
  induction 1 as [s0 p | p l r Hl IHl Hr IHr];
    intros prefix path node sym Hbits Hd Hs.
  - destruct path as [|b path]; simpl in Hd.
    + assert (E : node = Node (Some s0) p None None) by congruence.
      subst node. simpl in Hs. assert (s0 = sym) by congruence. subst s0.
      rewrite app_nil_r. left. reflexivity.
    + destruct (ascii_eqb b "0"); discriminate Hd.
  - destruct path as [|b path]; simpl in Hd.
    + assert (E : node = Node None p (Some l) (Some r)) by congruence.
      subst node. discriminate Hs.
    + inversion Hbits as [|? ? Hb Hbits']; subst.
      cbn [paths]. apply in_or_app.
      destruct Hb as [-> | ->]; simpl in Hd.
      * left.
        replace (prefix ++ "0"%char :: path) with ((prefix ++ py "0") ++ path)
          by (rewrite <- app_assoc; reflexivity).
        eapply IHl; eassumption.
      * right.
        replace (prefix ++ "1"%char :: path) with ((prefix ++ py "1") ++ path)
          by (rewrite <- app_assoc; reflexivity).
        eapply IHr; eassumption.
Qed.

Lemma shape_descend_leaf (root : HuffmanNode) :
  huffman_shape root -> NoDup (leaves root) ->
  forall (path : str) (node : HuffmanNode) (sym : ascii),
    is_bitstring path ->
    descend root path = Some node -> symbol node = Some sym ->
    dict_get (paths root []) sym = Some path.
Proof.
  intros Hshape Hnd path node sym Hbits Hd Hs.
  apply dict_get_in; [rewrite shape_paths_keys; assumption|].
  destruct Hshape as [p s0 q | p l r Hl Hr].
  - destruct path as [|b path]; simpl in Hd.
    + assert (E : node = Node None p (Some (Node (Some s0) q None None)) None)
        by congruence.
      subst node. discriminate Hs.
    + inversion Hbits as [|? ? Hb Hbits']; subst.
      destruct Hb as [-> | ->]; simpl in Hd; [|discriminate Hd].
      destruct path as [|b path]; simpl in Hd.
      * assert (E : node = Node (Some s0) q None None) by congruence.
        subst node. simpl in Hs. assert (s0 = sym) by congruence. subst s0.
        left. reflexivity.
      * destruct (ascii_eqb b "0"); discriminate Hd.
  - assert (Hp : proper (Node None p (Some l) (Some r)))
      by (constructor; assumption).
    apply (proper_descend_leaf _ Hp [] path node sym Hbits Hd Hs).
Qed.

Lemma decode_then_encode_loop (root : HuffmanNode) :
  huffman_shape root -> NoDup (leaves root) ->
  forall (bits : str) (node : HuffmanNode) (pending acc dangling : str),
    is_bitstring bits -> is_bitstring pending ->
    descend root pending = Some node ->
    walk root bits node pending = Consumed dangling ->
    Forall (fun s => In s (leaves root)) acc ->
    Forall (fun s => In s (leaves root)) (decode_loop root bits node acc)
    /\ flat_map (code_of (paths root [])) (decode_loop root bits node acc)
       ++ dangling
       = flat_map (code_of (paths root [])) acc ++ pending ++ bits.
Proof.
  intros Hshape Hnd.
  induction bits as [|b bits IH];
    intros node pending acc dangling Hbits Hpend Hd Hwalk Hacc.
  - simpl in Hwalk. injection Hwalk as <-. simpl.
    rewrite app_nil_r. split; [exact Hacc | reflexivity].
  - inversion Hbits as [|? ? Hb Hbits']; subst.
    cbn [walk decode_loop] in *.
    destruct (if ascii_eqb b "0" then left node else right node) as [c|] eqn:Ec;
      [|discriminate Hwalk].
    assert (Hpb : is_bitstring (pending ++ [b]))
      by (apply Forall_app; split; [exact Hpend | constructor; [exact Hb | constructor]]).
    pose proof (descend_snoc root pending b node c Hd Ec) as Hdc.
    destruct (symbol c) as [sym|] eqn:Es.
    + pose proof (shape_descend_leaf root Hshape Hnd _ c sym Hpb Hdc Es) as Hcode.
      assert (Hin : In sym (leaves root)).
      { rewrite <- (shape_paths_keys root Hshape).
        eapply dict_get_some_key. exact Hcode. }
      destruct (IH root [] (acc ++ [sym]) dangling Hbits' (Forall_nil _)
                   eq_refl Hwalk) as [Hall Heq].
      { apply Forall_app. split; [exact Hacc | constructor; [exact Hin | constructor]]. }
      split; [exact Hall|].
      rewrite Heq, flat_map_app. cbn [flat_map app].
      unfold code_of at 2. rewrite Hcode, app_nil_r.
      rewrite <- !app_assoc. reflexivity.
    + destruct (IH c (pending ++ [b]) acc dangling Hbits' Hpb Hdc Hwalk Hacc)
        as [Hall Heq].
      split; [exact Hall|].
      rewrite Heq, <- !app_assoc. reflexivity.
Qed.

(** Decoding is inverse to encoding in the other direction too: when the
    walk over a bit string is not cut short, encoding the decoded text with
    the table of the same tree gives the bit string back, up to the dangling
    bits that the decoder dropped at the end. *)
Theorem decode_then_encode (probs : dict float) :
  probs <> [] -> NoDup (dict_keys probs) ->
  exists root,
    build_huffman_tree probs = Ok (Some root)
    /\ forall (bits dangling : str),
        is_bitstring bits ->
        walk_outcome bits (Some root) = Consumed dangling ->
        exists reencoded,
          huffman_encode (huffman_decode bits (Some root))
                         (build_huffman_codes (Some root)) = Ok reencoded
          /\ bits = reencoded ++ dangling.
Proof.
  intros Hne Hnd.
  destruct (huffman_table_ok probs Hne Hnd)
    as (root & Hroot & Hshape & Hcodes & Hndc & Hperm).
  exists root. split; [exact Hroot|].
  intros bits dangling Hbits Hwalk.
  assert (Hndl : NoDup (leaves root))
    by (rewrite <- (shape_paths_keys root Hshape); exact Hndc).
  destruct (decode_then_encode_loop root Hshape Hndl bits root [] [] dangling
              Hbits (Forall_nil _) eq_refl Hwalk (Forall_nil _)) as [Hall Heq].
  exists (flat_map (code_of (paths root [])) (huffman_decode bits (Some root))).
  rewrite Hcodes. simpl in Heq. split; [|symmetry; exact Heq].
  unfold huffman_encode. rewrite huffman_encode_loop; [reflexivity|].
  intros ch Hin.
  assert (Hk : In ch (dict_keys (paths root []))).
  { rewrite (shape_paths_keys root Hshape).
    apply (proj1 (Forall_forall _ _) Hall). exact Hin. }
  unfold dict_keys in Hk. apply in_map_iff in Hk as ([k c] & Ek & Hk).
  simpl in Ek. subst k. exists c. apply dict_get_in; assumption.
Qed.

Lemma decode_then_encode_witness :
  [("a"%char, 0.5%float); ("b"%char, 0.25%float); ("c"%char, 0.25%float)] <> []
  /\ NoDup (dict_keys [("a"%char, 0.5%float); ("b"%char, 0.25%float);
                       ("c"%char, 0.25%float)])
  /\ exists root,
      build_huffman_tree [("a"%char, 0.5%float); ("b"%char, 0.25%float);
                          ("c"%char, 0.25%float)] = Ok (Some root)
      /\ forall (bits dangling : str),
          is_bitstring bits ->
          walk_outcome bits (Some root) = Consumed dangling ->
          exists reencoded,
            huffman_encode (huffman_decode bits (Some root))
                           (build_huffman_codes (Some root)) = Ok reencoded
            /\ bits = reencoded ++ dangling.
Proof.
  assert (H1 : [("a"%char, 0.5%float); ("b"%char, 0.25%float);
                ("c"%char, 0.25%float)] <> []) by discriminate.
  assert (H2 : NoDup (dict_keys [("a"%char, 0.5%float); ("b"%char, 0.25%float);
                                 ("c"%char, 0.25%float)])).
  { simpl. repeat constructor; simpl; intuition discriminate. }
  split; [exact H1|]. split; [exact H2|].
  exact (decode_then_encode _ H1 H2).
Defined.

(** ** The request layer *)

Lemma lstrip_nil (text : str) :
  process.lstrip text = [] <-> forallb process.is_space text = true.
Proof.
  induction text as [|c text IH]; simpl; [tauto|].
  destruct (process.is_space c); simpl; [exact IH|].
  split; discriminate.
Qed.

Lemma lstrip_suffix (text : str) :
  exists spaces,
    text = spaces ++ process.lstrip text
    /\ forallb process.is_space spaces = true.
Proof.
  induction text as [|c text (spaces & E & Hs)]; simpl.
  - exists []. auto.
  - destruct (process.is_space c) eqn:Ec.
    + exists (c :: spaces). simpl. rewrite Ec, Hs. split; [congruence | reflexivity].
    + exists []. auto.
Qed.

Lemma forallb_rev (A : Type) (f : A -> bool) (l : list A) :
  forallb f (rev l) = forallb f l.
Proof.
  induction l as [|x l IH]; [reflexivity|].
  simpl. rewrite forallb_app, IH. simpl. rewrite andb_true_r. apply andb_comm.
Qed.

Lemma strip_nil (text : str) :
  process.strip text = [] <-> forallb process.is_space text = true.
Proof.
  unfold process.strip.
  destruct (lstrip_suffix text) as (spaces & E & Hs).
  assert (Hall : forallb process.is_space text
                 = forallb process.is_space (process.lstrip text)).
  { rewrite E at 1. rewrite forallb_app, Hs. reflexivity. }
  rewrite Hall. split.
  - intros H. apply (f_equal (@rev ascii)) in H. rewrite rev_involutive in H.
    simpl in H. apply lstrip_nil in H. rewrite forallb_rev in H. exact H.
  - intros H. rewrite <- forallb_rev in H. apply lstrip_nil in H.
    rewrite H. reflexivity.
Qed.

(** [_preview] returns a prefix of the text; for a limit that is not
    negative it holds [limit] characters, or the whole text when that is
    shorter. *)
Theorem preview_is_prefix (text : str) (limit : Z) :
  (exists rest, text = process._preview text limit ++ rest)
  /\ (0 <= limit -> len (process._preview text limit) = Z.min (len text) limit).
Proof.
  unfold process._preview, process.slice_to.
  destruct text as [|c t0] eqn:E.
  { split; [exists []; reflexivity | intros H; unfold len; simpl; lia]. }
  rewrite <- E. clear c t0 E.
  split.
  - exists (skipn (Z.to_nat (if limit <? 0 then Z.max 0 (len text + limit)
                             else limit)) text).
    symmetry. apply firstn_skipn.
  - intros Hl. destruct (limit <? 0) eqn:El; [apply Z.ltb_lt in El; lia|].
    unfold len. rewrite length_firstn. lia.
Qed.

Section RequestProofs.
Variable py_int : process.json -> result Z.

(** A request passes the validation exactly when it is a JSON object whose
    ["text"] is a string with a character that is not white space and whose
    ["error_interval"] (50 when absent) converts to an integer that is at
    least 1; the validated pair is that string and that integer. *)
Theorem validate_request_accepts_iff (data : process.json) (text : str)
        (interval : Z) :
  process._validate_request py_int data = process.Accepted (text, interval)
  <-> exists members,
        data = process.JObject members
        /\ process.get members (py "text") (process.JStr []) = process.JStr text
        /\ (exists c, In c text /\ process.is_space c = false)
        /\ py_int (process.get members (py "error_interval") (process.JInt 50))
           = Ok interval
        /\ 1 <= interval.
Proof.
  assert (Hblank : forall t, (exists c, In c t /\ process.is_space c = false)
                             <-> process.strip t <> []).
  { intros t. rewrite strip_nil. split.
    - intros (c & Hin & Hc) Hall.
      rewrite forallb_forall in Hall. rewrite (Hall c Hin) in Hc. discriminate.
    - intros Hn. destruct (forallb process.is_space t) eqn:Ef; [contradiction|].
      clear Hn. induction t as [|c t IH]; [discriminate|].
      simpl in Ef. destruct (process.is_space c) eqn:Ec.
      + destruct (IH Ef) as (c' & Hin & Hc'). exists c'. auto using in_cons.
      + exists c. split; [left; reflexivity | exact Ec]. }
  split.
  - intros H. unfold process._validate_request in H.
    destruct data as [| | | | |items|members]; try discriminate H.
    exists members. split; [reflexivity|].
    destruct (process.get members (py "text") (process.JStr []))
      as [| | | |s| |] eqn:Et; try discriminate H.
    destruct (process.strip s) as [|c0 s0] eqn:Es; [discriminate H|].
    destruct (py_int _) as [i|e] eqn:Ei; [|discriminate H].
    destruct (i <? 1) eqn:El; [discriminate H|].
    apply Z.ltb_ge in El.
    assert (s = text /\ i = interval) as [-> ->] by (split; congruence).
    split; [reflexivity|].
    split; [apply Hblank; rewrite Es; discriminate|].
    split; [reflexivity | exact El].
  - intros (members & -> & Et & Hc & Ei & Hl).
    unfold process._validate_request. rewrite Et.
    apply Hblank in Hc.
    destruct (process.strip text) as [|c0 s0]; [contradiction|].
    rewrite Ei.
    assert (El : (interval <? 1) = false) by (apply Z.ltb_ge; exact Hl).
    rewrite El. reflexivity.
Qed.

Variable randint : Z -> Z -> Z -> Z.
Hypothesis randint_range :
  forall seed a b, a <= b -> a <= randint seed a b <= b.

(** What [do_POST] relies on: for a request that passed the validation the
    pipeline raises nothing, the text round-trips through the Huffman code,
    and there is at least one encoded bit per character, so the encoded
    length is not zero. *)
Theorem validated_request_is_processed (data : process.json) (text : str)
        (interval : Z) :
  process._validate_request py_int data = process.Accepted (text, interval) ->
  exists r,
    run_full_pipeline randint text interval = Ok r
    /\ 1 <= text_length r <= len (encoded_bits r)
    /\ decoded_text r = text
    /\ huffman_ok r = true.
Proof.
  intros H.
  assert (Hne : (1 <= length text)%nat).
  { unfold process._validate_request in H.
    destruct data as [| | | | |items|members]; try discriminate H.
    destruct (process.get members (py "text") (process.JStr []))
      as [| | | |s| |]; try discriminate H.
    destruct (process.strip s) as [|c0 s0] eqn:Es; [discriminate H|].
    destruct (py_int _) as [i|e]; [|discriminate H].
    destruct (i <? 1); [discriminate H|].
    assert (s = text) by congruence. subst s.
    destruct text; [discriminate Es | simpl; lia]. }
  destruct (pipeline_stages_full randint randint_range text interval)
    as (root & enc & bs & cor & cdata & rec & _ & Hlen & _ & _ & _ & _ & _ & _
        & Hrun).
  eexists. split; [exact Hrun|]. cbn. unfold len.
  split; [lia|]. split; reflexivity.
Qed.

End RequestProofs.

Lemma validated_request_is_processed_witness :
  process._validate_request process.int_of_number
    (process.JObject [(py "text", process.JStr (py "to be or not to be"));
                      (py "error_interval", process.JInt 9)])
  = process.Accepted (py "to be or not to be", 9)
  /\ (forall seed a b, a <= b -> a <= lowest_draw seed a b <= b)
  /\ exists r,
      run_full_pipeline lowest_draw (py "to be or not to be") 9 = Ok r
      /\ 1 <= text_length r <= len (encoded_bits r)
      /\ decoded_text r = py "to be or not to be"
      /\ huffman_ok r = true.
Proof.
  assert (H : process._validate_request process.int_of_number
                (process.JObject
                   [(py "text", process.JStr (py "to be or not to be"));
                    (py "error_interval", process.JInt 9)])
              = process.Accepted (py "to be or not to be", 9)) by reflexivity.
  split; [exact H|]. split; [exact lowest_draw_range|].
  exact (validated_request_is_processed process.int_of_number lowest_draw
           lowest_draw_range _ _ _ H).
Defined.

(** ** The tree itself *)

(** On the empty distribution there is no tree. Otherwise the root is an
    inner node whose leaves carry the symbols of the distribution, each as
    often as it is a key: with one symbol the leaf is the root's only (left)
    child, with more every inner node has both children. *)
Theorem build_huffman_tree_shape (probs : dict float) :
  (probs = [] -> build_huffman_tree probs = Ok None)
  /\ (probs <> [] ->
      exists root,
        build_huffman_tree probs = Ok (Some root)
        /\ huffman_shape root
        /\ symbol root = None
        /\ Permutation (leaves root) (dict_keys probs)).
Proof.
  split; [intros ->; reflexivity|].
  intros Hne.
  destruct (build_huffman_tree_ok probs Hne) as (root & Hroot & Hshape & Hperm).
  exists root. split; [exact Hroot|]. split; [exact Hshape|].
  split; [destruct Hshape; reflexivity | exact Hperm].
Qed.

(** ** Interval 1: every bit of the stream is flipped *)

Lemma blocks_data_cons7 (fix_ : list Z -> list Z) (blk rest : list Z) (n : nat) :
  length blk = 7%nat ->
  blocks_data fix_ (blk ++ rest) (S n)
  = block_data (fix_ blk) ++ blocks_data fix_ rest n.
Proof.
  intros H.
  destruct (length7_inv _ H) as (b1 & b2 & b3 & b4 & b5 & b6 & b7 & ->).
  reflexivity.
Qed.

Lemma blocks_data_complement (n : nat) :
  forall l : list bool,
    length l = (4 * n)%nat ->
    blocks_data block_fix
      (bitstr_to_int_list (map flip_char (bitstring_of (spec_blocks l)))) n
    = map Zb (map negb l).
Proof.
  induction n as [|n IH]; intros l Hlen.
  - destruct l; [reflexivity | discriminate Hlen].
  - do 4 (destruct l as [|? l]; [simpl in Hlen; lia|]).
    assert (Hr : length l = (4 * n)%nat) by (simpl in Hlen; lia).
    cbn [spec_blocks].
    unfold bitstring_of, bitstr_to_int_list in *.
    rewrite !map_app.
    rewrite blocks_data_cons7 by reflexivity.
    rewrite (IH l Hr).
    destruct b, b0, b1, b2; reflexivity.
Qed.

Lemma strip_pad_any (xs ys : list bool) (pad : Z) :
  len ys = pad ->
  int_list_to_bitstr
    (let data := map Zb (xs ++ ys) in
     if 0 <? pad then drop_last data pad else data)
  = bitstring_of xs.
Proof.
  intros Hpad. cbv zeta.
  destruct (0 <? pad) eqn:Ep.
  - rewrite map_app.
    assert (E : pad = len (map Zb ys))
      by (unfold len in *; rewrite length_map; symmetry; exact Hpad).
    rewrite E, drop_last_app. apply int_list_to_bitstr_bits.
  - apply Z.ltb_ge in Ep.
    assert (ys = [])
      by (destruct ys; [reflexivity | unfold len in Hpad; simpl in Hpad; lia]).
    subst ys. rewrite app_nil_r. apply int_list_to_bitstr_bits.
Qed.

Lemma flip_bitstring_of (bs : list bool) :
  map flip_char (bitstring_of bs) = bitstring_of (map negb bs).
Proof.
  unfold bitstring_of. rewrite !map_map. apply map_ext. intros []; reflexivity.
Qed.

Lemma decode_complement (bs : list bool) :
  hamming_7_4_decode
    (map flip_char (bitstring_of (fst (spec_hamming_encode bs))))
    (snd (spec_hamming_encode bs))
  = Ok (bitstring_of (map negb bs)).
Proof.
  destruct bs as [|b0 bs0] eqn:Ebs; [reflexivity|]. rewrite <- Ebs.
  assert (Hne : bs <> []) by (rewrite Ebs; discriminate).
  destruct (padded_layout bs Hne) as (n & Hn0 & Hn & Hslen & Hplen & Hpad).
  unfold spec_hamming_encode. cbn [fst snd].
  set (pad := spec_pad_bits (len bs)) in *.
  set (padded := bs ++ repeat false (Z.to_nat pad)) in *.
  assert (Helen : len (map flip_char (bitstring_of (spec_blocks padded)))
                  = 7 * Z.of_nat n).
  { unfold len, bitstring_of. rewrite !length_map, Hslen. lia. }
  rewrite hamming_7_4_decode_blocks.
  - rewrite Helen.
    replace (7 * Z.of_nat n / 7) with (Z.of_nat n)
      by (rewrite Z.mul_comm, Z.div_mul; lia).
    rewrite Nat2Z.id.
    rewrite blocks_data_complement by exact Hn.
    f_equal. unfold padded. rewrite map_app.
    apply strip_pad_any. unfold len. rewrite length_map, repeat_length. lia.
  - intros E. apply (f_equal (@length _)) in E.
    unfold bitstring_of in E. rewrite !length_map, Hslen in E. simpl in E. lia.
  - rewrite Helen, Z.mul_comm. apply Z.mod_mul. lia.
Qed.

Section IntervalOne.
Variable randint : Z -> Z -> Z -> Z.
Hypothesis randint_range :
  forall seed a b, a <= b -> a <= randint seed a b <= b.

(** With interval 1 the whole Hamming stream is complemented; the complement
    of a codeword is the codeword of the complemented data, so the decoder
    finds nothing to correct and returns the complement of the encoded bits:
    for a non-empty text [hamming_ok] is [False]. *)
Theorem pipeline_interval_one (text : str) :
  exists r,
    run_full_pipeline randint text 1 = Ok r
    /\ corrupted_bits r = map flip_char (hamming_bits r)
    /\ recovered_bits r = map flip_char (encoded_bits r)
    /\ (text <> [] -> hamming_ok r = false).
Proof.
  destruct (pipeline_stages_full randint randint_range text 1)
    as (root & enc & bs & cor & cdata & rec & Eenc & Hlen & _ & _ & _ & Hcor & _
        & Hrec & Hrun).
  rewrite add_errors_all_flipped in Hcor.
  assert (Ecor : cor = map flip_char (bitstring_of (fst (spec_hamming_encode bs))))
    by congruence.
  subst cor.
  rewrite decode_complement in Hrec.
  assert (Erec : rec = bitstring_of (map negb bs)) by congruence.
  subst rec.
  eexists. split; [exact Hrun|]. cbn.
  split; [reflexivity|].
  split; [rewrite Eenc; symmetry; apply flip_bitstring_of|].
  intros Hne.
  destruct (str_eqb (bitstring_of (map negb bs)) enc) eqn:E; [|reflexivity].
  exfalso. apply str_eqb_eq in E. rewrite Eenc in E.
  destruct bs as [|b bs'].
  - rewrite Eenc in Hlen. simpl in Hlen. destruct text; [contradiction|].
    simpl in Hlen. lia.
  - simpl in E. destruct b; discriminate E.
Qed.

End IntervalOne.

Lemma pipeline_interval_one_witness :
  (forall seed a b, a <= b -> a <= lowest_draw seed a b <= b)
  /\ exists r,
      run_full_pipeline lowest_draw (py "AAAB") 1 = Ok r
      /\ corrupted_bits r = map flip_char (hamming_bits r)
      /\ recovered_bits r = map flip_char (encoded_bits r)
      /\ (py "AAAB" <> [] -> hamming_ok r = false).
Proof.
  split; [exact lowest_draw_range|].
  exact (pipeline_interval_one lowest_draw lowest_draw_range (py "AAAB")).
Defined.
